(** * grendel.symmetry.point_group: the PointGroup aggregate

    A shallow embedding of [lib/python/grendel/symmetry/point_group.py].

    Python objects live in a heap indexed by references; [self.operations]
    is a list of references, so that the in-place sort permutes references
    while the mutable slots of an operation ([name], [inverse],
    [principal_reflection]) are shared by every alias.  A raised exception
    aborts the computation: a method is a function from the state to either
    a result and a new state, or the exception. *)

From Stdlib Require Import ZArith List String Ascii Bool Arith Lia.
From Stdlib Require Import Permutation DecimalString.
From Stdlib Require Import Setoid Morphisms RelationClasses.
Import ListNotations.

Set Implicit Arguments.

(** ** Data model *)

Definition ref := nat.

(** The concrete classes of [SymmetryOperation]; [isinstance] tests become
    pattern matching on the tag. *)
Inductive Kind (Vec : Type) : Type :=
| IdentityOperation
| Rotation (n exponent : Z) (axis : Vec)
| ImproperRotation (n exponent : Z) (axis : Vec)
| Reflection (axis : Vec)
| Inversion.

Arguments IdentityOperation {Vec}.
Arguments Inversion {Vec}.

(** A [SymmetryOperation] object: its class and matrix never change, the
    three slots below are written during construction of the group. *)
Record Op (Vec Mat : Type) : Type := mkOp {
  kind : Kind Vec;
  matrix : Mat;
  name : option string;
  inverse : option ref;
  principal_reflection : bool
}.

(** The messages of the [GroupTheoryError]s raised in this file. *)
Inductive Message : Type :=
| MissingIdentity       (* "Group missing identity element!" *)
| OperationNotFound     (* "Operation ... not found in group." *)
| GroupNotClosed        (* "Group not closed: ..." *)
| NonUniqueInverse      (* "Inverse of group element ... is not unique." *)
| ClassesNotDisjoint    (* "Conjugacy classes not disjoint." *)
| UnclassifiableGroup.  (* "Don't know the name of group with classes: ..." *)

Inductive Exception : Type :=
| GroupTheoryError (msg : Message)
| TypeError
| ZeroDivisionError
| IndexError.

Inductive Result (A : Type) : Type :=
| Ok (a : A)
| Raise (e : Exception).

Arguments Raise {A} e.

(** What this file takes from the rest of the package: the matrix and vector
    types of [grendel.gmath], the static predicates of [SymmetryOperation],
    the ordering [__lt__] of the operations and [Reflection.is_dihedral]. *)
Class Collaborator : Type := {
  Vec : Type;
  Mat : Type;
  Vector : Z -> Z -> Z -> Vec;
  matmul : Mat -> Mat -> Mat;
  is_same_matrix : Mat -> Mat -> bool;
  is_same_axis : Vec -> Vec -> bool;
  is_perpendicular : Vec -> Vec -> bool;
  op_lt : Op Vec Mat -> Op Vec Mat -> bool;
  is_dihedral : (ref -> Op Vec Mat) -> list ref -> ref -> bool
}.

(** [str] of a Python integer. *)
Definition str (z : Z) : string := NilEmpty.string_of_int (Z.to_int z).

(** ["s" * k] *)
Fixpoint str_repeat (s : string) (k : nat) : string :=
  match k with
  | O => EmptyString
  | S k' => (s ++ str_repeat s k')%string
  end.

Section PointGroup.

Context {C : Collaborator}.

Definition Operation : Type := Op Vec Mat.
Definition Heap : Type := ref -> Operation.

(** Modelled from the spec: [ConjugacyClass] (conjugacy_class.py is not part
    of this file) is a non-empty collection of mutually conjugate operations,
    duplicate-safe, with membership keyed by tolerance-equality. *)
Record ConjugacyClass : Type := mkClass { elements : list ref }.

(** The heap of operations and the attributes of [self]. *)
Record State : Type := mkState {
  heap : Heap;
  operations : list ref;
  classes : list ConjugacyClass;
  pg_name : option string;
  _generate_elements : bool;
  _identity_element : option ref
}.

(** ** The state-and-exception monad *)

Definition M (A : Type) : Type := State -> Result (A * State).

Definition ret {A} (a : A) : M A := fun s => Ok (a, s).

Definition bind {A B} (m : M A) (k : A -> M B) : M B :=
  fun s => match m s with
           | Ok (a, s') => k a s'
           | Raise e => Raise e
           end.

Definition raise {A} (e : Exception) : M A := fun _ => Raise e.
Definition get : M State := fun s => Ok (s, s).
Definition put (s : State) : M unit := fun _ => Ok (tt, s).

Notation "x <- m ;; k" := (bind m (fun x => k))
  (at level 61, m at next level, right associativity).
Notation "m ;;; k" := (bind m (fun _ => k))
  (at level 61, right associativity).

(** [for x in l: body x] *)
Fixpoint for_each {A} (l : list A) (body : A -> M unit) : M unit :=
  match l with
  | [] => ret tt
  | x :: t => body x ;;; for_each t body
  end.

(** ** Heap updates *)

Definition upd (h : Heap) (r : ref) (o : Operation) : Heap :=
  fun r' => if Nat.eqb r' r then o else h r'.

Definition set_inverse (r : ref) (v : ref) : M unit :=
  fun s =>
    let o := heap s r in
    Ok (tt, mkState
              (upd (heap s) r
                   (mkOp (kind o) (matrix o) (name o) (Some v)
                         (principal_reflection o)))
              (operations s) (classes s) (pg_name s)
              (_generate_elements s) (_identity_element s)).

Definition set_name (r : ref) (v : string) : M unit :=
  fun s =>
    let o := heap s r in
    Ok (tt, mkState
              (upd (heap s) r
                   (mkOp (kind o) (matrix o) (Some v) (inverse o)
                         (principal_reflection o)))
              (operations s) (classes s) (pg_name s)
              (_generate_elements s) (_identity_element s)).

Definition set_principal_reflection (r : ref) : M unit :=
  fun s =>
    let o := heap s r in
    Ok (tt, mkState
              (upd (heap s) r
                   (mkOp (kind o) (matrix o) (name o) (inverse o) true))
              (operations s) (classes s) (pg_name s)
              (_generate_elements s) (_identity_element s)).

(** [self.classes = cls] *)
Definition with_classes (s : State) (cls : list ConjugacyClass) : State :=
  mkState (heap s) (operations s) cls (pg_name s) (_generate_elements s)
          (_identity_element s).

Definition set_classes (cls : list ConjugacyClass) : M unit :=
  fun s => Ok (tt, with_classes s cls).

(** ** Class tests and accessors *)

Definition is_identity (o : Operation) : bool :=
  match kind o with IdentityOperation => true | _ => false end.
Definition is_rotation (o : Operation) : bool :=
  match kind o with Rotation _ _ _ => true | _ => false end.
Definition is_improper_rotation (o : Operation) : bool :=
  match kind o with ImproperRotation _ _ _ => true | _ => false end.
Definition is_reflection (o : Operation) : bool :=
  match kind o with Reflection _ => true | _ => false end.
Definition is_inversion (o : Operation) : bool :=
  match kind o with Inversion => true | _ => false end.

(** [op.n], [op.exponent] and [op.axis]; the source reads them only from
    operations selected by class, the last branches are never reached. *)
Definition op_n (o : Operation) : Z :=
  match kind o with
  | Rotation n _ _ | ImproperRotation n _ _ => n
  | _ => 0%Z
  end.
Definition op_exponent (o : Operation) : Z :=
  match kind o with
  | Rotation _ e _ | ImproperRotation _ e _ => e
  | _ => 0%Z
  end.
Definition op_axis (o : Operation) : Vec :=
  match kind o with
  | Rotation _ _ a | ImproperRotation _ _ a | Reflection a => a
  | _ => Vector 0 0 0
  end.

(** Modelled from the spec: [SymmetryOperation.__eq__] (symmetry_operation.py
    is not part of this file) is tolerance-based equality, a matrix
    comparison. *)
Definition op_eq (h : Heap) (a b : ref) : bool :=
  is_same_matrix (matrix (h a)) (matrix (h b)).

(** [l[l.index(x)]] on a Python list: the first element that is [x] or
    equals it; [None] when [x in l] is false. *)
Definition list_index (h : Heap) (l : list ref) (x : ref) : option ref :=
  find (fun y => Nat.eqb y x || op_eq h y x) l.

(** ** Properties *)

(** The [CachedProperty] [identity_element]: the first [IdentityOperation]
    of [self], memoised. *)
Definition identity_element : M ref :=
  fun s =>
    match _identity_element s with
    | Some r => Ok (r, s)
    | None =>
        match find (fun r => is_identity (heap s r)) (operations s) with
        | Some r =>
            Ok (r, mkState (heap s) (operations s) (classes s) (pg_name s)
                           (_generate_elements s) (Some r))
        | None => Raise (GroupTheoryError MissingIdentity)
        end
    end.

Definition rotations (s : State) : list ref :=
  filter (fun r => is_rotation (heap s r)) (operations s).
Definition improper_rotations (s : State) : list ref :=
  filter (fun r => is_improper_rotation (heap s r)) (operations s).
Definition reflections (s : State) : list ref :=
  filter (fun r => is_reflection (heap s r)) (operations s).
Definition inversion (s : State) : option ref :=
  find (fun r => is_inversion (heap s r)) (operations s).

(** ** Methods *)

(** [op in self.operations] and [self.operations.index(op)] find the same
    element, the first one identical or equal to [op]. *)
Definition element_for (op : ref) : M ref :=
  fun s =>
    match list_index (heap s) (operations s) op with
    | Some r => Ok (r, s)
    | None =>
        if _generate_elements s then
          Ok (op, mkState (heap s) (operations s ++ [op]) (classes s)
                          (pg_name s) (_generate_elements s)
                          (_identity_element s))
        else Raise (GroupTheoryError OperationNotFound)
    end.

Definition element_with_matrix (mat : Mat) : M ref :=
  fun s =>
    match find (fun r => is_same_matrix (matrix (heap s r)) mat)
               (operations s) with
    | Some r => Ok (r, s)
    | None => Raise (GroupTheoryError GroupNotClosed)
    end.

Definition num_C_n_axes (s : State) (n : Z) : nat :=
  List.length (filter (fun r => Z.eqb (op_n (heap s r)) n
                                && Z.eqb (op_exponent (heap s r)) 1)
                 (rotations s)).

(** Modelled from the spec: [SymmetryOperation.__mul__]
    (symmetry_operation.py is not part of this file) composes two operations
    of a group and answers the element of the group that has the product
    matrix; with self-extension disabled an unmatched product is the
    "group not closed" error of [element_with_matrix]. *)
Definition mul (a b : ref) : M ref :=
  s <- get ;;
  element_with_matrix (matmul (matrix (heap s a)) (matrix (heap s b))).

(** [not x.inverse is None and not x.inverse == y] *)
Definition inverse_differs (h : Heap) (x y : ref) : bool :=
  match inverse (h x) with
  | None => false
  | Some k => negb (op_eq h k y)
  end.

(** The body of the two loops of [_check_closure]. *)
Definition check_pair (iop jop : ref) : M unit :=
  p <- mul iop jop ;;
  e <- identity_element ;;
  s <- get ;;
  if op_eq (heap s) p e then
    if inverse_differs (heap s) iop jop || inverse_differs (heap s) jop iop
    then raise (GroupTheoryError NonUniqueInverse)
    else set_inverse iop jop ;;; set_inverse jop iop
  else ret tt.

Definition _check_closure : M unit :=
  s <- get ;;
  for_each (operations s) (fun iop =>
    s' <- get ;;
    for_each (operations s') (fun jop => check_pair iop jop)).

(** Modelled from the spec: the methods of [ConjugacyClass]. *)
Definition class_contains (h : Heap) (cl : ConjugacyClass) (x : ref) : bool :=
  existsb (fun y => op_eq h y x) (elements cl).

Definition add_element (h : Heap) (cl : ConjugacyClass) (x : ref)
  : ConjugacyClass :=
  if class_contains h cl x then cl else mkClass (elements cl ++ [x]).

(** [self.classes[k].add_element(x)] *)
Fixpoint add_to_class (h : Heap) (k : nat) (x : ref)
         (cls : list ConjugacyClass) : list ConjugacyClass :=
  match cls, k with
  | [], _ => []
  | cl :: t, O => add_element h cl x :: t
  | cl :: t, S k' => cl :: add_to_class h k' x t
  end.

(** The positions of the classes [cl] of [cls] with [op in cl]. *)
Fixpoint classes_of (h : Heap) (op : ref) (k : nat)
         (cls : list ConjugacyClass) : list nat :=
  match cls with
  | [] => []
  | cl :: t =>
      if class_contains h cl op then k :: classes_of h op (S k) t
      else classes_of h op (S k) t
  end.

(** [g * op * g.inverse]; the product with a missing inverse is an error
    of the operand types. *)
Definition conjugate (g op : ref) : M ref :=
  x <- mul g op ;;
  s <- get ;;
  match inverse (heap s g) with
  | Some gi => mul x gi
  | None => raise TypeError
  end.

Definition class_step (op : ref) : M unit :=
  s <- get ;;
  k <- match classes_of (heap s) op 0 (classes s) with
       | [] =>
           set_classes (classes s ++ [mkClass [op]]) ;;;
           ret (List.length (classes s))
       | [k] => ret k
       | _ => raise (GroupTheoryError ClassesNotDisjoint)
       end ;;
  for_each (operations s) (fun g =>
    if Nat.eqb g op then ret tt
    else
      x <- conjugate g op ;;
      s' <- get ;;
      set_classes (add_to_class (heap s') k x (classes s'))).

Definition _compute_classes : M unit :=
  s <- get ;;
  for_each (operations s) class_step.

(** ** Sorting and grouping *)

(** [list.sort] and [sorted]: a stable insertion sort on [__lt__]. *)
Fixpoint insert {A} (lt : A -> A -> bool) (x : A) (l : list A) : list A :=
  match l with
  | [] => [x]
  | y :: t => if lt x y then x :: y :: t else y :: insert lt x t
  end.

Definition sort_by {A} (lt : A -> A -> bool) (l : list A) : list A :=
  fold_left (fun acc x => insert lt x acc) l [].

Definition sorted (h : Heap) (l : list ref) : list ref :=
  sort_by (fun a b => op_lt (h a) (h b)) l.

(** [itertools.groupby]: the maximal runs of consecutive elements with the
    same key. *)
Fixpoint groupby {A} (same_key : A -> A -> bool) (l : list A)
  : list (list A) :=
  match l with
  | [] => []
  | x :: t =>
      match groupby same_key t with
      | (y :: g) :: gs =>
          if same_key x y then (x :: y :: g) :: gs
          else [x] :: (y :: g) :: gs
      | _ => [[x]]
      end
  end.

Definition same_n (h : Heap) (a b : ref) : bool :=
  Z.eqb (op_n (h a)) (op_n (h b)).

Definition same_n_exponent (h : Heap) (a b : ref) : bool :=
  Z.eqb (op_n (h a)) (op_n (h b))
  && Z.eqb (op_exponent (h a)) (op_exponent (h b)).

(** Modelled from the spec: [ConjugacyClass.first_element], the smallest
    member under the order of the operations. *)
Definition first_element (h : Heap) (cl : ConjugacyClass) : option ref :=
  hd_error (sorted h (elements cl)).

Definition class_lt (h : Heap) (c1 c2 : ConjugacyClass) : bool :=
  match first_element h c1, first_element h c2 with
  | Some a, Some b => op_lt (h a) (h b)
  | _, _ => false
  end.

(** ** Naming the operations *)

(** The first loop of [_name_operations]: the rotations of the first
    [(n, exponent)] group of the sorted rotations. *)
Definition principal_rotations (s : State) : list ref :=
  hd [] (groupby (same_n_exponent (heap s))
                 (sorted (heap s) (rotations s))).

Definition flag_if_same_axis (rot op : ref) : M unit :=
  s <- get ;;
  if is_same_axis (op_axis (heap s op)) (op_axis (heap s rot))
  then set_principal_reflection op
  else ret tt.

Definition flag_principal_reflections : M unit :=
  s <- get ;;
  match principal_rotations s with
  | [] => ret tt
  | rot0 :: rest =>
      if Z.ltb 2 (op_n (heap s rot0)) then
        for_each (rot0 :: rest) (fun rot =>
          for_each (reflections s) (fun op => flag_if_same_axis rot op))
      else
        match find (fun op => is_same_axis (op_axis (heap s op))
                                           (op_axis (heap s rot0)))
                   (reflections s) with
        | Some op => set_principal_reflection op
        | None => ret tt
        end
  end.

(** [self.operations.sort()]; the memoised [_rotations],
    [_improper_rotations] and [_reflections] are reset, so that the
    properties are computed again from the sorted list. *)
Definition sort_operations : M unit :=
  fun s => Ok (tt, mkState (heap s) (sorted (heap s) (operations s))
                           (classes s) (pg_name s) (_generate_elements s)
                           (_identity_element s)).
(** The loop over the members of an order group that has several axes.  The
    loops for rotations and for improper rotations differ in the prefix
    ("C_" or "S_") and in the vector the second test compares with, here
    [ydir]. *)
Fixpoint name_axes (prefix : string) (ydir : Vec) (order : Z) (naxes : nat)
         (rotgrp : list ref) (i prime_count : nat) (labels : list string)
         (has_paren_label : bool) : M unit :=
  match rotgrp with
  | [] => ret tt
  | rot :: t =>
      s <- get ;;
      if Nat.ltb i naxes then
        if is_same_axis (op_axis (heap s rot)) (Vector 0 0 1) then
          set_name rot (prefix ++ str order ++ "(z)") ;;;
          name_axes prefix ydir order naxes t (S i) prime_count
                    (labels ++ ["(z)"%string]) true
        else if is_same_axis (op_axis (heap s rot)) ydir then
          set_name rot (prefix ++ str order ++ "(y)") ;;;
          name_axes prefix ydir order naxes t (S i) prime_count
                    (labels ++ ["(y)"%string]) true
        else if is_same_axis (op_axis (heap s rot)) (Vector 1 0 0) then
          set_name rot (prefix ++ str order ++ "(x)") ;;;
          name_axes prefix ydir order naxes t (S i) prime_count
                    (labels ++ ["(x)"%string]) true
        else
          let label :=
            str_repeat "'" (prime_count + (if has_paren_label then 1 else 0))
          in
          set_name rot (prefix ++ str order ++ label) ;;;
          name_axes prefix ydir order naxes t (S i) (S prime_count)
                    (labels ++ [label]) has_paren_label
      else
        match naxes with
        | O => raise ZeroDivisionError
        | S _ =>
            match nth_error labels (Nat.modulo i naxes) with
            | None => raise IndexError
            | Some label =>
                set_name rot (prefix ++ str order ++ label ++ "^"
                              ++ str (op_exponent (heap s rot))) ;;;
                name_axes prefix ydir order naxes t (S i) prime_count labels
                          has_paren_label
            end
        end
  end%string.

(** The body of the loop over the order groups. *)
Definition name_group (prefix : string) (ydir : Vec) (rotgrp : list ref)
  : M unit :=
  match rotgrp with
  | [] => raise IndexError
  | rot0 :: rest =>
      s <- get ;;
      let order := op_n (heap s rot0) in
      if Z.eqb (Z.of_nat (List.length rotgrp)) (op_n (heap s rot0) - 1) then
        set_name rot0 (prefix ++ str order) ;;;
        for_each rest (fun rot =>
          s' <- get ;;
          set_name rot (prefix ++ str order ++ "^"
                        ++ str (op_exponent (heap s' rot))))
      else
        let naxes :=
          List.length
            (filter (fun x => Z.eqb (op_exponent (heap s x)) 1) rotgrp) in
        name_axes prefix ydir order naxes rotgrp 0 0 [] false
  end%string.

Definition name_rotations : M unit :=
  s <- get ;;
  for_each (groupby (same_n (heap s)) (rotations s))
           (name_group "C_" (Vector 0 1 1)).

Definition name_improper_rotations : M unit :=
  s <- get ;;
  for_each (groupby (same_n (heap s)) (improper_rotations s))
           (name_group "S_" (Vector 0 1 0)).

(** Modelled from the spec: [Reflection.is_principal_reflection] answers the
    flag set by the first step of [_name_operations]. *)
Definition is_principal_reflection (s : State) (r : ref) : bool :=
  principal_reflection (heap s r).

(** The subscripts of the reflections; [prime_count] is the dictionary of
    the source. *)
Inductive Subscript : Type := sub_v | sub_d | sub_h.

Definition subscript_str (c : Subscript) : string :=
  match c with sub_v => "v" | sub_d => "d" | sub_h => "h" end.

Record PrimeCount : Type := mkPrimeCount { pc_v : nat; pc_d : nat; pc_h : nat }.

Definition pc_get (pc : PrimeCount) (c : Subscript) : nat :=
  match c with sub_v => pc_v pc | sub_d => pc_d pc | sub_h => pc_h pc end.

Definition pc_incr (pc : PrimeCount) (c : Subscript) : PrimeCount :=
  match c with
  | sub_v => mkPrimeCount (S (pc_v pc)) (pc_d pc) (pc_h pc)
  | sub_d => mkPrimeCount (pc_v pc) (S (pc_d pc)) (pc_h pc)
  | sub_h => mkPrimeCount (pc_v pc) (pc_d pc) (S (pc_h pc))
  end.

Fixpoint name_reflections (refs : list ref) (prime_count : PrimeCount)
         (has_paren_label : bool) : M unit :=
  match refs with
  | [] => ret tt
  | r :: t =>
      s <- get ;;
      let subscript :=
        if is_principal_reflection s r then sub_h
        else if is_dihedral (heap s) (operations s) r then sub_d
        else sub_v in
      if is_same_axis (op_axis (heap s r)) (Vector 0 0 1) then
        set_name r ("sigma_" ++ subscript_str subscript ++ "(xy)") ;;;
        name_reflections t prime_count true
      else if is_same_axis (op_axis (heap s r)) (Vector 0 1 0) then
        set_name r ("sigma_" ++ subscript_str subscript ++ "(xz)") ;;;
        name_reflections t prime_count true
      else if is_same_axis (op_axis (heap s r)) (Vector 1 0 0) then
        set_name r ("sigma_" ++ subscript_str subscript ++ "(yz)") ;;;
        name_reflections t prime_count true
      else
        let label :=
          str_repeat "'" (pc_get prime_count subscript
                          + (if has_paren_label then 1 else 0)) in
        set_name r ("sigma_" ++ subscript_str subscript ++ label) ;;;
        name_reflections t (pc_incr prime_count subscript) has_paren_label
  end%string.

(** [self.classes.sort(key=attrgetter('first_element'))] *)
Definition sort_classes : M unit :=
  s <- get ;;
  set_classes (sort_by (class_lt (heap s)) (classes s)).

Definition _name_operations : M unit :=
  flag_principal_reflections ;;;
  sort_operations ;;;
  e <- identity_element ;;
  set_name e "E" ;;;
  s <- get ;;
  match inversion s with
  | Some i => set_name i "i"
  | None => ret tt
  end ;;;
  name_rotations ;;;
  name_improper_rotations ;;;
  s' <- get ;;
  name_reflections (reflections s') (mkPrimeCount 0 0 0) false ;;;
  sort_classes.

(** ** The Schoenflies name *)

Definition set_pg_name (v : string) : M unit :=
  fun s => Ok (tt, mkState (heap s) (operations s) (classes s) (Some v)
                           (_generate_elements s) (_identity_element s)).

Definition unclassifiable {A} : M A :=
  raise (GroupTheoryError UnclassifiableGroup).

(** [any(ref.is_principal_reflection() for ref in self.reflections)] *)
Definition any_principal_reflection (s : State) : bool :=
  existsb (is_principal_reflection s) (reflections s).

(** The counting loop of the second branch of [_get_name]. *)
Definition count_perpendicular_C2 (s : State) (highest_axis : Vec) : nat :=
  List.length
    (filter (fun rot => Z.eqb (op_n (heap s rot)) 2
                        && is_perpendicular highest_axis
                                            (op_axis (heap s rot)))
            (rotations s)).

Definition _get_name : M unit :=
  s <- get ;;
  if Nat.leb 2 (List.length
                  (filter (fun rot => Z.ltb 2 (op_n (heap s rot))
                                      && Z.eqb (op_exponent (heap s rot)) 1)
                          (rotations s)))
  then
    if Nat.eqb (num_C_n_axes s 5) 12 then
      match inversion s with
      | None => set_pg_name "I"
      | Some _ => set_pg_name "I_h"
      end
    else if Nat.eqb (num_C_n_axes s 4) 6 then
      match inversion s with
      | None => set_pg_name "O"
      | Some _ => set_pg_name "O_h"
      end
    else if Nat.eqb (num_C_n_axes s 3) 4 then
      match inversion s with
      | None =>
          if Nat.eqb (List.length (reflections s)) 6 then set_pg_name "T_d"
          else set_pg_name "T"
      | Some _ => set_pg_name "T_h"
      end
    else unclassifiable
  else
    match rotations s with
    | highest_Cn :: _ =>
        let highest_n := op_n (heap s highest_Cn) in
        let highest_axis := op_axis (heap s highest_Cn) in
        let count := count_perpendicular_C2 s highest_axis in
        if Z.eqb (Z.of_nat count) highest_n then
          if any_principal_reflection s then
            set_pg_name ("D_" ++ str highest_n ++ "h")
          else if Z.eqb (Z.of_nat (List.length (reflections s))) highest_n
          then set_pg_name ("D_" ++ str highest_n ++ "d")
          else if Nat.eqb (List.length (reflections s)) 0 then
            set_pg_name ("D_" ++ str highest_n)
          else unclassifiable
        else
          if any_principal_reflection s then
            set_pg_name ("C_" ++ str highest_n ++ "h")
          else if Z.eqb (Z.of_nat (List.length (reflections s))) highest_n
          then set_pg_name ("C_" ++ str highest_n ++ "v")
          else if existsb (fun irot => Z.eqb (op_n (heap s irot))
                                             (2 * highest_n))
                          (improper_rotations s)
          then set_pg_name ("S_" ++ str (2 * highest_n))
          else set_pg_name ("C_" ++ str highest_n)
    | [] =>
        if Nat.eqb (List.length (reflections s)) 1 then set_pg_name "C_s"
        else
          match inversion s with
          | Some _ => set_pg_name "C_i"
          | None =>
              if Nat.eqb (List.length (operations s)) 1 then
                set_pg_name "C_1"
              else unclassifiable
          end
    end%string.

(** ** Initialization *)

(** The attributes of a new [PointGroup] over the operations [ops];
    [_generate_elements] is the class attribute, [False]. *)
Definition new_point_group (h : Heap) (ops : list ref) : State :=
  mkState h ops [] None false None.

(** [PointGroup.__init__]: the operations are of the type of the
    operations, the [TypeError] of the first test is excluded by it. *)
Definition PointGroup_init (h : Heap) (ops : list ref) : Result State :=
  match (_check_closure ;;; _compute_classes ;;; _name_operations ;;;
         _get_name) (new_point_group h ops) with
  | Ok (_, s) => Ok s
  | Raise e => Raise e
  end.

End PointGroup.

(** ** An exact collaborator

    Integer vectors and 3x3 integer matrices with exact comparisons: the
    operations whose matrices have integer entries (the axes and planes of
    the coordinate system, the fourfold rotations about them) are what the
    package computes for them up to rounding. *)
Module Exact.

Open Scope Z_scope.

Definition V3 : Type := (Z * Z * Z)%type.
Definition M3 : Type := (V3 * V3 * V3)%type.

Definition dot (u v : V3) : Z :=
  let '(a, b, c) := u in let '(x, y, z) := v in a * x + b * y + c * z.

Definition cross (u v : V3) : V3 :=
  let '(a, b, c) := u in
  let '(x, y, z) := v in
  (b * z - c * y, c * x - a * z, a * y - b * x).

Definition v3_eqb (u v : V3) : bool :=
  let '(a, b, c) := u in
  let '(x, y, z) := v in
  (a =? x) && (b =? y) && (c =? z).

Definition col (m : M3) (k : nat) : V3 :=
  let '((a, b, c), (d, e, f), (g, h, i)) := m in
  match k with
  | O => (a, d, g)
  | S O => (b, e, h)
  | _ => (c, f, i)
  end.

Definition mat_mul (m p : M3) : M3 :=
  let '(r0, r1, r2) := m in
  ((dot r0 (col p 0), dot r0 (col p 1), dot r0 (col p 2)),
   (dot r1 (col p 0), dot r1 (col p 1), dot r1 (col p 2)),
   (dot r2 (col p 0), dot r2 (col p 1), dot r2 (col p 2))).

Definition mat_eqb (m p : M3) : bool :=
  let '(r0, r1, r2) := m in
  let '(q0, q1, q2) := p in
  v3_eqb r0 q0 && v3_eqb r1 q1 && v3_eqb r2 q2.

(** Two directions are the same axis when they are parallel. *)
Definition same_axis (u v : V3) : bool := v3_eqb (cross u v) (0, 0, 0).

Definition perpendicular (u v : V3) : bool := dot u v =? 0.

Definition kind_priority (k : Kind V3) : Z :=
  match k with
  | IdentityOperation => 0
  | Rotation _ _ _ => 1
  | ImproperRotation _ _ _ => 2
  | Reflection _ => 3
  | Inversion => 4
  end.

Definition kind_n (k : Kind V3) : Z :=
  match k with
  | Rotation n _ _ | ImproperRotation n _ _ => n
  | _ => 0
  end.

Definition kind_exponent (k : Kind V3) : Z :=
  match k with
  | Rotation _ e _ | ImproperRotation _ e _ => e
  | _ => 0
  end.

Definition kind_axis (k : Kind V3) : V3 :=
  match k with
  | Rotation _ _ a | ImproperRotation _ _ a | Reflection a => a
  | _ => (0, 0, 0)
  end.

(** The z axis before the y axis before the x axis. *)
Definition axis_before (u v : V3) : bool :=
  let '(a, b, c) := u in
  let '(x, y, z) := v in
  (z <? c) || ((z =? c) && ((y <? b) || ((y =? b) && (x <? a)))).

(** Modelled from the spec: the total order of the operations, by kind,
    then by order with the highest first, then by exponent, then by axis. *)
Definition lt (a b : Op V3 M3) : bool :=
  let ka := kind a in
  let kb := kind b in
  if negb (kind_priority ka =? kind_priority kb)
  then kind_priority ka <? kind_priority kb
  else if negb (kind_n ka =? kind_n kb) then kind_n kb <? kind_n ka
  else if negb (kind_exponent ka =? kind_exponent kb)
       then kind_exponent ka <? kind_exponent kb
  else axis_before (kind_axis ka) (kind_axis kb).

(** Modelled from the spec: a reflection is dihedral when its plane contains
    the principal axis and exchanges two order-2 rotation axes that are
    perpendicular to the principal axis. *)
Definition mirror (v a : V3) : V3 :=
  let '(x, y, z) := v in
  let '(p, q, r) := a in
  let vv := dot v v in
  let av := dot a v in
  (vv * p - 2 * av * x, vv * q - 2 * av * y, vv * r - 2 * av * z).

Definition dihedral (h : ref -> Op V3 M3) (ops : list ref) (r : ref) : bool :=
  let rots := filter (fun x => match kind (h x) with
                               | Rotation _ _ _ => true
                               | _ => false
                               end) ops in
  match rots with
  | [] => false
  | p :: _ =>
      let pa := kind_axis (kind (h p)) in
      let v := kind_axis (kind (h r)) in
      let c2s := filter (fun x => (kind_n (kind (h x)) =? 2)
                                  && perpendicular pa
                                       (kind_axis (kind (h x)))) rots in
      perpendicular pa v
      && existsb (fun a =>
           existsb (fun b =>
             negb (same_axis (kind_axis (kind (h a)))
                             (kind_axis (kind (h b))))
             && same_axis (mirror v (kind_axis (kind (h a))))
                          (kind_axis (kind (h b)))) c2s) c2s
  end.

#[export] Instance collaborator : Collaborator := {
  Vec := V3;
  Mat := M3;
  Vector := fun x y z => (x, y, z);
  matmul := mat_mul;
  is_same_matrix := mat_eqb;
  is_same_axis := same_axis;
  is_perpendicular := perpendicular;
  op_lt := lt;
  is_dihedral := dihedral
}.

(** Fresh operations: no name, no inverse, not flagged. *)
Definition fresh (k : Kind V3) (m : M3) : Op V3 M3 :=
  mkOp k m None None false.

Definition diag (a b c : Z) : M3 := ((a, 0, 0), (0, b, 0), (0, 0, c)).

Definition E : Op V3 M3 := fresh IdentityOperation (diag 1 1 1).
Definition inv : Op V3 M3 := fresh Inversion (diag (-1) (-1) (-1)).
Definition C2z : Op V3 M3 := fresh (Rotation 2 1 (0, 0, 1)) (diag (-1) (-1) 1).
Definition C2y : Op V3 M3 := fresh (Rotation 2 1 (0, 1, 0)) (diag (-1) 1 (-1)).
Definition C2x : Op V3 M3 := fresh (Rotation 2 1 (1, 0, 0)) (diag 1 (-1) (-1)).
Definition sigma_xy : Op V3 M3 := fresh (Reflection (0, 0, 1)) (diag 1 1 (-1)).
Definition sigma_xz : Op V3 M3 := fresh (Reflection (0, 1, 0)) (diag 1 (-1) 1).
Definition sigma_yz : Op V3 M3 := fresh (Reflection (1, 0, 0)) (diag (-1) 1 1).
Definition C4z : Op V3 M3 :=
  fresh (Rotation 4 1 (0, 0, 1)) ((0, -1, 0), (1, 0, 0), (0, 0, 1)).
Definition C4z3 : Op V3 M3 :=
  fresh (Rotation 4 3 (0, 0, 1)) ((0, 1, 0), (-1, 0, 0), (0, 0, 1)).

(** A heap that holds the operations of [l] at the references [0], [1], ...,
    and the identity at any other reference. *)
Definition heap_of (l : list (Op V3 M3)) : ref -> Op V3 M3 :=
  fun r => nth r l E.

(** The group over the operations of [l], in that order. *)
Definition point_group (l : list (Op V3 M3)) : Result State :=
  PointGroup_init (heap_of l) (seq 0 (List.length l)).

(** What a test reads from a group: the names of the operations in order,
    and the name of the group. *)
Definition names_of (r : Result State)
  : Result (list (option string) * option string) :=
  match r with
  | Ok s => Ok (map (fun x => name (heap s x)) (operations s), pg_name s)
  | Raise e => Raise e
  end.

Definition C2v : list (Op V3 M3) := [E; C2z; sigma_xz; sigma_yz].

(** The principal-reflection flags of the operations, in order. *)
Definition flags_of (r : Result State) : Result (list (ref * bool)) :=
  match r with
  | Ok s =>
      Ok (map (fun x => (x, principal_reflection (heap s x))) (operations s))
  | Raise e => Raise e
  end.

(** The state of the group constructed over the operations of [l]. *)
Definition constructed (l : list (Op V3 M3)) : State :=
  match point_group l with
  | Ok s => s
  | Raise _ => new_point_group (heap_of l) []
  end.

(** The state after the closure check of the operations of [l]. *)
Definition closure_checked (l : list (Op V3 M3)) : State :=
  match _check_closure
          (new_point_group (heap_of l) (seq 0 (List.length l))) with
  | Ok (_, s) => s
  | Raise _ => new_point_group (heap_of l) []
  end.

End Exact.

(** * Specifications

    The predicates the properties are stated with. *)

Unset Implicit Arguments.

Section Specification.

Context {C : Collaborator}.

(** A method preserves a relation between the states before and after. *)
Definition preserves {A} (R : State -> State -> Prop) (m : M A) : Prop :=
  forall s a s', m s = Ok (a, s') -> R s s'.

(** A method raises only the exceptions of [E]. *)
Definition raises_only {A} (E : Exception -> Prop) (m : M A) : Prop :=
  forall s e, m s = Raise e -> E e.

(** The class and the matrix of every object are the same in both heaps. *)
Definition same_objects (h h' : Heap) : Prop :=
  forall r, kind (h' r) = kind (h r) /\ matrix (h' r) = matrix (h r).

(** The list of operations is the same, as is the mode. *)
Record stable (s s' : State) : Prop := mkStable {
  stable_operations : operations s' = operations s;
  stable_generate : _generate_elements s' = _generate_elements s;
  stable_objects : same_objects (heap s) (heap s')
}.

(** The list of operations is reordered. *)
Record permuted (s s' : State) : Prop := mkPermuted {
  permuted_operations : Permutation (operations s') (operations s);
  permuted_generate : _generate_elements s' = _generate_elements s;
  permuted_objects : same_objects (heap s) (heap s')
}.

(** Only the list of classes differs. *)
Definition only_classes (s s' : State) : Prop :=
  s' = with_classes s (classes s').

(** The inverse slots are the same. *)
Definition keeps_inverse (s s' : State) : Prop :=
  forall r, inverse (heap s' r) = inverse (heap s r).

(** The product of [a] and [b] matches an operation of [ops]. *)
Definition matched (h : Heap) (ops : list ref) (a b : ref) : Prop :=
  exists c, In c ops /\
    is_same_matrix (matrix (h c)) (matmul (matrix (h a)) (matrix (h b)))
    = true.

(** The product of [a] and [b] matches no operation of [ops]. *)
Definition unmatched (h : Heap) (ops : list ref) (a b : ref) : Prop :=
  forall c, In c ops ->
    is_same_matrix (matrix (h c)) (matmul (matrix (h a)) (matrix (h b)))
    = false.

Definition closure_error (e : Exception) : Prop :=
  e = GroupTheoryError GroupNotClosed \/
  e = GroupTheoryError MissingIdentity \/
  e = GroupTheoryError NonUniqueInverse.

(** The inverse slot of [x] holds an operation that is not equal to [y]. *)
Definition holds_other (st : State) (x y : ref) : Prop :=
  exists k, inverse (heap st x) = Some k /\ op_eq (heap st) k y = false.

(** What a pair of the scan does to the inverse slots. *)
Definition relinked (x y : ref) (s s' : State) : Prop :=
  forall r, inverse (heap s' r) =
            if Nat.eqb r y then Some x
            else if Nat.eqb r x then Some y
            else inverse (heap s r).

(** The number of operations of [ops] that satisfy [p]. *)
Definition count_ops (h : Heap) (ops : list ref) (p : Operation -> bool)
  : nat :=
  List.length (filter (fun r => p (h r)) ops).

(** An exponent-1 rotation of order greater than 2. *)
Definition is_high_axis (o : Operation) : bool :=
  is_rotation o && Z.ltb 2 (op_n o) && Z.eqb (op_exponent o) 1.

(** An order-2 rotation perpendicular to [axis]. *)
Definition is_perpendicular_C2 (axis : Vec) (o : Operation) : bool :=
  is_rotation o && Z.eqb (op_n o) 2 && is_perpendicular axis (op_axis o).

(** The group named [nm], or the error of the groups without a name. *)
Definition named (s : State) (nm : option string) : Result (unit * State) :=
  match nm with
  | Some v => set_pg_name v s
  | None => Raise (GroupTheoryError UnclassifiableGroup)
  end.

(** [r] is the first reflection of the operations whose axis coincides
    with the axis of [rot]. *)
Definition first_reflection_on (s : State) (rot r : ref) : Prop :=
  exists before after,
    reflections s = (before ++ r :: after)%list /\
    is_same_axis (op_axis (heap s r)) (op_axis (heap s rot)) = true /\
    forall x, In x before ->
      is_same_axis (op_axis (heap s x)) (op_axis (heap s rot)) = false.

Definition same (m p : Mat) : Prop := is_same_matrix m p = true.

(** The body of the inner loop of [class_step]. *)
Definition add_conjugate (k : nat) (op g : ref) : M unit :=
  if Nat.eqb g op then ret tt
  else bind (conjugate g op) (fun x =>
         bind get (fun s' =>
           set_classes (add_to_class (heap s') k x (classes s')))).

End Specification.

(** The invariants of the closure check, for the operations [ops] of a
    heap [h] with identity element [e]. *)
Section GroupSpecification.

Context {C : Collaborator}.

Variable h : Heap.
Variable ops : list ref.
Variable e : ref.

Local Abbreviation m r := (matrix (h r)).
Local Abbreviation I := (matrix (h e)).

(** The states of the closure check: the operations and their matrices are
    those given, the memoised identity element is [e]. *)
Record closure_state (s : State) : Prop := {
  cs_operations : operations s = ops;
  cs_objects : same_objects h (heap s);
  cs_identity : _identity_element s = None \/ _identity_element s = Some e
}.

(** Every inverse slot that is set holds a one-sided inverse. *)
Definition linked (s : State) : Prop :=
  forall a b, In a ops -> inverse (heap s a) = Some b ->
    In b ops /\ (same (matmul (m a) (m b)) I \/ same (matmul (m b) (m a)) I).

(** The inverse slot of [a] holds an operation equal to [b]. *)
Definition slot_like (a b : ref) (s : State) : Prop :=
  exists b', inverse (heap s a) = Some b' /\ same (m b') (m b).

(** The relation between the states before and after a part of the scan,
    for a property [Q] of the inverse slots that the scan keeps. *)
Definition scan (Q : State -> Prop) (s s' : State) : Prop :=
  closure_state s -> linked s ->
  closure_state s' /\ linked s' /\ (Q s -> Q s').

End GroupSpecification.

Local Open Scope string_scope.

(** The names of the dihedral and cyclic families, as the specification
    words them: [n] is the order of the principal axis,
    [perpendicular_C2] the number of order-2 rotations perpendicular to it. *)
Definition axial_name (n : Z) (perpendicular_C2 reflection_count : nat)
           (principal_reflection_exists improper_2n_exists : bool)
  : option string :=
  if Z.eqb (Z.of_nat perpendicular_C2) n then
    if principal_reflection_exists then Some ("D_" ++ str n ++ "h")
    else if Z.eqb (Z.of_nat reflection_count) n
         then Some ("D_" ++ str n ++ "d")
    else if Nat.eqb reflection_count 0 then Some ("D_" ++ str n)
    else None
  else
    if principal_reflection_exists then Some ("C_" ++ str n ++ "h")
    else if Z.eqb (Z.of_nat reflection_count) n
         then Some ("C_" ++ str n ++ "v")
    else if improper_2n_exists then Some ("S_" ++ str (2 * n))
    else Some ("C_" ++ str n).

(** The names of the groups without rotations, as the specification words
    them. *)
Definition no_rotation_name (reflection_count : nat)
           (inversion_present : bool) (size : nat) : option string :=
  if Nat.eqb reflection_count 1 then Some "C_s"
  else if inversion_present then Some "C_i"
  else if Nat.eqb size 1 then Some "C_1"
  else None.

Local Close Scope string_scope.

(** ** The special methods and the frames of the phases *)

Section SpecialMethods.

Context {C : Collaborator}.

(** [__str__]: the name of the group, [None] until [_get_name] has set
    it. *)
Definition __str__ (s : State) : option string := pg_name s.

(** [__repr__]: the concatenation of a string and a name that is [None] is
    a [TypeError]. *)
Definition __repr__ (s : State) : Result string :=
  match pg_name s with
  | Some v => Ok ("<PointGroup named '" ++ v ++ "'>")%string
  | None => Raise TypeError
  end.

(** [__iter__]: the operations, in the order of the list. *)
Definition __iter__ (s : State) : list ref := operations s.

Definition __len__ (s : State) : nat := List.length (operations s).

(** The list of classes is reordered. *)
Definition classes_permuted (s s' : State) : Prop :=
  Permutation (classes s') (classes s).

(** The objects outside [D] are the same in both states. *)
Definition untouched_outside (D : ref -> Prop) (s s' : State) : Prop :=
  forall r, ~ D r -> heap s' r = heap s r.

End SpecialMethods.

(** The computation ended normally. *)
Definition succeeds {A : Type} (r : Result A) : bool :=
  match r with Ok _ => true | Raise _ => false end.

(** ** The order groups that cannot be named and the polyhedral groups *)

Section NamingSpecification.

Context {C : Collaborator}.

(** An order group whose members cannot be counted by axis: it does not
    have the size of the powers of a single axis, and none of its members
    has exponent 1. *)
Definition no_axis_count (h : Heap) (rotgrp : list ref) : bool :=
  match rotgrp with
  | [] => false
  | rot0 :: _ =>
      negb (Z.eqb (Z.of_nat (List.length rotgrp)) (op_n (h rot0) - 1))
      && Nat.eqb (List.length
                    (filter (fun x => Z.eqb (op_exponent (h x)) 1) rotgrp)) 0
  end.

(** An exponent-1 rotation of order [n]. *)
Definition is_C_n_axis (n : Z) (o : Operation) : bool :=
  is_rotation o && Z.eqb (op_n o) n && Z.eqb (op_exponent o) 1.

End NamingSpecification.

Local Open Scope string_scope.

(** The names of the groups with several axes of order above 2, by the
    numbers of their fivefold, fourfold and threefold axes. *)
Definition polyhedral_name (c5 c4 c3 : nat) (inversion_present : bool)
           (reflection_count : nat) : option string :=
  if Nat.eqb c5 12 then Some (if inversion_present then "I_h" else "I")
  else if Nat.eqb c4 6 then Some (if inversion_present then "O_h" else "O")
  else if Nat.eqb c3 4 then
    if inversion_present then Some "T_h"
    else if Nat.eqb reflection_count 6 then Some "T_d"
    else Some "T"
  else None.

Local Close Scope string_scope.

(** The twelve rotations of the tetrahedron: the twofold rotations about
    the coordinate axes and the threefold rotations about the diagonals of
    the cube. *)
Definition tetrahedral_rotations : list (Op Exact.V3 Exact.M3) :=
  [Exact.E; Exact.C2z; Exact.C2y; Exact.C2x;
   Exact.fresh (Rotation 3 1 (1, 1, 1)%Z)
               ((0, 0, 1), (1, 0, 0), (0, 1, 0))%Z;
   Exact.fresh (Rotation 3 2 (1, 1, 1)%Z)
               ((0, 1, 0), (0, 0, 1), (1, 0, 0))%Z;
   Exact.fresh (Rotation 3 1 (1, -1, -1)%Z)
               ((0, 0, -1), (-1, 0, 0), (0, 1, 0))%Z;
   Exact.fresh (Rotation 3 2 (1, -1, -1)%Z)
               ((0, -1, 0), (0, 0, 1), (-1, 0, 0))%Z;
   Exact.fresh (Rotation 3 1 (-1, 1, -1)%Z)
               ((0, 0, 1), (-1, 0, 0), (0, -1, 0))%Z;
   Exact.fresh (Rotation 3 2 (-1, 1, -1)%Z)
               ((0, -1, 0), (0, 0, -1), (1, 0, 0))%Z;
   Exact.fresh (Rotation 3 1 (-1, -1, 1)%Z)
               ((0, 0, -1), (1, 0, 0), (0, -1, 0))%Z;
   Exact.fresh (Rotation 3 2 (-1, -1, 1)%Z)
               ((0, 1, 0), (0, 0, -1), (-1, 0, 0))%Z].

(** ** The objects a construction writes to *)

Section WritesSpecification.

Context {C : Collaborator}.

Variable h0 : Heap.
Variable ops0 : list ref.

(** The states of a construction over the operations [ops0] of the heap
    [h0]: the objects have the classes and matrices they had, the group is
    made of operations of [ops0], and the memoised identity element is an
    [IdentityOperation] among them. *)
Record constructing (s : State) : Prop := {
  constructing_objects : same_objects h0 (heap s);
  constructing_operations : forall r, In r (operations s) -> In r ops0;
  constructing_identity : forall e,
      _identity_element s = Some e -> In e ops0 /\ is_identity (h0 e) = true
}.

(** A step of the construction that writes to objects of [D] only, and
    keeps the memoised identity element. *)
Definition writes_only (D : ref -> Prop) (s s' : State) : Prop :=
  constructing s ->
  constructing s' /\ untouched_outside D s s' /\
  forall e, _identity_element s = Some e -> _identity_element s' = Some e.

(** The operations of [ops0] of the class that [K] tests. *)
Definition of_class (K : Operation -> bool) (r : ref) : Prop :=
  In r ops0 /\ K (h0 r) = true.

End WritesSpecification.

(** ** The scheme of the names *)

Section SchemeSpecification.

Context {C : Collaborator}.

Local Open Scope string_scope.

(** The name [nm] begins with [prefix] and the order of the operation
    [r]. *)
Definition axis_name (h0 : Heap) (prefix : string) (r : ref)
           (nm : option string) : Prop :=
  exists suffix, nm = Some (prefix ++ str (op_n (h0 r)) ++ suffix).

(** A step that gives names of this form, to operations that keep their
    class. *)
Definition renamed_axes (h0 : Heap) (prefix : string) (s s' : State)
  : Prop :=
  same_objects h0 (heap s) ->
  same_objects h0 (heap s') /\
  forall r, name (heap s' r) = name (heap s r) \/
            axis_name h0 prefix r (name (heap s' r)).

(** The end of the name of a reflection with the axis [axis]: the plane of
    the coordinates it is orthogonal to, or primes. *)
Definition plane_suffix (axis : Vec) (suffix : string) : Prop :=
  if is_same_axis axis (Vector 0 0 1) then suffix = "(xy)"
  else if is_same_axis axis (Vector 0 1 0) then suffix = "(xz)"
  else if is_same_axis axis (Vector 1 0 0) then suffix = "(yz)"
  else exists k, suffix = str_repeat "'" k.

(** The name [nm] is "sigma_", a subscript, which is "h" for the
    operations flagged as principal reflections and for no other, and the
    suffix of the axis. *)
Definition reflection_name (o : Operation) (nm : option string) : Prop :=
  exists subscript suffix,
    nm = Some ("sigma_" ++ subscript_str subscript ++ suffix) /\
    (principal_reflection o = true <-> subscript = sub_h) /\
    plane_suffix (op_axis o) suffix.

(** A step that gives names of this form and keeps the flags and the
    classes of the operations. *)
Definition renamed_reflections (s s' : State) : Prop :=
  (forall r, principal_reflection (heap s' r)
             = principal_reflection (heap s r)) /\
  (forall r, kind (heap s' r) = kind (heap s r)) /\
  forall r, name (heap s' r) = name (heap s r) \/
            reflection_name (heap s r) (name (heap s' r)).

(** The names of the rotations, the improper rotations and the
    reflections, by class. *)
Definition name_scheme (o : Operation) (nm : option string) : Prop :=
  match kind o with
  | Rotation n _ _ => exists suffix, nm = Some ("C_" ++ str n ++ suffix)
  | ImproperRotation n _ _ =>
      exists suffix, nm = Some ("S_" ++ str n ++ suffix)
  | Reflection _ => reflection_name o nm
  | IdentityOperation | Inversion => True
  end.

(** The members of [g] have the same order. *)
Definition same_order (h0 : Heap) (g : list ref) : Prop :=
  forall x y, In x g -> In y g -> op_n (h0 x) = op_n (h0 y).

End SchemeSpecification.

(** ** The exceptions of a construction and the flags it keeps *)

Section ErrorSpecification.

Context {C : Collaborator}.

(** The exceptions of the conjugacy classes: a conjugate that is no element
    of the group, an operation without an inverse, and an operation in two
    classes. *)
Definition classes_error (e : Exception) : Prop :=
  e = GroupTheoryError GroupNotClosed \/
  e = TypeError \/
  e = GroupTheoryError ClassesNotDisjoint.

(** The exceptions of naming the operations. *)
Definition naming_error (e : Exception) : Prop :=
  e = GroupTheoryError MissingIdentity \/ e = ZeroDivisionError.

(** The exceptions of a construction. *)
Definition construction_error (e : Exception) : Prop :=
  closure_error e \/ classes_error e \/ naming_error e \/
  e = GroupTheoryError UnclassifiableGroup.

(** The flags that are set stay set. *)
Definition keeps_flags (s s' : State) : Prop :=
  forall r, principal_reflection (heap s r) = true ->
            principal_reflection (heap s' r) = true.

End ErrorSpecification.

(** The exception a computation raised. *)
Definition exception_of {A : Type} (r : Result A) : option Exception :=
  match r with Ok _ => None | Raise e => Some e end.

(** ** Two constructions over the same operations at other addresses *)

Section RelocationSpecification.

Context {C : Collaborator}.

Variable rho : ref -> ref.

(** The operation [o] seen from the other heap: its data are the same, its
    reference to its inverse is moved. *)
Definition relocate (o : Operation) : Operation :=
  mkOp (kind o) (matrix o) (name o) (option_map rho (inverse o))
       (principal_reflection o).

Definition relocate_class (cl : ConjugacyClass) : ConjugacyClass :=
  mkClass (map rho (elements cl)).

(** The heap [h'] holds at the address [rho r] the object that [h] holds
    at [r]. *)
Definition relocated_heap (h h' : Heap) : Prop :=
  forall r, h' (rho r) = relocate (h r).

(** The state [s'] is the state [s] with its objects at other addresses. *)
Record relocated (s s' : State) : Prop := {
  relocated_objects : relocated_heap (heap s) (heap s');
  relocated_operations : operations s' = map rho (operations s);
  relocated_classes : classes s' = map relocate_class (classes s);
  relocated_pg_name : pg_name s' = pg_name s;
  relocated_generate : _generate_elements s' = _generate_elements s;
  relocated_identity :
    _identity_element s' = option_map rho (_identity_element s)
}.

(** Two outcomes that differ in the addresses only: the same exception, or
    related results in related states. *)
Definition same_outcome {A B} (RA : A -> B -> Prop)
           (x : Result (A * State)) (y : Result (B * State)) : Prop :=
  match x, y with
  | Ok (a, t), Ok (b, t') => RA a b /\ relocated t t'
  | Raise e, Raise e' => e = e'
  | _, _ => False
  end.

(** The method [m'] does in a relocated state what [m] does. *)
Definition simulates {A B} (RA : A -> B -> Prop) (m : M A) (m' : M B)
  : Prop :=
  forall s s', relocated s s' -> same_outcome RA (m s) (m' s').

(** The reference [b] is the address of [a] in the other heap. *)
Definition moved (a b : ref) : Prop := b = rho a.

End RelocationSpecification.

(** What a construction over the operations [ops] shows: the names of the
    operations as they were given, those of the operations in the order of
    the group, and the name of the group; or the exception raised. *)
Definition names_shown {C : Collaborator} (ops : list ref)
           (r : Result State)
  : Result (list (option string) * list (option string) * option string) :=
  match r with
  | Ok s => Ok (map (fun x => name (heap s x)) ops,
                map (fun x => name (heap s x)) (operations s),
                pg_name s)
  | Raise e => Raise e
  end.

(** ** The classes of any list of operations *)

Section ClassesSpecification.

Context {C : Collaborator}.

(** What holds of the classes of any operations [ops], group or not: no
    class is empty and the members of the classes are operations of
    [ops]. *)
Definition classes_inside (ops : list ref) (cls : list ConjugacyClass)
  : Prop :=
  forall cl, In cl cls ->
    elements cl <> [] /\ forall z, In z (elements cl) -> In z ops.

(** The operation [op] is in a class of [cls], as a member or as the equal
    of a member. *)
Definition classified (h : Heap) (cls : list ConjugacyClass) (op : ref)
  : Prop :=
  exists cl, In cl cls /\
             (In op (elements cl) \/ class_contains h cl op = true).

(** The classes only grow: the classes of [cls] are in [cls'], each with
    the members it had, and [cls'] has the properties of [classes_inside]
    when [cls] has them. *)
Definition classes_grow (ops : list ref) (s s' : State) : Prop :=
  heap s' = heap s /\ operations s' = operations s /\
  (operations s = ops -> classes_inside ops (classes s) ->
   classes_inside ops (classes s')) /\
  forall op, classified (heap s) (classes s) op ->
             classified (heap s') (classes s') op.

End ClassesSpecification.

(** ** What the closure check leaves alone *)

Section SlotsSpecification.

Context {C : Collaborator}.

(** The names and the flags of the operations are the same. *)
Definition keeps_names_and_flags (s s' : State) : Prop :=
  forall r, name (heap s' r) = name (heap s r) /\
            principal_reflection (heap s' r)
            = principal_reflection (heap s r).

End SlotsSpecification.

Section PairsSpecification.

Context {C : Collaborator}.

(** The scan of the pairs of [l] by [_check_closure], one pair after the
    other. *)
Definition check_pairs (l : list (ref * ref)) : M unit :=
  for_each l (fun p => check_pair (fst p) (snd p)).

(** The test of [unmatched]. *)
Definition unmatchedb (h : Heap) (ops : list ref) (p : ref * ref) : bool :=
  forallb (fun c => negb (is_same_matrix
                            (matrix (h c))
                            (matmul (matrix (h (fst p)))
                                    (matrix (h (snd p)))))) ops.

End PairsSpecification.

(** ** Groups with one principal axis *)

(** The improper rotations S4 and S4^3 about the z axis, and the reflections
    through the planes that contain the z axis and a diagonal of the x and
    y axes. *)
Definition S4z : Op Exact.V3 Exact.M3 :=
  Exact.fresh (ImproperRotation 4 1 (0, 0, 1)%Z)
              ((0, -1, 0), (1, 0, 0), (0, 0, -1))%Z.
Definition S4z3 : Op Exact.V3 Exact.M3 :=
  Exact.fresh (ImproperRotation 4 3 (0, 0, 1)%Z)
              ((0, 1, 0), (-1, 0, 0), (0, 0, -1))%Z.
Definition sigma_d : Op Exact.V3 Exact.M3 :=
  Exact.fresh (Reflection (1, 1, 0)%Z) ((0, -1, 0), (-1, 0, 0), (0, 0, 1))%Z.
Definition sigma_d' : Op Exact.V3 Exact.M3 :=
  Exact.fresh (Reflection (1, -1, 0)%Z) ((0, 1, 0), (1, 0, 0), (0, 0, 1))%Z.

Section AxialSpecification.

Context {C : Collaborator}.

(** The state [s] with the name [v] for the group. *)
Definition with_pg_name (s : State) (v : string) : State :=
  mkState (heap s) (operations s) (classes s) (Some v)
          (_generate_elements s) (_identity_element s).

(** Only the name of the group differs. *)
Definition only_pg_name (s s' : State) : Prop :=
  heap s' = heap s /\ operations s' = operations s.

End AxialSpecification.

(** ** A collaborator that compares within a tolerance

    Integer matrices compared entry by entry within a tolerance of one
    unit: a matrix is the same as the matrices next to it, and the
    comparison is not transitive.  The product, the axes and the order of
    the operations are those of the exact collaborator. *)
Module Tolerance.

Open Scope Z_scope.

Definition near (x y : Z) : bool := Z.abs (x - y) <=? 1.

Definition v3_near (u v : Exact.V3) : bool :=
  let '(a, b, c) := u in
  let '(x, y, z) := v in
  near a x && near b y && near c z.

Definition mat_near (m p : Exact.M3) : bool :=
  let '(r0, r1, r2) := m in
  let '(q0, q1, q2) := p in
  v3_near r0 q0 && v3_near r1 q1 && v3_near r2 q2.

#[export] Instance collaborator : Collaborator := {
  Vec := Exact.V3;
  Mat := Exact.M3;
  Vector := fun x y z => (x, y, z);
  matmul := Exact.mat_mul;
  is_same_matrix := mat_near;
  is_same_axis := Exact.same_axis;
  is_perpendicular := Exact.perpendicular;
  op_lt := Exact.lt;
  is_dihedral := Exact.dihedral
}.

(** Two rotations about the z axis by an angle of one unit of the
    tolerance, one the inverse of the other: the matrix of each is next to
    the identity matrix, and they are not next to each other. *)
Definition turn : Op Exact.V3 Exact.M3 :=
  Exact.fresh (Rotation 1000 1 (0, 0, 1)) ((1, -1, 0), (1, 1, 0), (0, 0, 1)).
Definition turn_back : Op Exact.V3 Exact.M3 :=
  Exact.fresh (Rotation 1000 999 (0, 0, 1))
              ((1, 1, 0), (-1, 1, 0), (0, 0, 1)).

Definition nearly_equal : list (Op Exact.V3 Exact.M3) :=
  [turn; Exact.E; turn_back].

(** The group over the operations of [l], in that order. *)
Definition point_group (l : list (Op Exact.V3 Exact.M3)) : Result State :=
  @PointGroup_init collaborator (Exact.heap_of l) (seq 0 (List.length l)).

(** The state of the group constructed over the operations of [l]. *)
Definition constructed (l : list (Op Exact.V3 Exact.M3)) : State :=
  match point_group l with
  | Ok s => s
  | Raise _ => @new_point_group collaborator (Exact.heap_of l) []
  end.

(** The state after the closure check of the operations of [l]. *)
Definition closure_checked (l : list (Op Exact.V3 Exact.M3)) : State :=
  match @_check_closure collaborator
          (@new_point_group collaborator (Exact.heap_of l)
                            (seq 0 (List.length l))) with
  | Ok (_, s) => s
  | Raise _ => @new_point_group collaborator (Exact.heap_of l) []
  end.

(** The names of the operations, in order, and the name of the group. *)
Definition names_of (r : Result State)
  : Result (list (option string) * option string) :=
  match r with
  | Ok s => Ok (map (fun x => name (heap s x)) (operations s), pg_name s)
  | Raise e => Raise e
  end.

(** The inverse slots of the operations of a group, in order. *)
Definition inverses_of (r : Result State)
  : Result (list (ref * option ref)) :=
  match r with
  | Ok s => Ok (map (fun x => (x, inverse (heap s x))) (operations s))
  | Raise e => Raise e
  end.

(** The members of the classes computed after the closure check of the
    operations of [l]. *)
Definition classified (l : list (Op Exact.V3 Exact.M3))
  : Result (list (list ref)) :=
  match @_compute_classes collaborator (closure_checked l) with
  | Ok (_, s) => Ok (map elements (classes s))
  | Raise e => Raise e
  end.

End Tolerance.

(** ** Comparisons that are consistent on the operations given *)

Section ComparisonSpecification.

Context {C : Collaborator}.

Variable h : Heap.
Variable ops : list ref.

(** The matrices that the closure check and the classes compare: those of
    the operations, and the products of two of them. *)
Inductive compared : Mat -> Prop :=
| compared_operation a : In a ops -> compared (matrix (h a))
| compared_product a b :
    In a ops -> In b ops ->
    compared (matmul (matrix (h a)) (matrix (h b))).

(** The comparison within tolerance is an equivalence on these matrices:
    what it is when the operations given are far from each other by the
    measure of the tolerance, and their products close to operations. *)
Record consistent_comparison : Prop := {
  consistent_refl : forall x, compared x -> same x x;
  consistent_sym : forall x y,
      compared x -> compared y -> same x y -> same y x;
  consistent_trans : forall x y z,
      compared x -> compared y -> compared z ->
      same x y -> same y z -> same x z
}.

(** The same matrices, as a list, and the test of the three laws on it. *)
Definition compared_list : list Mat :=
  map (fun a => matrix (h a)) ops
  ++ map (fun p => matmul (matrix (h (fst p))) (matrix (h (snd p))))
         (list_prod ops ops).

Definition consistentb : bool :=
  forallb (fun x =>
    is_same_matrix x x
    && forallb (fun y =>
         implb (is_same_matrix x y)
               (is_same_matrix y x
                && forallb (fun z =>
                     implb (is_same_matrix y z) (is_same_matrix x z))
                   compared_list))
       compared_list)
    compared_list.

(** A product of two operations that is the identity [e] is so in the
    other order: the inverses on one side are inverses on both sides, as
    those of matrices are. *)
Definition two_sided (e : ref) : Prop :=
  forall a b, In a ops -> In b ops ->
    same (matmul (matrix (h a)) (matrix (h b))) (matrix (h e)) ->
    same (matmul (matrix (h b)) (matrix (h a))) (matrix (h e)).

Definition two_sidedb (e : ref) : bool :=
  forallb (fun a =>
    forallb (fun b =>
      implb (is_same_matrix (matmul (matrix (h a)) (matrix (h b)))
                            (matrix (h e)))
            (is_same_matrix (matmul (matrix (h b)) (matrix (h a)))
                            (matrix (h e)))) ops) ops.

(** The operations arrive with empty inverse slots. *)
Definition fresh_inverses : Prop :=
  forall r, In r ops -> inverse (h r) = None.

End ComparisonSpecification.

(** ** Groups of operations and their classes *)

(** The invariants of the classes, for the operations [ops] of a heap [h]
    with identity element [e]. *)
Section ClassSpecification.

Context {C : Collaborator}.

Variable h : Heap.
Variable ops : list ref.
Variable e : ref.

Local Abbreviation m r := (matrix (h r)).

(** The operation [c] is a product of [a] and [b]: what [a * b] answers,
    or an operation equal to it. *)
Definition product (a b c : ref) : Prop :=
  same (m c) (matmul (m a) (m b)).

(** The operations [ops] are a group with identity element [e]: [e] is
    neutral, the products of the operations match operations, the inverse
    slot of every operation holds a two-sided inverse, and the products of
    operations respect the comparison within tolerance and are associative
    up to it. *)
Record group_of_operations : Prop := {
  group_identity : In e ops;
  group_neutral_l : forall a, In a ops -> product e a a;
  group_neutral_r : forall a, In a ops -> product a e a;
  group_closed : forall a b, In a ops -> In b ops -> matched h ops a b;
  group_inverse : forall g, In g ops ->
    exists gi, inverse (h g) = Some gi /\ In gi ops /\
               product g gi e /\ product gi g e;
  group_congruent : forall a a' b b',
    In a ops -> In a' ops -> In b ops -> In b' ops ->
    same (m a) (m a') -> same (m b) (m b') ->
    same (matmul (m a) (m b)) (matmul (m a') (m b'));
  group_associative : forall a b c ab bc,
    In a ops -> In b ops -> In c ops -> In ab ops -> In bc ops ->
    product a b ab -> product b c bc ->
    same (matmul (m ab) (m c)) (matmul (m a) (m bc))
}.

(** The test of these laws. *)
Definition productb (a b c : ref) : bool :=
  is_same_matrix (m c) (matmul (m a) (m b)).

Definition memb (x : ref) : bool := existsb (Nat.eqb x) ops.

Definition groupb : bool :=
  memb e
  && forallb (fun a => productb e a a && productb a e a) ops
  && forallb (fun a =>
       forallb (fun b => existsb (fun c => productb a b c) ops) ops) ops
  && forallb (fun g =>
       match inverse (h g) with
       | Some gi => memb gi && productb g gi e && productb gi g e
       | None => false
       end) ops
  && forallb (fun a => forallb (fun a' =>
       implb (is_same_matrix (m a) (m a'))
         (forallb (fun b => forallb (fun b' =>
            implb (is_same_matrix (m b) (m b'))
                  (is_same_matrix (matmul (m a) (m b))
                                  (matmul (m a') (m b')))) ops) ops))
       ops) ops
  && forallb (fun a => forallb (fun b => forallb (fun ab =>
       implb (productb a b ab)
         (forallb (fun c => forallb (fun bc =>
            implb (productb b c bc)
                  (is_same_matrix (matmul (m ab) (m c))
                                  (matmul (m a) (m bc)))) ops) ops))
       ops) ops) ops.

(** [y] is a conjugate [g * x * g.inverse] of [x]. *)
Definition conjugate_by (g gi x y : ref) : Prop :=
  exists c, In c ops /\ product g x c /\ product c gi y.

Definition conjugates (x y : ref) : Prop :=
  exists g gi, In g ops /\ inverse (h g) = Some gi /\ conjugate_by g gi x y.

(** [x in cl] *)
Definition contains (cl : ConjugacyClass) (x : ref) : Prop :=
  exists z, In z (elements cl) /\ same (m z) (m x).

(** The classes are non-empty sets of operations of the group, each one
    made of mutually conjugate operations and containing every conjugate
    of its members, and no operation of one class is conjugate to an
    operation of another. *)
Record class_invariant (cls : list ConjugacyClass) : Prop := {
  inv_wf : forall cl, In cl cls ->
      elements cl <> [] /\ forall z, In z (elements cl) -> In z ops;
  inv_conjugate : forall cl z z',
      In cl cls -> In z (elements cl) -> In z' (elements cl) ->
      conjugates z z';
  inv_complete : forall cl z y,
      In cl cls -> In z (elements cl) -> In y ops ->
      conjugates z y -> contains cl y;
  inv_separated : forall k k' cl cl' z z',
      nth_error cls k = Some cl -> nth_error cls k' = Some cl' ->
      In z (elements cl) -> In z' (elements cl') ->
      conjugates z z' -> k = k'
}.

(** The class of [op] under construction, after the operations [done] of
    the inner loop. *)
Record new_class (op : ref) (done el : list ref) : Prop := {
  new_seed : In op el;
  new_conjugate : forall z, In z el -> In z ops /\ conjugates op z;
  new_done : forall g gi y, In g done -> g <> op ->
      inverse (h g) = Some gi -> In y ops -> conjugate_by g gi op y ->
      exists z, In z el /\ same (m z) (m y)
}.

(** The classes [cls] partition the operations [ops]: no class is empty,
    the members of the classes are operations of [ops], every operation is
    in a class, and in one only. *)
Record partition (cls : list ConjugacyClass) : Prop := {
  partition_nonempty : forall cl, In cl cls -> elements cl <> [];
  partition_inside : forall cl z,
      In cl cls -> In z (elements cl) -> In z ops;
  partition_cover : forall op,
      In op ops -> exists cl, In cl cls /\ class_contains h cl op = true;
  partition_disjoint : forall k k' cl cl' x,
      In x ops ->
      nth_error cls k = Some cl -> nth_error cls k' = Some cl' ->
      class_contains h cl x = true -> class_contains h cl' x = true ->
      k = k'
}.

End ClassSpecification.

(** * Properties *)


Section Monad.

Context {C : Collaborator}.

Lemma bind_ok {A B} (m : M A) (k : A -> M B) s b s' :
  bind m k s = Ok (b, s') ->
  exists a s1, m s = Ok (a, s1) /\ k a s1 = Ok (b, s').
Proof.
  unfold bind. destruct (m s) as [[a s1]|e]; [|discriminate].
  intros H. exists a, s1. split; [reflexivity|exact H].
Qed.

Lemma bind_raise {A B} (m : M A) (k : A -> M B) s e :
  bind m k s = Raise e ->
  m s = Raise e \/ exists a s1, m s = Ok (a, s1) /\ k a s1 = Raise e.
Proof.
  unfold bind. destruct (m s) as [[a s1]|e']; intros H.
  - right. exists a, s1. split; [reflexivity|exact H].
  - left. inversion H. reflexivity.
Qed.

Lemma bind_eq_ok {A B} (m : M A) (k : A -> M B) s a s1 :
  m s = Ok (a, s1) -> bind m k s = k a s1.
Proof. unfold bind. intros ->. reflexivity. Qed.

Lemma bind_eq_raise {A B} (m : M A) (k : A -> M B) s e :
  m s = Raise e -> bind m k s = Raise e.
Proof. unfold bind. intros ->. reflexivity. Qed.

Section Relation.

Variable R : State -> State -> Prop.
Hypothesis R_refl : forall s, R s s.
Hypothesis R_trans : forall s1 s2 s3, R s1 s2 -> R s2 s3 -> R s1 s3.

Lemma preserves_ret {A} (a : A) : preserves R (ret a).
Proof. intros s a' s' H. inversion H; subst. apply R_refl. Qed.

Lemma preserves_get : preserves R get.
Proof. intros s a' s' H. inversion H; subst. apply R_refl. Qed.

Lemma preserves_raise {A} e : preserves R (@raise _ A e).
Proof. intros s a s' H. discriminate. Qed.

Lemma preserves_bind {A B} (m : M A) (k : A -> M B) :
  preserves R m -> (forall a, preserves R (k a)) -> preserves R (bind m k).
Proof.
  intros Hm Hk s b s' H.
  apply bind_ok in H. destruct H as (a & s1 & H1 & H2).
  eapply R_trans; [eapply Hm; eassumption | eapply Hk; eassumption].
Qed.

Lemma preserves_for_each {A} (body : A -> M unit) l :
  (forall x, In x l -> preserves R (body x)) ->
  preserves R (for_each l body).
Proof.
  induction l as [|x t IH]; intros Hb; simpl.
  - apply preserves_ret.
  - apply preserves_bind.
    + apply Hb. left. reflexivity.
    + intros _. apply IH. intros y Hy. apply Hb. right. exact Hy.
Qed.

(** Every iteration of a loop that ends normally was run, from a state
    related to the first one and to a state related to the last one. *)
Lemma for_each_ran {A} (body : A -> M unit) l s u s' :
  (forall x, In x l -> preserves R (body x)) ->
  for_each l body s = Ok (u, s') ->
  forall x, In x l ->
  exists s1 s2, R s s1 /\ body x s1 = Ok (tt, s2) /\ R s2 s'.
Proof.
  revert s. induction l as [|y t IH]; intros s Hb H x Hx; [destruct Hx|].
  simpl in H. apply bind_ok in H. destruct H as ([] & s1 & H1 & H2).
  assert (Hpt : preserves R (for_each t body)).
  { apply preserves_for_each. intros z Hz. apply Hb. right. exact Hz. }
  destruct Hx as [->|Hx].
  - exists s, s1. repeat split; [apply R_refl | exact H1 |].
    eapply Hpt. exact H2.
  - destruct (IH s1) with (x := x) as (s2 & s3 & Ha & Hc & Hd); auto.
    { intros z Hz. apply Hb. right. exact Hz. }
    exists s2, s3. repeat split; [|exact Hc|exact Hd].
    eapply R_trans; [|exact Ha]. eapply Hb; [left; reflexivity|exact H1].
Qed.

End Relation.

Lemma raises_only_bind {A B} E (m : M A) (k : A -> M B) :
  raises_only E m -> (forall a, raises_only E (k a)) ->
  raises_only E (bind m k).
Proof.
  intros Hm Hk s e H. apply bind_raise in H.
  destruct H as [H|(a & s1 & _ & H)]; [eapply Hm|eapply Hk]; eassumption.
Qed.

Lemma raises_only_for_each {A} E (body : A -> M unit) l :
  (forall x, raises_only E (body x)) -> raises_only E (for_each l body).
Proof.
  intros Hb. induction l as [|x t IH]; simpl.
  - intros s e H. discriminate.
  - apply raises_only_bind; [apply Hb | intros _; exact IH].
Qed.

End Monad.

Arguments preserves_ret {C R} R_refl {A} a.
Arguments preserves_get {C R} R_refl.
Arguments preserves_raise {C R A} e.
Arguments preserves_bind {C R} R_trans {A B} m k.
Arguments preserves_for_each {C R} R_refl R_trans {A} body l.
Arguments for_each_ran {C R} R_refl R_trans {A} body l s u s'.

(** ** What construction leaves alone *)

Section Frame.

Context {C : Collaborator}.

Lemma same_objects_refl h : same_objects h h.
Proof. intros r. split; reflexivity. Qed.

Lemma same_objects_trans h1 h2 h3 :
  same_objects h1 h2 -> same_objects h2 h3 -> same_objects h1 h3.
Proof.
  intros H12 H23 r. destruct (H12 r) as [Ha Hb], (H23 r) as [Hc Hd].
  split; congruence.
Qed.

Lemma same_objects_upd h r o :
  kind o = kind (h r) -> matrix o = matrix (h r) ->
  same_objects h (upd h r o).
Proof.
  intros Hk Hm r'. unfold upd.
  destruct (Nat.eqb_spec r' r) as [->|_]; split; auto.
Qed.

Lemma stable_refl s : stable s s.
Proof. constructor; auto using same_objects_refl. Qed.

Lemma stable_trans s1 s2 s3 : stable s1 s2 -> stable s2 s3 -> stable s1 s3.
Proof.
  intros [A1 B1 C1] [A2 B2 C2].
  constructor; try congruence. eapply same_objects_trans; eassumption.
Qed.

Lemma permuted_refl s : permuted s s.
Proof. constructor; auto using same_objects_refl. Qed.

Lemma permuted_trans s1 s2 s3 :
  permuted s1 s2 -> permuted s2 s3 -> permuted s1 s3.
Proof.
  intros [A1 B1 C1] [A2 B2 C2]. constructor; try congruence.
  - eapply Permutation_trans; eassumption.
  - eapply same_objects_trans; eassumption.
Qed.

Lemma stable_permuted s s' : stable s s' -> permuted s s'.
Proof.
  intros [A B D]. constructor; auto. rewrite A. apply Permutation_refl.
Qed.

Lemma preserves_weaken {A} (R R' : State -> State -> Prop) (m : M A) :
  (forall s s', R s s' -> R' s s') -> preserves R m -> preserves R' m.
Proof. intros HR Hm s a s' H. apply HR. eapply Hm. exact H. Qed.

End Frame.

(** Solves the frame condition of a method built from the primitives, by
    following its structure. *)
Ltac frame_with refl trans :=
  repeat first
    [ solve [auto 2]
    | apply (preserves_ret refl)
    | apply (preserves_get refl)
    | apply (preserves_raise _)
    | apply (preserves_bind trans); [|intros ?]
    | apply (preserves_for_each refl trans); intros ? ?
    | match goal with
      | |- preserves _ (if ?b then _ else _) => destruct b
      | |- preserves _ (match ?x with _ => _ end) => destruct x
      end ].

Ltac frame := frame_with (@stable_refl _) (@stable_trans _).

Section FrameLemmas.

Context {C : Collaborator}.

Lemma stable_as_permuted {A} (m : M A) :
  preserves stable m -> preserves permuted m.
Proof. apply preserves_weaken. exact stable_permuted. Qed.

Lemma set_inverse_stable r v : preserves stable (set_inverse r v).
Proof.
  intros s a s' H. inversion H; subst. constructor; simpl; auto.
  apply same_objects_upd; reflexivity.
Qed.

Lemma set_name_stable r v : preserves stable (set_name r v).
Proof.
  intros s a s' H. inversion H; subst. constructor; simpl; auto.
  apply same_objects_upd; reflexivity.
Qed.

Lemma set_principal_reflection_stable r :
  preserves stable (set_principal_reflection r).
Proof.
  intros s a s' H. inversion H; subst. constructor; simpl; auto.
  apply same_objects_upd; reflexivity.
Qed.

Lemma identity_element_stable : preserves stable identity_element.
Proof.
  intros s a s' H. unfold identity_element in H.
  destruct (_identity_element s).
  - inversion H; subst. apply stable_refl.
  - destruct (find _ _); inversion H; subst.
    constructor; simpl; auto using same_objects_refl.
Qed.

Lemma element_with_matrix_state mat s r s' :
  element_with_matrix mat s = Ok (r, s') -> s' = s.
Proof.
  unfold element_with_matrix. destruct (find _ _); intros H;
    inversion H; reflexivity.
Qed.

Lemma mul_state a b s r s' : mul a b s = Ok (r, s') -> s' = s.
Proof.
  unfold mul, bind, get. apply element_with_matrix_state.
Qed.

Lemma mul_stable a b : preserves stable (mul a b).
Proof. intros s r s' H. apply mul_state in H. subst. apply stable_refl. Qed.

Lemma check_pair_stable iop jop : preserves stable (check_pair iop jop).
Proof.
  unfold check_pair.
  pose proof (mul_stable iop jop). pose proof identity_element_stable.
  pose proof set_inverse_stable.
  frame; auto.
Qed.

Lemma _check_closure_stable : preserves stable _check_closure.
Proof.
  unfold _check_closure. pose proof check_pair_stable. frame; auto.
Qed.

Lemma set_classes_stable cls : preserves stable (set_classes cls).
Proof.
  intros s u s' H. inversion H; subst.
  constructor; simpl; auto using same_objects_refl.
Qed.

Lemma conjugate_state g op s r s' : conjugate g op s = Ok (r, s') -> s' = s.
Proof.
  unfold conjugate. intros H.
  apply bind_ok in H. destruct H as (x & s1 & H1 & H2).
  apply mul_state in H1. subst s1. unfold bind, get in H2.
  destruct (inverse (heap s g)); [|discriminate].
  apply mul_state in H2. exact H2.
Qed.

Lemma conjugate_stable g op : preserves stable (conjugate g op).
Proof.
  intros s r s' H. apply conjugate_state in H. subst. apply stable_refl.
Qed.

Lemma class_step_stable op : preserves stable (class_step op).
Proof.
  unfold class_step. pose proof set_classes_stable.
  pose proof conjugate_stable. frame.
Qed.

Lemma _compute_classes_stable : preserves stable _compute_classes.
Proof.
  unfold _compute_classes. pose proof class_step_stable. frame; auto.
Qed.

Lemma flag_principal_reflections_stable :
  preserves stable flag_principal_reflections.
Proof.
  unfold flag_principal_reflections, flag_if_same_axis.
  pose proof set_principal_reflection_stable. frame; auto.
Qed.

Lemma name_axes_stable prefix ydir order naxes rotgrp :
  forall i prime_count labels has_paren_label,
    preserves stable (name_axes prefix ydir order naxes rotgrp i prime_count
                                labels has_paren_label).
Proof.
  pose proof set_name_stable.
  induction rotgrp as [|rot t IH]; intros; simpl; frame; auto.
Qed.

Lemma name_group_stable prefix ydir rotgrp :
  preserves stable (name_group prefix ydir rotgrp).
Proof.
  unfold name_group. pose proof set_name_stable.
  pose proof (name_axes_stable prefix ydir). frame; auto.
Qed.

Lemma name_rotations_stable : preserves stable name_rotations.
Proof.
  unfold name_rotations. pose proof name_group_stable. frame; auto.
Qed.

Lemma name_improper_rotations_stable :
  preserves stable name_improper_rotations.
Proof.
  unfold name_improper_rotations. pose proof name_group_stable.
  frame; auto.
Qed.

Lemma name_reflections_stable refs :
  forall prime_count has_paren_label,
    preserves stable (name_reflections refs prime_count has_paren_label).
Proof.
  pose proof set_name_stable.
  induction refs as [|r t IH]; intros; simpl; frame; auto.
Qed.

Lemma sort_classes_stable : preserves stable sort_classes.
Proof. unfold sort_classes. pose proof set_classes_stable. frame. Qed.

Lemma set_pg_name_stable v : preserves stable (set_pg_name v).
Proof.
  intros s u s' H. inversion H; subst.
  constructor; simpl; auto using same_objects_refl.
Qed.

Lemma _get_name_stable : preserves stable _get_name.
Proof.
  unfold _get_name, unclassifiable. pose proof set_pg_name_stable.
  frame; auto.
Qed.

(** ** The sort is a permutation *)

Lemma insert_perm {A} (lt : A -> A -> bool) x l :
  Permutation (insert lt x l) (x :: l).
Proof.
  induction l as [|y t IH]; simpl; [apply Permutation_refl|].
  destruct (lt x y); [apply Permutation_refl|].
  eapply Permutation_trans; [apply perm_skip, IH|apply perm_swap].
Qed.

Lemma sort_by_perm {A} (lt : A -> A -> bool) l :
  Permutation (sort_by lt l) l.
Proof.
  unfold sort_by.
  assert (G : forall acc, Permutation (fold_left (fun a x => insert lt x a)
                                                 l acc) (acc ++ l)).
  { induction l as [|x t IH]; intros acc; simpl.
    - rewrite app_nil_r. apply Permutation_refl.
    - eapply Permutation_trans; [apply IH|].
      eapply Permutation_trans;
        [apply Permutation_app_tail, insert_perm|].
      simpl. apply Permutation_middle. }
  apply (G []).
Qed.

Lemma sort_operations_permuted : preserves permuted sort_operations.
Proof.
  intros s u s' H. inversion H; subst.
  constructor; simpl; auto using same_objects_refl.
  apply sort_by_perm.
Qed.

Lemma _name_operations_permuted : preserves permuted _name_operations.
Proof.
  unfold _name_operations.
  pose proof (stable_as_permuted _ flag_principal_reflections_stable).
  pose proof sort_operations_permuted.
  pose proof (stable_as_permuted _ identity_element_stable).
  pose proof (fun r v => stable_as_permuted _ (set_name_stable r v)).
  pose proof (stable_as_permuted _ name_rotations_stable).
  pose proof (stable_as_permuted _ name_improper_rotations_stable).
  pose proof (fun r p b => stable_as_permuted _
                             (name_reflections_stable r p b)).
  pose proof (stable_as_permuted _ sort_classes_stable).
  frame_with (@permuted_refl _) (@permuted_trans _); auto.
Qed.

Lemma construction_permuted :
  preserves permuted
    (bind _check_closure (fun _ =>
       bind _compute_classes (fun _ =>
         bind _name_operations (fun _ => _get_name)))).
Proof.
  pose proof (stable_as_permuted _ _check_closure_stable).
  pose proof (stable_as_permuted _ _compute_classes_stable).
  pose proof _name_operations_permuted.
  pose proof (stable_as_permuted _ _get_name_stable).
  frame_with (@permuted_refl _) (@permuted_trans _); auto.
Qed.

Lemma PointGroup_init_ok h ops s :
  PointGroup_init h ops = Ok s ->
  exists s1 s2 s3,
    _check_closure (new_point_group h ops) = Ok (tt, s1) /\
    _compute_classes s1 = Ok (tt, s2) /\
    _name_operations s2 = Ok (tt, s3) /\
    _get_name s3 = Ok (tt, s).
Proof.
  unfold PointGroup_init. intros H.
  destruct (bind _ _ _) as [[u s']|e] eqn:E; inversion H; subst s'.
  apply bind_ok in E. destruct E as ([] & s1 & E1 & E).
  apply bind_ok in E. destruct E as ([] & s2 & E2 & E).
  apply bind_ok in E. destruct E as ([] & s3 & E3 & E).
  destruct u. exists s1, s2, s3. auto.
Qed.

End FrameLemmas.
Section Closure.
Context {C : Collaborator}.

Lemma element_with_matrix_ok mat s r s' :
  element_with_matrix mat s = Ok (r, s') ->
  s' = s /\ In r (operations s) /\
  is_same_matrix (matrix (heap s r)) mat = true.
Proof.
  unfold element_with_matrix.
  destruct (find _ _) as [c|] eqn:F; intros H; inversion H; subst.
  apply find_some in F. tauto.
Qed.

Lemma element_with_matrix_raise mat s e :
  element_with_matrix mat s = Raise e ->
  e = GroupTheoryError GroupNotClosed /\
  forall r, In r (operations s) ->
            is_same_matrix (matrix (heap s r)) mat = false.
Proof.
  unfold element_with_matrix.
  destruct (find _ _) as [c|] eqn:F; intros H; inversion H; subst.
  split; [reflexivity|]. intros r Hr.
  exact (find_none _ _ F r Hr).
Qed.

Lemma mul_ok a b s r s' :
  mul a b s = Ok (r, s') ->
  s' = s /\ In r (operations s) /\
  is_same_matrix (matrix (heap s r))
                 (matmul (matrix (heap s a)) (matrix (heap s b))) = true.
Proof. unfold mul, bind, get. apply element_with_matrix_ok. Qed.

Lemma mul_raise a b s e :
  mul a b s = Raise e ->
  e = GroupTheoryError GroupNotClosed /\
  forall r, In r (operations s) ->
    is_same_matrix (matrix (heap s r))
                   (matmul (matrix (heap s a)) (matrix (heap s b))) = false.
Proof. unfold mul, bind, get. apply element_with_matrix_raise. Qed.

Lemma identity_element_raise s e :
  identity_element s = Raise e -> e = GroupTheoryError MissingIdentity.
Proof.
  unfold identity_element. destruct (_identity_element s); [discriminate|].
  destruct (find _ _); intros H; inversion H. reflexivity.
Qed.

Lemma check_pair_raises iop jop :
  raises_only closure_error (check_pair iop jop).
Proof.
  intros s e H. unfold check_pair in H.
  apply bind_raise in H. destruct H as [H|(p & s1 & _ & H)].
  { apply mul_raise in H. left. tauto. }
  apply bind_raise in H. destruct H as [H|(i & s2 & _ & H)].
  { apply identity_element_raise in H. right. left. exact H. }
  unfold bind, get in H.
  destruct (op_eq _ _ _); [|discriminate].
  destruct (_ || _); [|discriminate].
  inversion H. right. right. reflexivity.
Qed.

Lemma _check_closure_raises : raises_only closure_error _check_closure.
Proof.
  unfold _check_closure. apply raises_only_bind.
  { intros s e H. discriminate. }
  intros s. apply raises_only_for_each. intros iop.
  apply raises_only_bind.
  { intros s' e H. discriminate. }
  intros s'. apply raises_only_for_each. intros jop.
  apply check_pair_raises.
Qed.

Lemma matched_stable s s' ops a b :
  same_objects (heap s) (heap s') ->
  matched (heap s') ops a b -> matched (heap s) ops a b.
Proof.
  intros H (c & Hc & Hm). exists c. split; [exact Hc|].
  destruct (H a) as [_ <-], (H b) as [_ <-], (H c) as [_ <-]. exact Hm.
Qed.

Lemma _check_closure_matched s u s' :
  _check_closure s = Ok (u, s') ->
  forall a b, In a (operations s) -> In b (operations s) ->
              matched (heap s) (operations s) a b.
Proof.
  intros H a b Ha Hb. unfold _check_closure in H.
  apply bind_ok in H. destruct H as (s0 & s1 & H0 & H).
  inversion H0; subst s0 s1; clear H0.
  assert (Hin : forall iop,
             preserves stable
               (bind get (fun s' =>
                  for_each (operations s') (fun jop => check_pair iop jop)))).
  { intros iop. pose proof check_pair_stable. frame. }
  destruct (for_each_ran (@stable_refl _) (@stable_trans _) _ _ _ _ _
              (fun x _ => Hin x) H a Ha) as (s1 & s2 & S1 & B & _).
  apply bind_ok in B. destruct B as (s0 & s1' & H0 & B).
  inversion H0; subst s0 s1'; clear H0.
  rewrite (stable_operations _ _ S1) in B.
  destruct (for_each_ran (@stable_refl _) (@stable_trans _) _ _ _ _ _
              (fun x _ => check_pair_stable a x) B b Hb)
    as (s3 & s4 & S3 & B' & _).
  unfold check_pair in B'. apply bind_ok in B'.
  destruct B' as (c & s5 & M & _). apply mul_ok in M.
  destruct M as (_ & Hc & Hm).
  pose proof (stable_trans _ _ _ S1 S3) as S.
  apply (matched_stable s s3); [apply S|].
  exists c. rewrite <- (stable_operations _ _ S). auto.
Qed.

End Closure.
Section ClosureClaims.
Context {C : Collaborator}.

Lemma unmatched_not_matched h ops a b :
  unmatched h ops a b -> ~ matched h ops a b.
Proof. intros U (c & Hc & Hm). rewrite (U c Hc) in Hm. discriminate. Qed.

Lemma PointGroup_init_closure_raise h ops e :
  _check_closure (new_point_group h ops) = Raise e ->
  PointGroup_init h ops = Raise e.
Proof.
  intros H. unfold PointGroup_init.
  rewrite (bind_eq_raise _ _ _ _ H). reflexivity.
Qed.

Lemma PointGroup_init_permuted h ops s :
  PointGroup_init h ops = Ok s -> permuted (new_point_group h ops) s.
Proof.
  unfold PointGroup_init. intros H.
  destruct (bind _ _ _) as [[u s']|e] eqn:E; inversion H; subst s'.
  exact (construction_permuted _ _ _ E).
Qed.

(** C10: construction neither inserts nor removes operations.  The list of
    operations of the constructed group is the list given to the
    constructor, sorted in place while the operations are named; it is the
    given list itself after the closure check and after the classes are
    computed; the operations keep their class and matrix, and the mode is
    the default one. *)
Theorem construction_keeps_operations (h : Heap) (ops : list ref)
        (s : State) :
  PointGroup_init h ops = Ok s ->
  Permutation (operations s) ops /\
  (exists h', same_objects h h' /\ operations s = sorted h' ops) /\
  (exists s1 s2,
     _check_closure (new_point_group h ops) = Ok (tt, s1) /\
     _compute_classes s1 = Ok (tt, s2) /\
     operations s1 = ops /\ operations s2 = ops) /\
  same_objects h (heap s) /\
  _generate_elements s = false.
Proof.
  intros H.
  pose proof (PointGroup_init_permuted _ _ _ H) as [Pp Pg Po].
  simpl in Pp, Pg, Po.
  destruct (PointGroup_init_ok _ _ _ H) as (s1 & s2 & s3 & E1 & E2 & E3 & E4).
  pose proof (_check_closure_stable _ _ _ E1) as S1.
  pose proof (_compute_classes_stable _ _ _ E2) as S2.
  pose proof (stable_trans _ _ _ S1 S2) as S12.
  split; [exact Pp|]. split; [|split; [|split; [exact Po|exact Pg]]].
  - unfold _name_operations in E3.
    apply bind_ok in E3. destruct E3 as ([] & t1 & F1 & E3).
    apply bind_ok in E3. destruct E3 as ([] & t2 & F2 & E3).
    pose proof (flag_principal_reflections_stable _ _ _ F1) as T1.
    inversion F2; subst t2; clear F2.
    assert (T3 : stable
                   (mkState (heap t1) (sorted (heap t1) (operations t1))
                            (classes t1) (pg_name t1) (_generate_elements t1)
                            (_identity_element t1)) s3).
    { revert E3.
      match goal with |- ?m ?x = _ -> _ =>
        assert (P : preserves stable m); [|apply P] end.
      pose proof identity_element_stable. pose proof set_name_stable.
      pose proof name_rotations_stable.
      pose proof name_improper_rotations_stable.
      pose proof name_reflections_stable. pose proof sort_classes_stable.
      frame. }
    pose proof (_get_name_stable _ _ _ E4) as T4.
    pose proof (stable_trans _ _ _ S12 T1) as T.
    exists (heap t1). split; [apply T|].
    rewrite (stable_operations _ _ T4), (stable_operations _ _ T3). simpl.
    rewrite (stable_operations _ _ T). reflexivity.
  - exists s1, s2. repeat split; auto.
    + apply (stable_operations _ _ S1).
    + apply (stable_operations _ _ S12).
Qed.

End ClosureClaims.

Section Pairs.

Context {C : Collaborator}.

Lemma for_each_app {A} (body : A -> M unit) (l1 l2 : list A) s :
  for_each (l1 ++ l2) body s
  = bind (for_each l1 body) (fun _ => for_each l2 body) s.
Proof.
  revert s. induction l1 as [|x t IH]; intros s; simpl.
  - reflexivity.
  - unfold bind. destruct (body x s) as [[u s1]|e]; [|reflexivity].
    rewrite IH. reflexivity.
Qed.

Lemma for_each_map {A B} (g : A -> B) (body : B -> M unit) (l : list A) s :
  for_each (map g l) body s = for_each l (fun x => body (g x)) s.
Proof.
  revert s. induction l as [|x t IH]; intros s; simpl; [reflexivity|].
  unfold bind. destruct (body (g x) s) as [[u s1]|e]; [|reflexivity].
  apply IH.
Qed.

(** A loop that raises ran the iterations before the one that raised. *)
Lemma for_each_raised {A} (body : A -> M unit) (l : list A) s e :
  for_each l body s = Raise e ->
  exists before x after s1,
    l = before ++ x :: after /\
    for_each before body s = Ok (tt, s1) /\ body x s1 = Raise e.
Proof.
  revert s. induction l as [|y t IH]; intros s H; simpl in H; [discriminate|].
  apply bind_raise in H. destruct H as [H|([] & s1 & H1 & H2)].
  - exists [], y, t, s. auto.
  - destruct (IH s1 H2) as (b & x & a & s2 & -> & Hb & Hx).
    exists (y :: b), x, a, s2. repeat split; auto.
    simpl. rewrite (bind_eq_ok _ _ _ _ _ H1). exact Hb.
Qed.

Lemma check_pairs_stable l : preserves stable (check_pairs l).
Proof.
  apply (preserves_for_each (@stable_refl _) (@stable_trans _)).
  intros p _. apply check_pair_stable.
Qed.

Lemma check_rows_pairs (ops l : list ref) :
  forall t, operations t = ops ->
    for_each l (fun iop =>
      bind get (fun s' =>
        for_each (operations s') (fun jop => check_pair iop jop))) t
    = check_pairs (list_prod l ops) t.
Proof.
  induction l as [|i r IH]; intros t Ht; [reflexivity|].
  simpl. unfold check_pairs. rewrite for_each_app.
  unfold bind. unfold get. rewrite for_each_map, Ht. simpl.
  destruct (for_each ops (fun jop => check_pair i jop) t)
    as [[u t1]|e] eqn:E; [|reflexivity].
  apply IH.
  assert (P : preserves stable
                (for_each ops (fun jop => check_pair i jop))).
  { apply (preserves_for_each (@stable_refl _) (@stable_trans _)).
    intros p _. apply check_pair_stable. }
  rewrite (stable_operations _ _ (P _ _ _ E)). exact Ht.
Qed.

(** The two loops of [_check_closure] scan the pairs of the operations,
    those of the first operation first. *)
Lemma _check_closure_pairs s :
  _check_closure s = check_pairs (list_prod (operations s) (operations s)) s.
Proof.
  unfold _check_closure. unfold bind at 1. unfold get.
  apply check_rows_pairs. reflexivity.
Qed.

Lemma unmatchedb_true h ops a b :
  unmatchedb h ops (a, b) = true <-> unmatched h ops a b.
Proof.
  unfold unmatchedb, unmatched. rewrite forallb_forall. simpl.
  split; intros H c Hc.
  - apply negb_true_iff. apply H. exact Hc.
  - apply negb_true_iff. apply H. exact Hc.
Qed.

Lemma unmatchedb_false h ops a b :
  unmatchedb h ops (a, b) = false -> matched h ops a b.
Proof.
  unfold unmatchedb, matched. simpl.
  induction ops as [|c t IH]; simpl; [discriminate|].
  destruct (is_same_matrix _ _) eqn:E; simpl.
  - intros _. exists c. auto.
  - intros H. destruct (IH H) as (c' & Hc & Hm). exists c'. auto.
Qed.

Lemma first_such {A} (p : A -> bool) (l : list A) (x : A) :
  In x l -> p x = true ->
  exists before y after,
    l = before ++ y :: after /\ p y = true /\
    forall z, In z before -> p z = false.
Proof.
  induction l as [|y t IH]; intros Hx Px; [destruct Hx|].
  destruct (p y) eqn:Py.
  - exists [], y, t. repeat split; auto. intros z [].
  - destruct Hx as [->|Hx]; [congruence|].
    destruct (IH Hx Px) as (b & y' & a & -> & Py' & Hb).
    exists (y :: b), y', a. repeat split; auto.
    intros z [<-|Hz]; auto.
Qed.

(** A pair whose product is unmatched raises "group not closed". *)
Lemma check_pair_unmatched a b s :
  unmatched (heap s) (operations s) a b ->
  check_pair a b s = Raise (GroupTheoryError GroupNotClosed).
Proof.
  intros U. unfold check_pair. apply bind_eq_raise.
  unfold mul, bind, get, element_with_matrix.
  destruct (find _ _) as [c|] eqn:F; [|reflexivity].
  apply find_some in F. destruct F as [Hc Hm].
  rewrite (U c Hc) in Hm. discriminate.
Qed.

(** A pair whose product is matched raises another error, if any. *)
Lemma check_pair_matched a b s e :
  matched (heap s) (operations s) a b ->
  check_pair a b s = Raise e ->
  e = GroupTheoryError MissingIdentity \/
  e = GroupTheoryError NonUniqueInverse.
Proof.
  intros (c & Hc & Hm) H. unfold check_pair in H.
  apply bind_raise in H. destruct H as [H|(p & s1 & _ & H)].
  { apply mul_raise in H. destruct H as [_ H].
    rewrite (H c Hc) in Hm. discriminate. }
  apply bind_raise in H. destruct H as [H|(i & s2 & _ & H)].
  { apply identity_element_raise in H. left. exact H. }
  unfold bind, get in H.
  destruct (op_eq _ _ _); [|discriminate].
  destruct (_ || _); [|discriminate].
  inversion H. right. reflexivity.
Qed.

Lemma unmatched_stable s s' a b :
  stable s s' -> unmatched (heap s) (operations s) a b ->
  unmatched (heap s') (operations s') a b.
Proof.
  intros [So _ Sh] U c Hc. rewrite So in Hc.
  destruct (Sh a) as [_ ->], (Sh b) as [_ ->], (Sh c) as [_ ->].
  apply U. exact Hc.
Qed.

Lemma matched_kept s s' a b :
  stable s s' -> matched (heap s) (operations s) a b ->
  matched (heap s') (operations s') a b.
Proof.
  intros [So _ Sh] (c & Hc & Hm). exists c. rewrite So.
  split; [exact Hc|].
  destruct (Sh a) as [_ ->], (Sh b) as [_ ->], (Sh c) as [_ ->]. exact Hm.
Qed.

(** C1, as amended: with self-extension disabled, some pair of operations
    with an unmatched product makes the scan of the pairs (those of the
    first operation first) reach a first such pair or fail before it.
    Construction then ends in the "group not closed" error when the pairs
    scanned before that pair raise nothing, and otherwise in the error
    raised at one of them, which is "missing identity" or "inverse not
    unique".  Consequently the operations of every constructed group are
    closed under composition. *)
Theorem unmatched_product_aborts (h : Heap) (ops : list ref) :
  (forall a b, In a ops -> In b ops -> unmatched h ops a b ->
     exists before a' b' after,
       list_prod ops ops = before ++ (a', b') :: after /\
       unmatched h ops a' b' /\
       forall p, In p before -> matched h ops (fst p) (snd p)) /\
  (forall before a b after,
     list_prod ops ops = before ++ (a, b) :: after ->
     unmatched h ops a b ->
     (forall p, In p before -> matched h ops (fst p) (snd p)) ->
     (succeeds (check_pairs before (new_point_group h ops)) = true ->
      PointGroup_init h ops = Raise (GroupTheoryError GroupNotClosed)) /\
     (forall e, check_pairs before (new_point_group h ops) = Raise e ->
        PointGroup_init h ops = Raise e /\
        (e = GroupTheoryError MissingIdentity \/
         e = GroupTheoryError NonUniqueInverse))) /\
  (forall s, PointGroup_init h ops = Ok s ->
     forall a b, In a (operations s) -> In b (operations s) ->
                 matched (heap s) (operations s) a b).
Proof.
  split; [|split].
  - intros a b Ha Hb U.
    destruct (first_such (unmatchedb h ops) (list_prod ops ops) (a, b))
      as (before & [a' b'] & after & E & U' & Hb').
    { apply in_prod; assumption. }
    { apply unmatchedb_true. exact U. }
    exists before, a', b', after. split; [exact E|].
    split; [apply unmatchedb_true; exact U'|].
    intros [x y] Hp. apply unmatchedb_false. apply Hb'. exact Hp.
  - intros before a b after E U Hm.
    set (s0 := new_point_group h ops).
    assert (Hc : _check_closure s0
                 = bind (check_pairs before)
                        (fun _ => bind (check_pair a b)
                                       (fun _ => check_pairs after)) s0).
    { rewrite _check_closure_pairs. simpl operations. rewrite E.
      unfold check_pairs at 1. rewrite for_each_app. reflexivity. }
    split.
    + intros Hs.
      destruct (check_pairs before s0) as [[[] s1]|e] eqn:Eb;
        [|discriminate].
      apply PointGroup_init_closure_raise. fold s0. rewrite Hc.
      rewrite (bind_eq_ok _ _ _ _ _ Eb). apply bind_eq_raise.
      apply check_pair_unmatched.
      apply (unmatched_stable s0 s1); [|exact U].
      apply (check_pairs_stable _ _ _ _ Eb).
    + intros e Eb. split.
      * apply PointGroup_init_closure_raise. fold s0. rewrite Hc.
        apply bind_eq_raise. exact Eb.
      * destruct (for_each_raised _ _ _ _ Eb)
          as (b1 & p & a1 & s1 & -> & E1 & Ep).
        apply (check_pair_matched (fst p) (snd p) s1); [|exact Ep].
        apply (matched_kept s0 s1).
        -- apply (check_pairs_stable b1 _ _ _ E1).
        -- apply Hm. apply in_or_app. right. left. reflexivity.
  - intros s H a b Ha Hb.
    pose proof (PointGroup_init_permuted _ _ _ H) as P.
    destruct (PointGroup_init_ok _ _ _ H) as (s1 & _ & _ & E & _).
    destruct P as [Pp _ Po]. simpl in Pp, Po.
    assert (Ha' : In a ops) by (eapply Permutation_in; eassumption).
    assert (Hb' : In b ops) by (eapply Permutation_in; eassumption).
    destruct (_check_closure_matched _ _ _ E a b Ha' Hb') as (c & Hc & Hm).
    simpl in Hc, Hm. exists c. split.
    + eapply Permutation_in; [apply Permutation_sym|]; eassumption.
    + destruct (Po a) as [_ ->], (Po b) as [_ ->], (Po c) as [_ ->].
      exact Hm.
Qed.

End Pairs.

Section PairsWitness.

Import Exact.

(** The operations E and C4 about the z axis: the pairs (E, E), (E, C4)
    and (C4, E) are scanned without an error, the square of C4 matches
    neither operation, and construction ends with "group not closed". *)
Lemma unmatched_product_aborts_witness :
  point_group [E; C4z] = Raise (GroupTheoryError GroupNotClosed).
Proof.
  refine (proj1 (proj1 (proj2 (@unmatched_product_aborts collaborator
                                 (heap_of [E; C4z]) [0; 1]%nat))
                       [(0, 0); (0, 1); (1, 0)]%nat 1%nat 1%nat [] _ _ _) _).
  - reflexivity.
  - intros c [<-|[<-|[]]]; vm_compute; reflexivity.
  - intros p [<-|[<-|[<-|[]]]]; apply unmatchedb_false; vm_compute;
      reflexivity.
  - vm_compute. reflexivity.
Defined.

End PairsWitness.

Section Lookups.
Context {C : Collaborator}.

Lemma list_index_none (h : Heap) (l : list ref) (op : ref) :
  (forall m, is_same_matrix m m = true) ->
  (forall r, In r l -> op_eq h r op = false) ->
  list_index h l op = None.
Proof.
  intros Hrefl Hno. unfold list_index.
  destruct (find (fun y => Nat.eqb y op || op_eq h y op) l) as [r|] eqn:F; [|reflexivity].
  apply find_some in F. destruct F as [Hr Hm].
  pose proof (Hno r Hr) as Hf. rewrite Hf, orb_false_r in Hm.
  apply Nat.eqb_eq in Hm. subst r.
  unfold op_eq in Hf. rewrite Hrefl in Hf. discriminate.
Qed.

Lemma list_index_some (h : Heap) (l : list ref) (op : ref) :
  (forall m, is_same_matrix m m = true) ->
  (exists r, In r l /\ op_eq h r op = true) ->
  exists r, list_index h l op = Some r /\ In r l /\ op_eq h r op = true.
Proof.
  intros Hrefl (r & Hr & Hm). unfold list_index.
  destruct (find (fun y => Nat.eqb y op || op_eq h y op) l) as [r'|] eqn:F.
  - exists r'. apply find_some in F. destruct F as [Hr' Hm'].
    repeat split; auto.
    apply orb_true_iff in Hm'. destruct Hm' as [Hm'|Hm']; [|exact Hm'].
    apply Nat.eqb_eq in Hm'. subst r'. apply Hrefl.
  - pose proof (find_none _ _ F r Hr) as Hn. simpl in Hn.
    rewrite Hm, orb_true_r in Hn. discriminate.
Qed.

(** C9: with self-extension disabled, [element_for] raises when no
    operation of the group equals its argument within tolerance, and
    answers an operation of the group that does, leaving the group as it
    is, when there is one; [element_with_matrix] raises "group not closed"
    when the matrix of no operation matches the given matrix.  With
    self-extension enabled, [element_for] appends an argument that has no
    match to the operations and answers it. *)
Theorem lookups_raise_without_match (s : State) (op : ref) (mat : Mat) :
  (forall m, is_same_matrix m m = true) ->
  (_generate_elements s = false ->
   ((forall r, In r (operations s) -> op_eq (heap s) r op = false) ->
    element_for op s = Raise (GroupTheoryError OperationNotFound)) /\
   ((exists r, In r (operations s) /\ op_eq (heap s) r op = true) ->
    exists r, element_for op s = Ok (r, s) /\ In r (operations s) /\
              op_eq (heap s) r op = true) /\
   ((forall r, In r (operations s) ->
               is_same_matrix (matrix (heap s r)) mat = false) ->
    element_with_matrix mat s = Raise (GroupTheoryError GroupNotClosed))) /\
  (_generate_elements s = true ->
   (forall r, In r (operations s) -> op_eq (heap s) r op = false) ->
   element_for op s =
   Ok (op, mkState (heap s) (operations s ++ [op]) (classes s) (pg_name s)
                   true (_identity_element s))).
Proof.
  intros Hrefl. split.
  - intros Hg. split; [|split].
    + intros Hno. unfold element_for.
      rewrite (list_index_none _ _ _ Hrefl Hno), Hg. reflexivity.
    + intros Hex.
      destruct (list_index_some _ _ _ Hrefl Hex) as (r & F & Hr & Hm).
      exists r. unfold element_for. rewrite F. auto.
    + intros Hno. unfold element_with_matrix.
      destruct (find _ _) as [r|] eqn:F; [|reflexivity].
      apply find_some in F. destruct F as [Hr Hm].
      rewrite (Hno r Hr) in Hm. discriminate.
  - intros Hg Hno. unfold element_for.
    rewrite (list_index_none _ _ _ Hrefl Hno), Hg. reflexivity.
Qed.

End Lookups.

Section GetName.

Context {C : Collaborator}.

Lemma filter_filter {A} (p q : A -> bool) l :
  filter p (filter q l) = filter (fun x => q x && p x) l.
Proof.
  induction l as [|x t IH]; simpl; [reflexivity|].
  destruct (q x); simpl; [destruct (p x)|]; rewrite IH; reflexivity.
Qed.

Lemma filter_ext' {A} (p q : A -> bool) l :
  (forall x, p x = q x) -> filter p l = filter q l.
Proof. intros H. apply filter_ext. exact H. Qed.

Lemma existsb_filter {A} (p q : A -> bool) l :
  existsb p (filter q l) = existsb (fun x => q x && p x) l.
Proof.
  induction l as [|x t IH]; simpl; [reflexivity|].
  destruct (q x); simpl; rewrite IH; reflexivity.
Qed.

Lemma count_high_axes s :
  List.length (filter (fun rot => Z.ltb 2 (op_n (heap s rot))
                                  && Z.eqb (op_exponent (heap s rot)) 1)
                      (rotations s))
  = count_ops (heap s) (operations s) is_high_axis.
Proof.
  unfold rotations, count_ops. rewrite filter_filter. f_equal.
  apply filter_ext. intros r. unfold is_high_axis.
  rewrite andb_assoc. reflexivity.
Qed.

Lemma count_perpendicular s axis :
  count_perpendicular_C2 s axis
  = count_ops (heap s) (operations s) (is_perpendicular_C2 axis).
Proof.
  unfold count_perpendicular_C2, rotations, count_ops.
  rewrite filter_filter. f_equal.
  apply filter_ext. intros r. unfold is_perpendicular_C2.
  rewrite andb_assoc. reflexivity.
Qed.

Lemma any_principal_reflection_iff s b :
  (b = true <->
   exists r, In r (operations s) /\ is_reflection (heap s r) = true /\
             principal_reflection (heap s r) = true) ->
  any_principal_reflection s = b.
Proof.
  intros Hb. unfold any_principal_reflection, reflections.
  rewrite existsb_filter. apply eq_true_iff_eq. rewrite Hb, existsb_exists.
  split; intros (r & Hr & H).
  - apply andb_true_iff in H. exists r. tauto.
  - exists r. split; [tauto|]. apply andb_true_iff. tauto.
Qed.

Lemma any_improper_iff s n b :
  (b = true <->
   exists r, In r (operations s) /\ is_improper_rotation (heap s r) = true /\
             op_n (heap s r) = n) ->
  existsb (fun irot => Z.eqb (op_n (heap s irot)) n) (improper_rotations s)
  = b.
Proof.
  intros Hb. unfold improper_rotations.
  rewrite existsb_filter. apply eq_true_iff_eq. rewrite Hb, existsb_exists.
  split; intros (r & Hr & H).
  - apply andb_true_iff in H. rewrite Z.eqb_eq in H. exists r. tauto.
  - exists r. split; [tauto|]. apply andb_true_iff. rewrite Z.eqb_eq. tauto.
Qed.

End GetName.

Section NoRotation.

Context {C : Collaborator}.

Lemma filter_perm {A} (p : A -> bool) l l' :
  Permutation l l' -> Permutation (filter p l) (filter p l').
Proof.
  induction 1 as [|x l l' _ IH|x y l|l1 l2 l3 _ IH1 _ IH2]; simpl.
  - constructor.
  - destruct (p x); [constructor|]; exact IH.
  - destruct (p x), (p y); try apply Permutation_refl. apply perm_swap.
  - eapply Permutation_trans; eassumption.
Qed.

Lemma count_ops_permuted (p : Operation -> bool) s s' :
  (forall o o' : Operation, kind o = kind o' -> p o = p o') ->
  permuted s s' ->
  count_ops (heap s') (operations s') p = count_ops (heap s) (operations s) p.
Proof.
  intros Hp [Pp _ Po]. unfold count_ops.
  rewrite (filter_ext (fun r => p (heap s' r)) (fun r => p (heap s r))).
  - apply Permutation_length, filter_perm, Pp.
  - intros r. apply Hp. apply Po.
Qed.

Lemma count_ops_zero h ops p :
  count_ops h ops p = 0%nat <-> filter (fun r => p (h r)) ops = [].
Proof.
  unfold count_ops. destruct (filter _ ops); simpl; split; intros H;
    try reflexivity; discriminate.
Qed.

Lemma inversion_present s b :
  (b = true <->
   exists r, In r (operations s) /\ is_inversion (heap s r) = true) ->
  inversion s = None <-> b = false.
Proof.
  intros Hb. unfold inversion.
  destruct (find _ _) as [r|] eqn:F.
  - apply find_some in F. split; [discriminate|]. intros ->.
    assert (false = true) by (apply Hb; exists r; exact F). discriminate.
  - split; [|reflexivity]. intros _. destruct b; [|reflexivity].
    destruct (proj1 Hb eq_refl) as (r & Hr & Hi).
    pose proof (find_none _ _ F r Hr) as Hn. simpl in Hn. congruence.
Qed.

Lemma no_rotation_get_name (s : State) (inversion_exists : bool) :
  rotations s = [] ->
  (inversion_exists = true <->
   exists r, In r (operations s) /\ is_inversion (heap s r) = true) ->
  _get_name s =
  named s (no_rotation_name
             (count_ops (heap s) (operations s) is_reflection)
             inversion_exists (List.length (operations s))).
Proof.
  intros Hrot Hi. unfold _get_name, bind, get. rewrite Hrot. simpl.
  change (List.length (reflections s))
    with (count_ops (heap s) (operations s) is_reflection).
  unfold no_rotation_name, named, unclassifiable, raise.
  pose proof (inversion_present _ _ Hi) as Hinv.
  destruct (Nat.eqb _ 1); [reflexivity|].
  destruct (inversion s) as [i|].
  - destruct inversion_exists; [reflexivity|].
    discriminate (proj2 Hinv eq_refl).
  - rewrite (proj1 Hinv eq_refl).
    destruct (Nat.eqb _ 1); reflexivity.
Qed.

Lemma set_pg_name_name v s u s' :
  set_pg_name v s = Ok (u, s') -> pg_name s' = Some v.
Proof. intros H. inversion H. reflexivity. Qed.

Lemma kind_is_rotation (o o' : Operation) :
  kind o = kind o' -> is_rotation o = is_rotation o'.
Proof. unfold is_rotation. intros ->. reflexivity. Qed.

Lemma kind_is_reflection (o o' : Operation) :
  kind o = kind o' -> is_reflection o = is_reflection o'.
Proof. unfold is_reflection. intros ->. reflexivity. Qed.

Lemma kind_is_inversion (o o' : Operation) :
  kind o = kind o' -> is_inversion o = is_inversion o'.
Proof. unfold is_inversion. intros ->. reflexivity. Qed.

(** The name of a constructed group without rotations is read off the
    inventory of the operations given to the constructor. *)
Lemma no_rotation_construction (h : Heap) (ops : list ref) (s : State) :
  count_ops h ops is_rotation = 0%nat ->
  PointGroup_init h ops = Ok s ->
  pg_name s =
  no_rotation_name (count_ops h ops is_reflection)
                   (existsb (fun r => is_inversion (h r)) ops)
                   (List.length ops).
Proof.
  intros Hrot H.
  destruct (PointGroup_init_ok _ _ _ H) as (s1 & s2 & s3 & E1 & E2 & E3 & E4).
  assert (P : permuted (new_point_group h ops) s3).
  { eapply permuted_trans;
      [apply stable_permuted, (_check_closure_stable _ _ _ E1)|].
    eapply permuted_trans;
      [apply stable_permuted, (_compute_classes_stable _ _ _ E2)|].
    apply (_name_operations_permuted _ _ _ E3). }
  pose proof (count_ops_permuted _ _ _ kind_is_rotation P) as Cr.
  pose proof (count_ops_permuted _ _ _ kind_is_reflection P) as Cf.
  simpl in Cr, Cf. rewrite Hrot in Cr. apply count_ops_zero in Cr.
  rewrite (no_rotation_get_name s3
             (existsb (fun r => is_inversion (h r)) ops) Cr) in E4.
  - rewrite Cf, (Permutation_length (permuted_operations _ _ P)) in E4.
    simpl in E4. destruct (no_rotation_name _ _ _) as [v|]; [|discriminate].
    apply (set_pg_name_name _ _ _ _ E4).
  - rewrite existsb_exists. destruct P as [Pp _ Po]. simpl in Pp, Po.
    split; intros (r & Hr & Hi); exists r.
    + split; [eapply Permutation_in; [apply Permutation_sym|]; eassumption|].
      rewrite <- Hi. apply kind_is_inversion, Po.
    + split; [eapply Permutation_in; eassumption|].
      rewrite <- Hi. symmetry. apply kind_is_inversion, Po.
Qed.

End NoRotation.

Local Open Scope string_scope.

(** C7: a group without rotations is named "C_s" when it has exactly one
    reflection, else "C_i" when it has an inversion, else "C_1" when it has
    a single operation, and is unclassifiable otherwise; the name of a
    constructed group without rotations follows from the operations given
    to the constructor; the operations {E, i} give "C_i", {E, sigma} give
    "C_s" and {E} gives "C_1". *)
Theorem groups_without_rotations_named :
  (forall (C : Collaborator) (s : State) (inversion_exists : bool),
     rotations s = [] ->
     (inversion_exists = true <->
      exists r, In r (operations s) /\ is_inversion (heap s r) = true) ->
     _get_name s =
     named s (no_rotation_name
                (count_ops (heap s) (operations s) is_reflection)
                inversion_exists (List.length (operations s)))) /\
  (forall (C : Collaborator) (h : Heap) (ops : list ref) (s : State),
     count_ops h ops is_rotation = 0%nat ->
     PointGroup_init h ops = Ok s ->
     pg_name s =
     no_rotation_name (count_ops h ops is_reflection)
                      (existsb (fun r => is_inversion (h r)) ops)
                      (List.length ops)) /\
  Exact.names_of (Exact.point_group [Exact.E; Exact.inv])
  = Ok ([Some "E"; Some "i"], Some "C_i") /\
  Exact.names_of (Exact.point_group [Exact.E; Exact.sigma_xy])
  = Ok ([Some "E"; Some "sigma_v(xy)"], Some "C_s") /\
  Exact.names_of (Exact.point_group [Exact.E; Exact.sigma_xz])
  = Ok ([Some "E"; Some "sigma_v(xz)"], Some "C_s") /\
  Exact.names_of (Exact.point_group [Exact.E; Exact.sigma_yz])
  = Ok ([Some "E"; Some "sigma_v(yz)"], Some "C_s") /\
  Exact.names_of (Exact.point_group [Exact.E]) = Ok ([Some "E"], Some "C_1").
Proof.
  split; [intros C; apply no_rotation_get_name|].
  split; [intros C; apply no_rotation_construction|].
  repeat split; vm_compute; reflexivity.
Qed.

Section ExactFixtures.

Import Exact.

Lemma groups_without_rotations_named_witness :
  _get_name (@new_point_group collaborator (heap_of [E; inv]) [0; 1]%nat)
  = named (@new_point_group collaborator (heap_of [E; inv]) [0; 1]%nat)
          (Some "C_i").
Proof.
  apply (proj1 groups_without_rotations_named collaborator
               (@new_point_group collaborator (heap_of [E; inv])
                                 [0; 1]%nat) true).
  - reflexivity.
  - split; [|reflexivity]. intros _. exists 1%nat. split.
    + simpl. auto.
    + reflexivity.
Defined.

End ExactFixtures.

Local Close Scope string_scope.

Section PrincipalReflection.

Context {C : Collaborator}.

Lemma find_first {A} (p : A -> bool) (l : list A) (r : A) :
  find p l = Some r ->
  exists before after,
    l = (before ++ r :: after)%list /\ p r = true /\
    forall x, In x before -> p x = false.
Proof.
  induction l as [|y t IH]; simpl; [discriminate|].
  destruct (p y) eqn:Py.
  - intros H. inversion H; subst. exists [], t. simpl. tauto.
  - intros H. destruct (IH H) as (b & a & -> & Pr & Hb).
    exists (y :: b), a. simpl. repeat split; auto.
    intros x [<-|Hx]; auto.
Qed.

Lemma first_find {A} (p : A -> bool) (before after : list A) (r : A) :
  p r = true -> (forall x, In x before -> p x = false) ->
  find p (before ++ r :: after)%list = Some r.
Proof.
  intros Pr. induction before as [|y t IH]; simpl; intros Hb.
  - rewrite Pr. reflexivity.
  - rewrite (Hb y (or_introl eq_refl)). apply IH. auto.
Qed.

Lemma find_none_first {A} (p : A -> bool) (before after : list A) (r : A) :
  find p (before ++ r :: after)%list = None -> p r = false.
Proof.
  intros F. apply (find_none _ _ F). apply in_or_app. right. left.
  reflexivity.
Qed.

(** C2, as amended: when the first (n, exponent) group of the sorted
    rotations has order at most 2, the step flags as principal the first
    reflection whose axis coincides within tolerance with the axis of the
    first rotation of that group, and no other reflection; the canonical
    z axis plays no part. *)
Theorem low_order_principal_reflection (s : State) (rot0 : ref)
        (rest : list ref) :
  principal_rotations s = rot0 :: rest ->
  (op_n (heap s rot0) <= 2)%Z ->
  exists s',
    flag_principal_reflections s = Ok (tt, s') /\
    stable s s' /\
    forall r, principal_reflection (heap s' r) = true <->
              principal_reflection (heap s r) = true \/
              first_reflection_on s rot0 r.
Proof.
  intros Hp Hn. unfold flag_principal_reflections, bind, get.
  rewrite Hp. destruct (Z.ltb_spec 2 (op_n (heap s rot0))) as [Hlt|_]; [lia|].
  destruct (find _ (reflections s)) as [op|] eqn:F.
  - eexists. split; [reflexivity|]. split.
    + constructor; simpl; auto. apply same_objects_upd; reflexivity.
    + intros r. simpl. unfold upd.
      destruct (find_first _ _ _ F) as (b & a & E & Pr & Hb).
      destruct (Nat.eqb_spec r op) as [->|Hne]; simpl.
      * split; [|reflexivity]. intros _. right. exists b, a. auto.
      * split; [tauto|]. intros [H|(b' & a' & E' & Pr' & Hb')]; [exact H|].
        exfalso. apply Hne.
        assert (F' : find (fun op0 => is_same_axis (op_axis (heap s op0))
                                                  (op_axis (heap s rot0)))
                          (reflections s) = Some r).
        { rewrite E'. apply first_find; assumption. }
        congruence.
  - eexists. split; [reflexivity|]. split; [apply stable_refl|].
    intros r. split; [tauto|].
    intros [H|(b & a & E & Pr & Hb)]; [exact H|].
    rewrite E in F. apply find_none_first in F. congruence.
Qed.

End PrincipalReflection.

Section ExactPrincipalReflection.

Import Exact.
Local Open Scope string_scope.

Lemma low_order_principal_reflection_witness :
  exists s',
    flag_principal_reflections
      (@new_point_group collaborator
         (heap_of [E; C2x; inv; sigma_yz]) [0; 1; 2; 3]%nat) = Ok (tt, s') /\
    principal_reflection (heap s' 3%nat) = true.
Proof.
  destruct (@low_order_principal_reflection collaborator
              (@new_point_group collaborator
                 (heap_of [E; C2x; inv; sigma_yz]) [0; 1; 2; 3]%nat)
              1%nat [] eq_refl) as (s' & F & _ & H).
  - vm_compute. discriminate.
  - exists s'. split; [exact F|]. apply H. right.
    exists [], []. repeat split. intros x [].
Defined.

(** The operations E, C2 about the x axis, i and the reflection through the
    yz plane: the only rotation has order 2 and is not along z, and the
    reflection, whose axis is not the z axis either, is flagged principal
    (the group is named "C_2h"). *)
Lemma principal_reflection_off_z_axis :
  principal_rotations
    (@new_point_group collaborator
       (heap_of [E; C2x; inv; sigma_yz]) [0; 1; 2; 3]%nat) = [1%nat] /\
  kind C2x = Rotation 2 1 (Vector 1 0 0) /\
  kind sigma_yz = Reflection (Vector 1 0 0) /\
  is_same_axis (Vector 1 0 0) (Vector 0 0 1) = false /\
  flags_of (point_group [E; C2x; inv; sigma_yz])
  = Ok [(0, false); (1, false); (3, true); (2, false)]%nat /\
  names_of (point_group [E; C2x; inv; sigma_yz])
  = Ok ([Some "E"; Some "C_2"; Some "sigma_h(yz)"; Some "i"], Some "C_2h").
Proof. repeat split; vm_compute; reflexivity. Qed.

(** C3: the operations of D_2.  The rotation about the y axis (0, 1, 0) is
    not given the suffix "(y)": the rule for rotations compares its axis
    with the vector (0, 1, 1). *)
Theorem rotation_about_y_not_labelled_y :
  names_of (point_group [E; C2z; C2y; C2x])
  = Ok ([Some "E"; Some "C_2(z)"; Some "C_2'"; Some "C_2(x)"], Some "D_2") /\
  kind C2y = Rotation 2 1 (Vector 0 1 0) /\
  is_same_axis (Vector 0 1 0) (Vector 0 1 0) = true /\
  is_same_axis (Vector 0 1 0) (Vector 0 1 1) = false.
Proof. repeat split; vm_compute; reflexivity. Qed.

End ExactPrincipalReflection.

(** ** The inverses found by the closure check *)

Lemma find_ext_eq {A} (p q : A -> bool) (l : list A) :
  (forall x, p x = q x) -> find p l = find q l.
Proof.
  intros H. induction l as [|x t IH]; simpl; [reflexivity|].
  rewrite H, IH. reflexivity.
Qed.

(** ** What the later steps leave alone *)

Section LaterSteps.

Context {C : Collaborator}.

Lemma only_classes_refl s : only_classes s s.
Proof. destruct s. reflexivity. Qed.

Lemma only_classes_trans s1 s2 s3 :
  only_classes s1 s2 -> only_classes s2 s3 -> only_classes s1 s3.
Proof.
  unfold only_classes. intros H1 H2. rewrite H2 at 1. rewrite H1 at 1.
  reflexivity.
Qed.

Lemma only_classes_heap s s' : only_classes s s' -> heap s' = heap s.
Proof. intros ->. reflexivity. Qed.

Lemma only_classes_operations s s' :
  only_classes s s' -> operations s' = operations s.
Proof. intros ->. reflexivity. Qed.

Lemma conjugate_only_classes g op : preserves only_classes (conjugate g op).
Proof.
  intros s r s' H. apply conjugate_state in H. subst.
  apply only_classes_refl.
Qed.

Lemma set_classes_only_classes cls : preserves only_classes (set_classes cls).
Proof. intros s u s' H. inversion H; subst. reflexivity. Qed.

Lemma class_step_only_classes op : preserves only_classes (class_step op).
Proof.
  unfold class_step. pose proof set_classes_only_classes.
  pose proof conjugate_only_classes.
  frame_with only_classes_refl only_classes_trans.
Qed.

Lemma _compute_classes_only_classes : preserves only_classes _compute_classes.
Proof.
  unfold _compute_classes. pose proof class_step_only_classes.
  frame_with only_classes_refl only_classes_trans.
Qed.

Lemma keeps_inverse_refl s : keeps_inverse s s.
Proof. intros r. reflexivity. Qed.

Lemma keeps_inverse_trans s1 s2 s3 :
  keeps_inverse s1 s2 -> keeps_inverse s2 s3 -> keeps_inverse s1 s3.
Proof. intros H1 H2 r. rewrite H2. apply H1. Qed.

Ltac frame_inverse := frame_with keeps_inverse_refl keeps_inverse_trans.

Lemma set_name_inverse r v : preserves keeps_inverse (set_name r v).
Proof.
  intros s u s' H. inversion H; subst. intros r'. simpl. unfold upd.
  destruct (Nat.eqb_spec r' r) as [->|_]; reflexivity.
Qed.

Lemma set_principal_reflection_inverse r :
  preserves keeps_inverse (set_principal_reflection r).
Proof.
  intros s u s' H. inversion H; subst. intros r'. simpl. unfold upd.
  destruct (Nat.eqb_spec r' r) as [->|_]; reflexivity.
Qed.

Lemma identity_element_inverse : preserves keeps_inverse identity_element.
Proof.
  intros s a s' H. unfold identity_element in H.
  destruct (_identity_element s).
  - inversion H; subst. apply keeps_inverse_refl.
  - destruct (find _ _); inversion H; subst. intros r. reflexivity.
Qed.

Lemma set_classes_inverse cls : preserves keeps_inverse (set_classes cls).
Proof. intros s u s' H. inversion H; subst. intros r. reflexivity. Qed.

Lemma set_pg_name_inverse v : preserves keeps_inverse (set_pg_name v).
Proof. intros s u s' H. inversion H; subst. intros r. reflexivity. Qed.

Lemma sort_operations_inverse : preserves keeps_inverse sort_operations.
Proof. intros s u s' H. inversion H; subst. intros r. reflexivity. Qed.

Lemma name_axes_inverse prefix ydir order naxes rotgrp :
  forall i prime_count labels has_paren_label,
    preserves keeps_inverse
      (name_axes prefix ydir order naxes rotgrp i prime_count labels
                 has_paren_label).
Proof.
  pose proof set_name_inverse.
  induction rotgrp as [|rot t IH]; intros; simpl; frame_inverse.
Qed.

Lemma name_reflections_inverse refs :
  forall prime_count has_paren_label,
    preserves keeps_inverse
      (name_reflections refs prime_count has_paren_label).
Proof.
  pose proof set_name_inverse.
  induction refs as [|r t IH]; intros; simpl; frame_inverse.
Qed.

Lemma _name_operations_inverse : preserves keeps_inverse _name_operations.
Proof.
  unfold _name_operations, flag_principal_reflections, flag_if_same_axis,
    name_rotations, name_improper_rotations, name_group, sort_classes.
  pose proof set_name_inverse. pose proof set_principal_reflection_inverse.
  pose proof identity_element_inverse. pose proof set_classes_inverse.
  pose proof sort_operations_inverse. pose proof name_axes_inverse.
  pose proof name_reflections_inverse.
  frame_inverse.
Qed.

Lemma _get_name_inverse : preserves keeps_inverse _get_name.
Proof.
  unfold _get_name, unclassifiable. pose proof set_pg_name_inverse.
  frame_inverse.
Qed.

End LaterSteps.

Section InverseClaim.

Context {C : Collaborator}.

(** The classes can be computed only when every operation that conjugates
    another one has its inverse slot set. *)
Lemma _compute_classes_needs_inverse s u s' g op :
  _compute_classes s = Ok (u, s') ->
  In g (operations s) -> In op (operations s) -> g <> op ->
  inverse (heap s g) <> None.
Proof.
  intros H Hg Hop Hne. unfold _compute_classes in H.
  apply bind_ok in H. destruct H as (s0 & s1 & H0 & H).
  inversion H0; subst s0 s1; clear H0.
  destruct (for_each_ran only_classes_refl only_classes_trans _ _ _ _ _
              (fun x _ => class_step_only_classes x) H op Hop)
    as (t1 & t2 & O1 & B & _).
  unfold class_step in B.
  apply bind_ok in B. destruct B as (t0 & t1' & H0 & B).
  inversion H0; subst t0 t1'; clear H0.
  apply bind_ok in B. destruct B as (k & t3 & Hk & B).
  assert (O3 : only_classes t1 t3).
  { revert Hk.
    match goal with |- ?m _ = _ -> _ =>
      assert (P : preserves only_classes m); [|apply P] end.
    pose proof set_classes_only_classes.
    frame_with only_classes_refl only_classes_trans. }
  rewrite (only_classes_operations _ _ O1) in B.
  assert (Hb : forall x, In x (operations s) ->
             preserves only_classes
               (if Nat.eqb x op then ret tt
                else bind (conjugate x op) (fun y =>
                       bind get (fun s' =>
                         set_classes (add_to_class (heap s') k y
                                                   (classes s')))))).
  { intros x _. pose proof set_classes_only_classes.
    pose proof conjugate_only_classes.
    frame_with only_classes_refl only_classes_trans. }
  destruct (for_each_ran only_classes_refl only_classes_trans _ _ _ _ _
              Hb B g Hg) as (t4 & t5 & O4 & B' & _).
  destruct (Nat.eqb_spec g op) as [E|_]; [contradiction|].
  apply bind_ok in B'. destruct B' as (y & t6 & Hc & _).
  unfold conjugate in Hc.
  apply bind_ok in Hc. destruct Hc as (x & t7 & Hm & Hc).
  apply mul_state in Hm. subst t7. unfold bind, get in Hc.
  pose proof (only_classes_trans _ _ _ O1
                (only_classes_trans _ _ _ O3 O4)) as O.
  rewrite (only_classes_heap _ _ O) in Hc.
  destruct (inverse (heap s g)); [discriminate|discriminate].
Qed.

End InverseClaim.

(** ** Comparisons within a tolerance *)

Section Comparison.

Context {C : Collaborator}.

Variable h : Heap.
Variable ops : list ref.

Lemma compared_In x : compared h ops x -> In x (compared_list h ops).
Proof.
  unfold compared_list. intros [a Ha|a b Ha Hb]; apply in_or_app.
  - left. apply (in_map (fun a => matrix (h a))). exact Ha.
  - right.
    apply (in_map (fun p => matmul (matrix (h (fst p))) (matrix (h (snd p))))
                  _ (a, b)).
    apply in_prod; assumption.
Qed.

Lemma consistentb_sound :
  consistentb h ops = true -> consistent_comparison h ops.
Proof.
  unfold consistentb. rewrite forallb_forall. intros H.
  assert (Hx : forall x, compared h ops x ->
             is_same_matrix x x = true /\
             forall y, compared h ops y -> is_same_matrix x y = true ->
               is_same_matrix y x = true /\
               forall z, compared h ops z -> is_same_matrix y z = true ->
                         is_same_matrix x z = true).
  { intros x Cx. pose proof (H x (compared_In x Cx)) as Hx.
    apply andb_true_iff in Hx. destruct Hx as [Hr Hy].
    split; [exact Hr|]. rewrite forallb_forall in Hy.
    intros y Cy Sxy. pose proof (Hy y (compared_In y Cy)) as Hy'.
    rewrite Sxy in Hy'. simpl in Hy'.
    apply andb_true_iff in Hy'. destruct Hy' as [Hs Hz].
    split; [exact Hs|]. rewrite forallb_forall in Hz.
    intros z Cz Syz. pose proof (Hz z (compared_In z Cz)) as Hz'.
    rewrite Syz in Hz'. exact Hz'. }
  constructor.
  - intros x Cx. exact (proj1 (Hx x Cx)).
  - intros x y Cx Cy S. exact (proj1 (proj2 (Hx x Cx) y Cy S)).
  - intros x y z Cx Cy Cz S1 S2.
    exact (proj2 (proj2 (Hx x Cx) y Cy S1) z Cz S2).
Qed.

Lemma two_sidedb_sound e : two_sidedb h ops e = true -> two_sided h ops e.
Proof.
  unfold two_sidedb, two_sided. rewrite forallb_forall. intros H a b Ha Hb S.
  pose proof (H a Ha) as Ha'. rewrite forallb_forall in Ha'.
  pose proof (Ha' b Hb) as Hab. unfold same in S. rewrite S in Hab.
  exact Hab.
Qed.

End Comparison.

Section InverseLinks.

Context {C : Collaborator}.

Variable h : Heap.
Variable ops : list ref.
Variable e : ref.

Hypothesis identity_of_ops : find (fun r => is_identity (h r)) ops = Some e.
Hypothesis CC : consistent_comparison h ops.

Local Abbreviation m r := (matrix (h r)).
Local Abbreviation I := (matrix (h e)).
Local Abbreviation closure_state := (closure_state h ops e).
Local Abbreviation cs_operations := (cs_operations h ops e).
Local Abbreviation cs_objects := (cs_objects h ops e).
Local Abbreviation cs_identity := (cs_identity h ops e).
Local Abbreviation linked := (linked h ops e).
Local Abbreviation slot_like := (slot_like h).
Local Abbreviation scan := (scan h ops e).
Local Abbreviation compared := (compared h ops).

Lemma identity_in_ops : In e ops.
Proof. apply (find_some _ _ identity_of_ops). Qed.

Lemma same_elements_sym a b :
  In a ops -> In b ops -> same (m a) (m b) -> same (m b) (m a).
Proof.
  intros Ha Hb. apply (consistent_sym _ _ CC); constructor; assumption.
Qed.

Lemma same_elements_trans a b c :
  In a ops -> In b ops -> In c ops ->
  same (m a) (m b) -> same (m b) (m c) -> same (m a) (m c).
Proof.
  intros Ha Hb Hc. apply (consistent_trans _ _ CC); constructor; assumption.
Qed.

Lemma closure_state_op_eq s a b :
  closure_state s -> op_eq (heap s) a b = is_same_matrix (m a) (m b).
Proof.
  intros [_ Ho _]. unfold op_eq.
  destruct (Ho a) as [_ ->], (Ho b) as [_ ->]. reflexivity.
Qed.

Lemma closure_state_identity s r s' :
  closure_state s -> identity_element s = Ok (r, s') ->
  r = e /\ closure_state s' /\ heap s' = heap s.
Proof.
  intros [Hops Ho Hc] H. unfold identity_element in H.
  destruct (_identity_element s) as [c|] eqn:E.
  - inversion H; subst. destruct Hc as [Hc|Hc]; [discriminate|].
    inversion Hc; subst. split; [reflexivity|]. split; [|reflexivity].
    constructor; auto.
  - rewrite (find_ext_eq (fun r => is_identity (heap s r))
                      (fun r => is_identity (h r))) in H.
    + rewrite Hops, identity_of_ops in H. inversion H; subst.
      split; [reflexivity|]. split; [|reflexivity].
      constructor; simpl; auto.
    + intros x. unfold is_identity. destruct (Ho x) as [-> _]. reflexivity.
Qed.

Lemma check_pair_ok x y s u s' :
  closure_state s -> check_pair x y s = Ok (u, s') ->
  closure_state s' /\
  exists p, In p ops /\ same (m p) (matmul (m x) (m y)) /\
    ((same (m p) I /\
      inverse_differs (heap s) x y = false /\
      inverse_differs (heap s) y x = false /\
      relinked x y s s') \/
     (~ same (m p) I /\ heap s' = heap s)).
Proof.
  intros CS H. unfold check_pair in H.
  apply bind_ok in H. destruct H as (p & s1 & M & H).
  apply mul_ok in M. destruct M as (-> & Hp & Hm).
  apply bind_ok in H. destruct H as (i & s2 & Hi & H).
  destruct (closure_state_identity _ _ _ CS Hi) as (-> & CS2 & Hh).
  unfold bind, get in H.
  rewrite (closure_state_op_eq _ _ _ CS2) in H. rewrite Hh in H.
  assert (Hm' : same (m p) (matmul (m x) (m y))).
  { destruct CS as [_ Ho _]. unfold same.
    destruct (Ho p) as [_ <-], (Ho x) as [_ <-], (Ho y) as [_ <-].
    exact Hm. }
  rewrite (cs_operations _ CS) in Hp.
  revert H. destruct (is_same_matrix (m p) (m e)) eqn:Ep; intros H.
  - destruct (inverse_differs (heap s) x y) eqn:D1; [discriminate|].
    destruct (inverse_differs (heap s) y x) eqn:D2; [discriminate|].
    simpl in H. inversion H; subst s'; clear H.
    split.
    + destruct CS2 as [A B D]. constructor; simpl; auto.
      eapply same_objects_trans; [exact B|].
      eapply same_objects_trans; apply same_objects_upd; reflexivity.
    + exists p. repeat split; auto. left. repeat split; auto.
      intros r. simpl. unfold upd. rewrite Hh.
      destruct (Nat.eqb r y); [reflexivity|].
      destruct (Nat.eqb r x); reflexivity.
  - inversion H; subst s'. split; [exact CS2|].
    exists p. repeat split; auto. right. split; [|exact Hh].
    intros Hs. change (is_same_matrix (m p) (m e) = true) in Hs.
    congruence.
Qed.

Lemma inverse_differs_false s x y k :
  closure_state s -> inverse_differs (heap s) x y = false ->
  inverse (heap s x) = Some k -> same (m k) (m y).
Proof.
  intros CS D E. unfold inverse_differs in D. rewrite E in D.
  rewrite (closure_state_op_eq _ _ _ CS) in D.
  apply negb_false_iff in D. exact D.
Qed.

Lemma scan_refl Q s : scan Q s s.
Proof. intros CS L. auto. Qed.

Lemma scan_trans Q s1 s2 s3 : scan Q s1 s2 -> scan Q s2 s3 -> scan Q s1 s3.
Proof.
  intros A1 A2 CS L. destruct (A1 CS L) as (CS2 & L2 & Q2).
  destruct (A2 CS2 L2) as (CS3 & L3 & Q3). auto.
Qed.

Lemma product_is_identity p x y :
  In p ops -> In x ops -> In y ops ->
  same (m p) (matmul (m x) (m y)) -> same (m p) I ->
  same (matmul (m x) (m y)) I.
Proof.
  intros Hp Hx Hy H1 H2. pose proof identity_in_ops as He.
  apply (consistent_trans _ _ CC _ (m p)); try (constructor; assumption).
  - apply (consistent_sym _ _ CC); try (constructor; assumption). exact H1.
  - exact H2.
Qed.

Lemma check_pair_linked x y s u s' :
  In x ops -> In y ops -> closure_state s -> linked s ->
  check_pair x y s = Ok (u, s') -> linked s'.
Proof.
  intros Hx Hy CS L H.
  destruct (check_pair_ok _ _ _ _ _ CS H)
    as (_ & p & Hp & Hm & [(Hi & _ & _ & Hr)|(_ & Hh)]).
  - pose proof (product_is_identity _ _ _ Hp Hx Hy Hm Hi) as Hxy.
    intros a b Ha Hb. rewrite Hr in Hb.
    destruct (Nat.eqb_spec a y) as [->|_].
    { inversion Hb; subst. auto. }
    destruct (Nat.eqb_spec a x) as [->|_].
    { inversion Hb; subst. auto. }
    apply L; assumption.
  - intros a b Ha Hb. rewrite Hh in Hb. apply L; assumption.
Qed.

Lemma check_pair_slot_like a b x y s u s' :
  In a ops -> In b ops -> In x ops -> In y ops ->
  closure_state s -> linked s -> check_pair x y s = Ok (u, s') ->
  slot_like a b s -> slot_like a b s'.
Proof.
  intros Ha Hb Hx Hy CS L H (b' & Hb' & Hs).
  pose proof (proj1 (L a b' Ha Hb')) as Hin.
  destruct (check_pair_ok _ _ _ _ _ CS H)
    as (_ & p & Hp & Hm & [(Hi & D1 & D2 & Hr)|(_ & Hh)]).
  - unfold slot_like. rewrite Hr.
    destruct (Nat.eqb_spec a y) as [->|_].
    { exists x. split; [reflexivity|].
      pose proof (inverse_differs_false _ _ _ _ CS D2 Hb') as Hx'.
      apply (same_elements_trans x b' b); auto.
      apply same_elements_sym; auto. }
    destruct (Nat.eqb_spec a x) as [->|_].
    { exists y. split; [reflexivity|].
      pose proof (inverse_differs_false _ _ _ _ CS D1 Hb') as Hy'.
      apply (same_elements_trans y b' b); auto.
      apply same_elements_sym; auto. }
    exists b'. auto.
  - exists b'. rewrite Hh. auto.
Qed.

Lemma check_pair_scan Q x y :
  In x ops -> In y ops ->
  (forall s u s', closure_state s -> linked s ->
                  check_pair x y s = Ok (u, s') -> Q s -> Q s') ->
  preserves (scan Q) (check_pair x y).
Proof.
  intros Hx Hy HQ s u s' H CS L.
  split; [apply (check_pair_ok _ _ _ _ _ CS H)|].
  split; [apply (check_pair_linked _ _ _ _ _ Hx Hy CS L H)|].
  apply (HQ _ _ _ CS L H).
Qed.

(** The pair [(a, b)] of the scan sets both slots when the product is the
    identity. *)
Lemma check_pair_links a b s u s' :
  In a ops -> In b ops ->
  closure_state s -> check_pair a b s = Ok (u, s') ->
  same (matmul (m a) (m b)) I ->
  slot_like a b s' /\ slot_like b a s'.
Proof.
  intros Ha Hb CS H Hab. pose proof identity_in_ops as He.
  destruct (check_pair_ok _ _ _ _ _ CS H)
    as (_ & p & Hp & Hm & [(Hi & _ & _ & Hr)|(Hn & _)]).
  - unfold slot_like. rewrite !Hr, !Nat.eqb_refl.
    split.
    + destruct (Nat.eqb_spec a b) as [->|_];
        exists b; (split; [reflexivity|]);
        apply (consistent_refl _ _ CC); constructor; assumption.
    + exists a. split; [reflexivity|].
      apply (consistent_refl _ _ CC); constructor; assumption.
  - exfalso. apply Hn.
    apply (consistent_trans _ _ CC _ (matmul (m a) (m b)));
      try (constructor; assumption); assumption.
Qed.

(** The scan, for a property that every pair keeps. *)
Lemma _check_closure_scan Q :
  (forall x y s u s', In x ops -> In y ops -> closure_state s -> linked s ->
                      check_pair x y s = Ok (u, s') -> Q s -> Q s') ->
  (forall iop, In iop ops ->
     preserves (scan Q)
       (bind get (fun s' =>
          for_each (operations s') (fun jop => check_pair iop jop)))).
Proof.
  intros HQ iop Hi t u t' H CS L.
  apply bind_ok in H. destruct H as (t0 & t1 & H0 & H).
  inversion H0; subst t0 t1; clear H0.
  rewrite (cs_operations _ CS) in H.
  pose proof (preserves_for_each (scan_refl Q) (scan_trans Q)
                (fun jop => check_pair iop jop) ops
                (fun jop Hj => check_pair_scan Q iop jop Hi Hj
                                 (fun s u s' => HQ iop jop s u s' Hi Hj)))
    as P.
  exact (P _ _ _ H CS L).
Qed.

Lemma _check_closure_links s u s' :
  closure_state s -> linked s -> _check_closure s = Ok (u, s') ->
  closure_state s' /\ linked s' /\
  forall a b, In a ops -> In b ops -> same (matmul (m a) (m b)) I ->
              slot_like a b s' /\ slot_like b a s'.
Proof.
  intros CS L H. unfold _check_closure in H.
  apply bind_ok in H. destruct H as (s0 & s1 & H0 & H).
  inversion H0; subst s0 s1; clear H0.
  pose proof (cs_operations _ CS) as Hops. rewrite Hops in H.
  assert (P0 : closure_state s' /\ linked s' /\ (True -> True)).
  { pose proof (preserves_for_each (scan_refl (fun _ => True))
                  (scan_trans (fun _ => True)) _ ops
                  (_check_closure_scan (fun _ => True)
                     (fun _ _ _ _ _ _ _ _ _ _ _ => Logic.I))) as P.
    apply (P _ _ _ H CS L). }
  split; [apply P0|]. split; [apply P0|].
  intros a b Ha Hb Hab.
  set (Q := fun t => slot_like a b t /\ slot_like b a t).
  assert (HQ : forall x y t v t', In x ops -> In y ops ->
                 closure_state t -> linked t ->
                 check_pair x y t = Ok (v, t') -> Q t -> Q t').
  { intros x y t v t' Hx Hy CSt Lt Ht [Q1 Q2].
    split; eapply (check_pair_slot_like _ _ x y); eassumption. }
  destruct (for_each_ran (scan_refl Q) (scan_trans Q) _ ops _ _ _
              (_check_closure_scan Q HQ) H a Ha)
    as (t1 & t2 & S1 & B & S2).
  destruct (S1 CS L) as (CS1 & L1 & _).
  apply bind_ok in B. destruct B as (t0 & t1' & H0 & B).
  inversion H0; subst t0 t1'; clear H0.
  rewrite (cs_operations _ CS1) in B.
  destruct (for_each_ran (scan_refl Q) (scan_trans Q) _ ops _ _ _
              (fun jop Hj => check_pair_scan Q a jop Ha Hj
                               (fun s u s' => HQ a jop s u s' Ha Hj))
              B b Hb)
    as (t3 & t4 & S3 & B' & S4).
  destruct (S3 CS1 L1) as (CS3 & L3 & _).
  pose proof (check_pair_links _ _ _ _ _ Ha Hb CS3 B' Hab) as Q4.
  pose proof (check_pair_scan Q a b Ha Hb
                (fun s u s' => HQ a b s u s' Ha Hb) _ _ _ B' CS3 L3)
    as (CS4 & L4 & _).
  destruct (S4 CS4 L4) as (CS2 & L2 & Q2).
  destruct (S2 CS2 L2) as (_ & _ & Q').
  apply Q', Q2, Q4.
Qed.

End InverseLinks.

Section InverseTheorem.

Context {C : Collaborator}.

Lemma inverse_differs_holds_other st x y :
  inverse_differs (heap st) x y = true <-> holds_other st x y.
Proof.
  unfold inverse_differs, holds_other. destruct (inverse (heap st x)) as [k|].
  - rewrite negb_true_iff. split.
    + intros H. exists k. auto.
    + intros (k' & E & H). inversion E; subst. exact H.
  - split; [discriminate|]. intros (k & E & _). discriminate.
Qed.

Lemma identity_element_heap st e st' :
  identity_element st = Ok (e, st') -> heap st' = heap st.
Proof.
  unfold identity_element. destruct (_identity_element st).
  - intros H. inversion H. reflexivity.
  - destruct (find _ _); intros H; inversion H. reflexivity.
Qed.

(** A pair of the scan whose product is the identity element. *)
Lemma check_pair_identity_product st x y p e st' :
  mul x y st = Ok (p, st) ->
  identity_element st = Ok (e, st') ->
  op_eq (heap st) p e = true ->
  (holds_other st x y \/ holds_other st y x ->
   check_pair x y st = Raise (GroupTheoryError NonUniqueInverse)) /\
  (~ holds_other st x y -> ~ holds_other st y x ->
   exists st'', check_pair x y st = Ok (tt, st'') /\
                inverse (heap st'' x) = Some y /\
                inverse (heap st'' y) = Some x).
Proof.
  intros Hm Hi He. pose proof (identity_element_heap _ _ _ Hi) as Hh.
  assert (E : check_pair x y st =
              if inverse_differs (heap st) x y
                 || inverse_differs (heap st) y x
              then Raise (GroupTheoryError NonUniqueInverse)
              else bind (set_inverse x y) (fun _ => set_inverse y x) st').
  { unfold check_pair.
    rewrite (bind_eq_ok _ _ _ _ _ Hm), (bind_eq_ok _ _ _ _ _ Hi).
    unfold bind at 1. unfold get. rewrite Hh, He.
    destruct (_ || _); reflexivity. }
  rewrite E. clear E.
  split.
  - intros H.
    assert (D : inverse_differs (heap st) x y
                || inverse_differs (heap st) y x = true).
    { apply orb_true_iff.
      destruct H as [H|H]; [left|right];
        apply inverse_differs_holds_other; exact H. }
    rewrite D. reflexivity.
  - intros N1 N2.
    destruct (inverse_differs (heap st) x y) eqn:D1.
    { exfalso. apply N1, inverse_differs_holds_other, D1. }
    destruct (inverse_differs (heap st) y x) eqn:D2.
    { exfalso. apply N2, inverse_differs_holds_other, D2. }
    simpl. eexists. split; [reflexivity|]. simpl. unfold upd.
    rewrite Hh, !Nat.eqb_refl.
    destruct (Nat.eqb_spec x y) as [->|_]; split; reflexivity.
Qed.

Lemma new_point_group_closure_state h ops e :
  closure_state h ops e (new_point_group h ops).
Proof. constructor; simpl; auto using same_objects_refl. Qed.

(** The inverses of a constructed group, for operations that a consistent
    comparison tells apart. *)
Lemma constructed_inverses (h : Heap) (ops : list ref) (e : ref)
      (s : State) :
  find (fun r => is_identity (h r)) ops = Some e ->
  fresh_inverses h ops ->
  consistent_comparison h ops ->
  two_sided h ops e ->
  PointGroup_init h ops = Ok s ->
  forall a, In a ops ->
    exists b,
      In b ops /\
      inverse (heap s a) = Some b /\
      same (matmul (matrix (h a)) (matrix (h b))) (matrix (h e)) /\
      (forall b', In b' ops ->
         same (matmul (matrix (h a)) (matrix (h b'))) (matrix (h e)) ->
         same (matrix (h b')) (matrix (h b))) /\
      exists a', inverse (heap s b) = Some a' /\
                 same (matrix (h a')) (matrix (h a)).
Proof.
  intros He Hfresh CC Htwo H.
  destruct (PointGroup_init_ok _ _ _ H) as (s1 & s2 & s3 & E1 & E2 & E3 & E4).
  assert (L0 : linked h ops e (new_point_group h ops)).
  { intros a b Ha Hb. simpl in Hb. rewrite (Hfresh a Ha) in Hb.
    discriminate. }
  destruct (_check_closure_links h ops e He CC _ _ _
              (new_point_group_closure_state h ops e) L0 E1)
    as (CS1 & L1 & Hlinks).
  assert (K : forall r, inverse (heap s r) = inverse (heap s1 r)).
  { intros r.
    rewrite (_get_name_inverse _ _ _ E4 r),
      (_name_operations_inverse _ _ _ E3 r).
    rewrite (only_classes_heap _ _ (_compute_classes_only_classes _ _ _ E2)).
    reflexivity. }
  assert (Hex : forall a, In a ops -> inverse (heap s1 a) <> None).
  { intros a Ha.
    destruct (existsb (fun op => negb (Nat.eqb op a)) ops) eqn:X.
    - apply existsb_exists in X. destruct X as (op & Hop & Hne).
      apply negb_true_iff, Nat.eqb_neq in Hne.
      rewrite <- (cs_operations _ _ _ _ CS1) in Ha, Hop.
      apply (_compute_classes_needs_inverse _ _ _ a op E2 Ha Hop).
      congruence.
    - assert (Hall : forall op, In op ops -> op = a).
      { intros op Hop.
        destruct (Nat.eqb_spec op a) as [E|E]; [exact E|].
        exfalso.
        assert (T : existsb (fun op => negb (Nat.eqb op a)) ops = true).
        { apply existsb_exists. exists op. split; [exact Hop|].
          apply negb_true_iff, Nat.eqb_neq, E. }
        congruence. }
      pose proof (find_some _ _ He) as [Hein _].
      assert (Ee : e = a) by apply (Hall e Hein). subst e.
      destruct (_check_closure_matched _ _ _ E1 a a Ha Ha)
        as (c & Hc & Hm). simpl in Hc, Hm.
      assert (Ec : c = a) by apply (Hall c Hc). subst c.
      destruct (Hlinks a a Ha Ha) as [(b' & Hb' & _) _].
      + apply (consistent_sym _ _ CC); try (constructor; assumption).
        exact Hm.
      + rewrite Hb'. discriminate. }
  intros a Ha.
  destruct (inverse (heap s1 a)) as [b|] eqn:Ea;
    [|exfalso; apply (Hex a Ha); exact Ea].
  destruct (L1 a b Ha Ea) as [Hb Hab].
  assert (Hab' : same (matmul (matrix (h a)) (matrix (h b)))
                      (matrix (h e))).
  { destruct Hab as [Hab|Hba]; [exact Hab|]. apply Htwo; assumption. }
  exists b. split; [exact Hb|]. split; [rewrite K; exact Ea|].
  split; [exact Hab'|]. split.
  - intros b' Hb' Hab''.
    destruct (Hlinks a b' Ha Hb' Hab'') as [(k & Hk & Hs) _].
    rewrite Ea in Hk. inversion Hk; subst k.
    apply (consistent_sym _ _ CC); try (constructor; assumption). exact Hs.
  - destruct (Hlinks a b Ha Hb Hab') as [_ (a' & Ha' & Hs)].
    exists a'. split; [rewrite K; exact Ha'|exact Hs].
Qed.

End InverseTheorem.

(** C4, as amended: a pair of the scan whose product is the identity
    element aborts construction with the "inverse not unique" error when
    an inverse slot of the pair already holds a different operation, and
    otherwise links the two slots to each other.  When the operations
    arrive with empty inverse slots, the comparison within tolerance is an
    equivalence on their matrices and the products of two of them, and
    their inverses on one side are inverses on both, then after
    construction every operation [a] has in its slot an operation [b] with
    [a * b] the identity, any operation with that property equals [b], and
    the slot of [b] holds an operation equal to [a]. *)
Theorem inverses_are_linked :
  (forall (C : Collaborator) (st : State) (x y p i : ref) (st' : State),
     mul x y st = Ok (p, st) ->
     identity_element st = Ok (i, st') ->
     op_eq (heap st) p i = true ->
     (holds_other st x y \/ holds_other st y x ->
      check_pair x y st = Raise (GroupTheoryError NonUniqueInverse)) /\
     (~ holds_other st x y -> ~ holds_other st y x ->
      exists st'', check_pair x y st = Ok (tt, st'') /\
                   inverse (heap st'' x) = Some y /\
                   inverse (heap st'' y) = Some x)) /\
  (forall (C : Collaborator) (h : Heap) (ops : list ref) (e : ref)
          (s : State),
     find (fun r => is_identity (h r)) ops = Some e ->
     fresh_inverses h ops ->
     consistent_comparison h ops ->
     two_sided h ops e ->
     PointGroup_init h ops = Ok s ->
     forall a, In a ops ->
       exists b,
         In b ops /\
         inverse (heap s a) = Some b /\
         same (matmul (matrix (h a)) (matrix (h b))) (matrix (h e)) /\
         (forall b', In b' ops ->
            same (matmul (matrix (h a)) (matrix (h b'))) (matrix (h e)) ->
            same (matrix (h b')) (matrix (h b))) /\
         exists a', inverse (heap s b) = Some a' /\
                    same (matrix (h a')) (matrix (h a))).
Proof.
  split.
  - intros C st x y p i st'. apply check_pair_identity_product.
  - intros C. apply constructed_inverses.
Qed.

(** ** The inverses of groups compared within a tolerance *)

Section ToleranceInverses.

Import Tolerance.
Local Open Scope string_scope.

Lemma tolerance_constructed_ok (l : list (Op Exact.V3 Exact.M3))
      (ops : list ref) :
  ops = seq 0 (List.length l) ->
  succeeds (@PointGroup_init Tolerance.collaborator (Exact.heap_of l) ops)
  = true ->
  @PointGroup_init Tolerance.collaborator (Exact.heap_of l) ops
  = Ok (Tolerance.constructed l).
Proof.
  intros -> H. unfold Tolerance.constructed, Tolerance.point_group.
  destruct (PointGroup_init _ _); [reflexivity|discriminate].
Qed.

Lemma tolerance_C2v_constructed :
  @PointGroup_init Tolerance.collaborator (Exact.heap_of Exact.C2v)
                   [0; 1; 2; 3]%nat
  = Ok (Tolerance.constructed Exact.C2v).
Proof.
  apply tolerance_constructed_ok; [reflexivity|]. vm_compute. reflexivity.
Qed.

(** The group C_2v, compared within the tolerance: its four matrices and
    their products are a tolerance apart or equal, and the slot of the
    rotation holds the rotation. *)
Lemma inverses_are_linked_witness :
  exists b,
    In b [0; 1; 2; 3]%nat /\
    inverse (heap (Tolerance.constructed Exact.C2v) 1%nat) = Some b /\
    @same Tolerance.collaborator
      (matmul (matrix (Exact.heap_of Exact.C2v 1%nat))
              (matrix (Exact.heap_of Exact.C2v b)))
      (matrix (Exact.heap_of Exact.C2v 0%nat)).
Proof.
  assert (F : @fresh_inverses Tolerance.collaborator
                (Exact.heap_of Exact.C2v) [0; 1; 2; 3]%nat).
  { intros r [<-|[<-|[<-|[<-|[]]]]]; reflexivity. }
  assert (K : @consistent_comparison Tolerance.collaborator
                (Exact.heap_of Exact.C2v) [0; 1; 2; 3]%nat).
  { apply consistentb_sound. vm_compute. reflexivity. }
  assert (T : @two_sided Tolerance.collaborator
                (Exact.heap_of Exact.C2v) [0; 1; 2; 3]%nat 0%nat).
  { apply two_sidedb_sound. vm_compute. reflexivity. }
  destruct (proj2 inverses_are_linked Tolerance.collaborator
              (Exact.heap_of Exact.C2v) [0; 1; 2; 3]%nat 0%nat
              (Tolerance.constructed Exact.C2v)
              eq_refl F K T tolerance_C2v_constructed 1%nat)
    as (b & Hb & Hi & Hs & _).
  - simpl. auto.
  - exists b. auto.
Defined.

(** Three operations next to each other: a rotation by one unit of the
    tolerance, the identity and the rotation back.  Each is the same as
    the identity, the two rotations are not the same, every product
    matches an operation, and construction succeeds.  The slot of the
    first rotation then holds the second, whose slot holds the second
    itself: not the first rotation nor an operation equal to it, and the
    product of the second rotation with itself is not the identity
    matrix within the tolerance.  A second construction over the same
    objects finds these slots and ends with "inverse not unique". *)
Lemma inverses_not_linked_within_tolerance :
  Tolerance.names_of (Tolerance.point_group Tolerance.nearly_equal)
  = Ok ([Some "E"; Some "C_1000(z)"; Some "C_1000(z)^999"],
        Some "C_1000") /\
  Tolerance.inverses_of (Tolerance.point_group Tolerance.nearly_equal)
  = Ok [(1, Some 2); (0, Some 2); (2, Some 2)]%nat /\
  @op_eq Tolerance.collaborator (Exact.heap_of Tolerance.nearly_equal)
         2%nat 0%nat = false /\
  Tolerance.mat_near
    (Exact.mat_mul (matrix Tolerance.turn_back) (matrix Tolerance.turn_back))
    (matrix Exact.E) = false /\
  @fresh_inverses Tolerance.collaborator
    (Exact.heap_of Tolerance.nearly_equal) [0; 1; 2]%nat /\
  @two_sidedb Tolerance.collaborator
    (Exact.heap_of Tolerance.nearly_equal) [0; 1; 2]%nat 1%nat = true /\
  @consistentb Tolerance.collaborator
    (Exact.heap_of Tolerance.nearly_equal) [0; 1; 2]%nat = false /\
  exception_of
    (@PointGroup_init Tolerance.collaborator
       (heap (Tolerance.constructed Tolerance.nearly_equal)) [0; 1; 2]%nat)
  = Some (GroupTheoryError NonUniqueInverse).
Proof.
  split; [vm_compute; reflexivity|].
  split; [vm_compute; reflexivity|].
  split; [vm_compute; reflexivity|].
  split; [vm_compute; reflexivity|].
  split; [intros r [<-|[<-|[<-|[]]]]; reflexivity|].
  split; [vm_compute; reflexivity|].
  split; vm_compute; reflexivity.
Qed.

End ToleranceInverses.

(** ** Conjugacy in a group of operations *)

Section Conjugacy.

Context {C : Collaborator}.

Variable h : Heap.
Variable ops : list ref.
Variable e : ref.

Local Abbreviation m r := (matrix (h r)).
Local Abbreviation product := (product h).
Local Abbreviation conjugate_by := (conjugate_by h ops).
Local Abbreviation conjugates := (conjugates h ops).
Local Abbreviation contains := (contains h).
Local Abbreviation class_invariant := (class_invariant h ops).
Local Abbreviation new_class := (new_class h ops).

Hypothesis CC : consistent_comparison h ops.
Hypothesis G : group_of_operations h ops e.

Local Notation "a ~ b" := (same (m a) (m b)) (at level 70).

Ltac cmp :=
  first [ apply compared_operation; assumption
        | apply compared_product; assumption ].

Lemma equal_refl a : In a ops -> a ~ a.
Proof. intros Ha. apply (consistent_refl _ _ CC). cmp. Qed.

Lemma equal_sym a b : In a ops -> In b ops -> a ~ b -> b ~ a.
Proof. intros Ha Hb. apply (consistent_sym _ _ CC); cmp. Qed.

Lemma equal_trans a b c :
  In a ops -> In b ops -> In c ops -> a ~ b -> b ~ c -> a ~ c.
Proof. intros Ha Hb Hc. apply (consistent_trans _ _ CC); cmp. Qed.

Lemma product_fun a b c c' :
  In a ops -> In b ops -> In c ops -> In c' ops ->
  product a b c -> product a b c' -> c ~ c'.
Proof.
  intros Ha Hb Hc Hc' P P'.
  apply (consistent_trans _ _ CC _ (matmul (m a) (m b))); try cmp.
  - exact P.
  - apply (consistent_sym _ _ CC); try cmp. exact P'.
Qed.

Lemma product_ext a b c c' :
  In a ops -> In b ops -> In c ops -> In c' ops ->
  product a b c -> c ~ c' -> product a b c'.
Proof.
  intros Ha Hb Hc Hc' P S. unfold product.
  apply (consistent_trans _ _ CC _ (m c)); try cmp.
  - apply equal_sym; assumption.
  - exact P.
Qed.

Lemma product_congr a a' b b' c :
  In a ops -> In a' ops -> In b ops -> In b' ops -> In c ops ->
  a ~ a' -> b ~ b' -> product a b c -> product a' b' c.
Proof.
  intros Ha Ha' Hb Hb' Hc Sa Sb P. unfold product.
  apply (consistent_trans _ _ CC _ (matmul (m a) (m b))); try cmp.
  - exact P.
  - apply (group_congruent _ _ _ G); assumption.
Qed.

Lemma product_assoc_l a b c ab bc x :
  In a ops -> In b ops -> In c ops -> In ab ops -> In bc ops -> In x ops ->
  product a b ab -> product b c bc -> product ab c x -> product a bc x.
Proof.
  intros Ha Hb Hc Hab Hbc Hx P1 P2 P3. unfold product.
  apply (consistent_trans _ _ CC _ (matmul (m ab) (m c))); try cmp.
  - exact P3.
  - apply (group_associative _ _ _ G a b c); assumption.
Qed.

Lemma product_assoc_r a b c ab bc x :
  In a ops -> In b ops -> In c ops -> In ab ops -> In bc ops -> In x ops ->
  product a b ab -> product b c bc -> product a bc x -> product ab c x.
Proof.
  intros Ha Hb Hc Hab Hbc Hx P1 P2 P3. unfold product.
  apply (consistent_trans _ _ CC _ (matmul (m a) (m bc))); try cmp.
  - exact P3.
  - apply (consistent_sym _ _ CC); try cmp.
    apply (group_associative _ _ _ G a b c); assumption.
Qed.

Lemma product_total a b :
  In a ops -> In b ops -> exists c, In c ops /\ product a b c.
Proof. intros Ha Hb. apply (group_closed _ _ _ G); assumption. Qed.

Lemma inverse_unique a b c :
  In a ops -> In b ops -> In c ops ->
  product a b e -> product c a e -> b ~ c.
Proof.
  intros Ha Hb Hc Pab Pca.
  pose proof (group_identity _ _ _ G) as He.
  assert (P : product c e b).
  { apply (product_assoc_l c a b e e b); auto.
    apply (group_neutral_l _ _ _ G); assumption. }
  apply (product_fun c e b c); auto.
  apply (group_neutral_r _ _ _ G); assumption.
Qed.

Lemma conjugate_by_fun g gi x y y' :
  In g ops -> In gi ops -> In x ops -> In y ops -> In y' ops ->
  conjugate_by g gi x y -> conjugate_by g gi x y' -> y ~ y'.
Proof.
  intros Hg Hgi Hx Hy Hy' (c & Hc & P1 & P2) (c' & Hc' & P1' & P2').
  apply (product_fun c gi y y'); auto.
  apply (product_congr c' c gi gi y'); auto.
  - apply (product_fun g x c' c); auto.
  - apply equal_refl; assumption.
Qed.

Lemma conjugates_same x x' y y' :
  In x ops -> In x' ops -> In y ops -> In y' ops ->
  x ~ x' -> y ~ y' -> conjugates x y -> conjugates x' y'.
Proof.
  intros Hx Hx' Hy Hy' Sx Sy (g & gi & Hg & Hi & c & Hc & P1 & P2).
  destruct (group_inverse _ _ _ G g Hg) as (gi' & Hi' & Hgi & _).
  rewrite Hi in Hi'. inversion Hi'; subst gi'.
  exists g, gi. repeat split; auto. exists c. repeat split; auto.
  - apply (product_congr g g x x' c); auto. apply equal_refl; assumption.
  - apply (product_ext c gi y y'); auto.
Qed.

Lemma conjugates_refl x : In x ops -> conjugates x x.
Proof.
  intros Hx. pose proof (group_identity _ _ _ G) as He.
  destruct (group_inverse _ _ _ G e He) as (ei & Hi & Hei & P1 & _).
  assert (Sei : e ~ ei).
  { apply (product_fun e ei e ei); auto.
    apply (group_neutral_l _ _ _ G); assumption. }
  exists e, ei. repeat split; auto. exists x. repeat split; auto.
  - apply (group_neutral_l _ _ _ G); assumption.
  - apply (product_congr x x e ei x); auto.
    + apply equal_refl; assumption.
    + apply (group_neutral_r _ _ _ G); assumption.
Qed.

Lemma conjugates_sym x y :
  In x ops -> In y ops -> conjugates x y -> conjugates y x.
Proof.
  intros Hx Hy (g & gi & Hg & Hi & c & Hc & P1 & P2).
  pose proof (group_identity _ _ _ G) as He.
  destruct (group_inverse _ _ _ G g Hg) as (gi' & Hi' & Hgi & G1 & G2).
  rewrite Hi in Hi'. inversion Hi'; subst gi'.
  destruct (group_inverse _ _ _ G gi Hgi) as (gii & Hii & Hgii & G3 & G4).
  assert (Sg : gii ~ g).
  { apply (inverse_unique gi gii g); auto. }
  (* gi * c is x *)
  assert (Q1 : product gi c x).
  { apply (product_assoc_l gi g x e c x); auto.
    apply (group_neutral_l _ _ _ G); assumption. }
  destruct (product_total x gi Hx Hgi) as (z & Hz & Pz).
  (* gi * y is z *)
  assert (Q2 : product gi y z).
  { apply (product_assoc_l gi c gi x y z); auto. }
  (* z * gii is x *)
  assert (Q3 : product z gii x).
  { apply (product_assoc_r x gi gii z e x); auto.
    apply (group_neutral_r _ _ _ G); assumption. }
  exists gi, gii. repeat split; auto. exists z. repeat split; auto.
Qed.

Lemma conjugates_trans x y z :
  In x ops -> In y ops -> In z ops ->
  conjugates x y -> conjugates y z -> conjugates x z.
Proof.
  intros Hx Hy Hz (g & gi & Hg & Hi & c1 & Hc1 & P1 & P2)
         (k & ki & Hk & Hki & c2 & Hc2 & P3 & P4).
  pose proof (group_identity _ _ _ G) as He.
  destruct (group_inverse _ _ _ G g Hg) as (gi' & Hi' & Hgi & G1 & G2).
  rewrite Hi in Hi'. inversion Hi'; subst gi'.
  destruct (group_inverse _ _ _ G k Hk) as (ki' & Hki' & Hkiin & K1 & K2).
  rewrite Hki in Hki'. inversion Hki'; subst ki'.
  destruct (product_total k g Hk Hg) as (q & Hq & Pq).
  destruct (group_inverse _ _ _ G q Hq) as (qi & Hqi & Hqiin & Q1 & Q2).
  destruct (product_total gi ki Hgi Hkiin) as (w & Hw & Pw).
  (* g * w is ki, and q * w is e *)
  assert (A1 : product g w ki).
  { apply (product_assoc_l g gi ki e w ki); auto.
    apply (group_neutral_l _ _ _ G); assumption. }
  assert (A2 : product q w e).
  { apply (product_assoc_r k g w q ki e); auto. }
  assert (Sw : w ~ qi).
  { apply (inverse_unique q w qi); auto. }
  (* q * x is k * c1 *)
  destruct (product_total q x Hq Hx) as (c3 & Hc3 & P5).
  assert (A3 : product k c1 c3).
  { apply (product_assoc_l k g x q c1 c3); auto. }
  (* c3 * gi is k * y, that is c2 *)
  destruct (product_total c3 gi Hc3 Hgi) as (d & Hd & Pd).
  assert (A4 : product k y d).
  { apply (product_assoc_l k c1 gi c3 y d); auto. }
  assert (Sd : c2 ~ d).
  { apply (product_fun k y c2 d); auto. }
  (* d * ki is z, hence c3 * w is z *)
  assert (A5 : product d ki z).
  { apply (product_congr c2 d ki ki z); auto. apply equal_refl; assumption. }
  assert (A6 : product c3 w z).
  { apply (product_assoc_l c3 gi ki d w z); auto. }
  exists q, qi. repeat split; auto. exists c3. repeat split; auto.
  apply (product_congr c3 c3 w qi z); auto. apply equal_refl; assumption.
Qed.

Lemma same_conjugates x y : In x ops -> In y ops -> x ~ y -> conjugates x y.
Proof.
  intros Hx Hy S. apply (conjugates_same x x x y); auto.
  - apply equal_refl; assumption.
  - apply conjugates_refl; assumption.
Qed.

Lemma conjugate_of_itself op opi y :
  In op ops -> In y ops -> inverse (h op) = Some opi ->
  conjugate_by op opi op y -> op ~ y.
Proof.
  intros Hop Hy Hi (c & Hc & P1 & P2).
  pose proof (group_identity _ _ _ G) as He.
  destruct (group_inverse _ _ _ G op Hop) as (opi' & Hi' & Hopi & G1 & _).
  rewrite Hi in Hi'. inversion Hi'; subst opi'.
  assert (P : product op e y).
  { apply (product_assoc_l op op opi c e y); auto. }
  apply (product_fun op e op y); auto.
  apply (group_neutral_r _ _ _ G); assumption.
Qed.

(** *** The classes under construction *)

Lemma class_contains_iff cl x :
  class_contains h cl x = true <-> contains cl x.
Proof.
  unfold class_contains, contains. rewrite existsb_exists.
  split; intros (z & Hz & H); exists z; split; auto.
Qed.

Lemma classes_of_In op cls :
  forall n k,
    In k (classes_of h op n cls) <->
    exists cl, nth_error cls (k - n) = Some cl /\ (n <= k)%nat /\
               class_contains h cl op = true.
Proof.
  induction cls as [|c t IH]; intros n k; simpl.
  - split; [intros []|]. intros (cl & H & _). destruct (k - n)%nat;
      discriminate.
  - assert (Ht : In k (classes_of h op (S n) t) <->
                 exists cl, nth_error (c :: t) (k - n) = Some cl /\
                            (S n <= k)%nat /\
                            class_contains h cl op = true).
    { rewrite IH. split; intros (cl & H & Hle & Hc); exists cl;
        (split; [|auto]).
      - replace (k - n)%nat with (S (k - S n)) by lia. exact H.
      - replace (k - n)%nat with (S (k - S n)) in H by lia. exact H. }
    destruct (class_contains h c op) eqn:Ec; simpl; rewrite Ht.
    + split.
      * intros [<-|(cl & H & Hle & Hc)].
        -- exists c. rewrite Nat.sub_diag. auto.
        -- exists cl. repeat split; auto. lia.
      * intros (cl & H & Hle & Hc).
        destruct (Nat.eq_dec n k) as [->|Hne]; [left; reflexivity|].
        right. exists cl. repeat split; auto. lia.
    + split.
      * intros (cl & H & Hle & Hc). exists cl. repeat split; auto. lia.
      * intros (cl & H & Hle & Hc). exists cl. repeat split; auto.
        destruct (Nat.eq_dec n k) as [->|Hne]; [|lia].
        rewrite Nat.sub_diag in H. simpl in H. inversion H; subst.
        congruence.
Qed.

Lemma classes_of_increasing op cls :
  forall n k rest,
    classes_of h op n cls = k :: rest ->
    (n <= k)%nat /\ forall k', In k' rest -> (k < k')%nat.
Proof.
  induction cls as [|c t IH]; intros n k rest; simpl; [discriminate|].
  destruct (class_contains h c op).
  - intros H. inversion H; subst. split; [lia|].
    intros k' Hk'. apply classes_of_In in Hk'.
    destruct Hk' as (_ & _ & Hle & _). lia.
  - intros H. destruct (IH _ _ _ H) as [Hle Hr]. split; [lia|exact Hr].
Qed.

(** An operation is in at most one class. *)
Lemma contains_unique cls k k' cl cl' x :
  class_invariant cls -> In x ops ->
  nth_error cls k = Some cl -> nth_error cls k' = Some cl' ->
  contains cl x -> contains cl' x -> k = k'.
Proof.
  intros Inv Hx Hk Hk' (z & Hz & Hs) (z' & Hz' & Hs').
  assert (Hzo : In z ops).
  { apply (inv_wf _ _ _ Inv cl); [eapply nth_error_In; eassumption|exact Hz]. }
  assert (Hzo' : In z' ops).
  { apply (inv_wf _ _ _ Inv cl');
      [eapply nth_error_In; eassumption|exact Hz']. }
  apply (inv_separated _ _ _ Inv k k' cl cl' z z'); auto.
  apply same_conjugates; auto.
  apply (equal_trans z x z'); auto. apply equal_sym; auto.
Qed.

Lemma classes_of_at_most_one cls op :
  class_invariant cls -> In op ops ->
  classes_of h op 0 cls = [] \/
  exists k cl, classes_of h op 0 cls = [k] /\
               nth_error cls k = Some cl /\ contains cl op.
Proof.
  intros Inv Hop. destruct (classes_of h op 0 cls) as [|k1 [|k2 l]] eqn:E.
  - left. reflexivity.
  - right. assert (H1 : In k1 (classes_of h op 0 cls))
      by (rewrite E; left; reflexivity).
    apply classes_of_In in H1. destruct H1 as (cl & H & _ & Hc).
    rewrite Nat.sub_0_r in H. exists k1, cl. repeat split; auto.
    apply class_contains_iff. exact Hc.
  - exfalso.
    destruct (classes_of_increasing _ _ _ _ _ E) as [_ Hlt].
    pose proof (Hlt k2 (or_introl eq_refl)) as Hk.
    assert (H1 : In k1 (classes_of h op 0 cls))
      by (rewrite E; left; reflexivity).
    assert (H2 : In k2 (classes_of h op 0 cls))
      by (rewrite E; right; left; reflexivity).
    apply classes_of_In in H1, H2.
    destruct H1 as (c1 & N1 & _ & C1), H2 as (c2 & N2 & _ & C2).
    rewrite Nat.sub_0_r in N1, N2.
    apply class_contains_iff in C1, C2.
    pose proof (contains_unique cls k1 k2 c1 c2 op Inv Hop N1 N2 C1 C2). lia.
Qed.

(** *** The products of the loop *)

Lemma find_exists {A} (p : A -> bool) (l : list A) :
  (exists x, In x l /\ p x = true) ->
  exists x, find p l = Some x /\ In x l /\ p x = true.
Proof.
  intros (x & Hx & Hp). destruct (find p l) as [y|] eqn:F.
  - exists y. split; [reflexivity|]. apply (find_some _ _ F).
  - rewrite (find_none _ _ F x Hx) in Hp. discriminate.
Qed.

Lemma mul_total st a b :
  heap st = h -> operations st = ops -> In a ops -> In b ops ->
  exists c, mul a b st = Ok (c, st) /\ In c ops /\ product a b c.
Proof.
  intros Hh Hops Ha Hb. unfold mul, bind, get, element_with_matrix.
  rewrite Hh, Hops.
  destruct (find_exists
              (fun r => is_same_matrix (m r) (matmul (m a) (m b))) ops
              (group_closed _ _ _ G a b Ha Hb)) as (c & F & Hc & Hm).
  rewrite F. exists c. auto.
Qed.

Lemma conjugate_total st g op :
  heap st = h -> operations st = ops -> In g ops -> In op ops ->
  exists y gi,
    conjugate g op st = Ok (y, st) /\ In y ops /\
    inverse (h g) = Some gi /\ conjugate_by g gi op y.
Proof.
  intros Hh Hops Hg Hop.
  destruct (mul_total st g op Hh Hops Hg Hop) as (x & Hx & Hxin & Hxm).
  destruct (group_inverse _ _ _ G g Hg) as (gi & Hi & Hgi & _).
  destruct (mul_total st x gi Hh Hops Hxin Hgi) as (y & Hy & Hyin & Hym).
  exists y, gi. unfold conjugate.
  rewrite (bind_eq_ok _ _ _ _ _ Hx). unfold bind, get. rewrite Hh, Hi.
  repeat split; auto. exists x. auto.
Qed.

(** *** Adding to a class *)

Lemma add_element_contained cl y :
  contains cl y -> add_element h cl y = cl.
Proof.
  intros H. unfold add_element.
  rewrite (proj2 (class_contains_iff cl y) H). reflexivity.
Qed.

Lemma add_to_class_contained cls :
  forall k cl y, nth_error cls k = Some cl -> contains cl y ->
                 add_to_class h k y cls = cls.
Proof.
  induction cls as [|c t IH]; intros [|k] cl y Hn Hc; simpl in *;
    try discriminate.
  - inversion Hn; subst. rewrite (add_element_contained _ _ Hc).
    reflexivity.
  - rewrite (IH _ _ _ Hn Hc). reflexivity.
Qed.

Lemma add_to_class_last cls cl y :
  add_to_class h (List.length cls) y (cls ++ [cl])
  = cls ++ [add_element h cl y].
Proof.
  induction cls as [|c t IH]; simpl; [reflexivity|].
  rewrite IH. reflexivity.
Qed.

Lemma with_classes_same st : with_classes st (classes st) = st.
Proof. destruct st. reflexivity. Qed.

(** The operation is already in a class: the class has its conjugates. *)
Lemma add_conjugates_contained st k cl op l :
  heap st = h -> operations st = ops ->
  class_invariant (classes st) ->
  nth_error (classes st) k = Some cl -> contains cl op -> In op ops ->
  (forall g, In g l -> In g ops) ->
  for_each l (add_conjugate k op) st = Ok (tt, st).
Proof.
  intros Hh Hops Inv Hk Hc Hop.
  induction l as [|g t IH]; intros Hl; simpl; [reflexivity|].
  assert (Hg : add_conjugate k op g st = Ok (tt, st)).
  { unfold add_conjugate. destruct (Nat.eqb g op); [reflexivity|].
    destruct (conjugate_total st g op Hh Hops (Hl g (or_introl eq_refl)) Hop)
      as (y & gi & Hy & Hyin & Hi & Hym).
    rewrite (bind_eq_ok _ _ _ _ _ Hy). unfold bind, get, set_classes.
    rewrite Hh.
    assert (Hcy : contains cl y).
    { destruct Hc as (z & Hz & Hs).
      assert (Hcl : In cl (classes st))
        by (eapply nth_error_In; eassumption).
      assert (Hzo : In z ops) by (apply (inv_wf _ _ _ Inv cl Hcl); exact Hz).
      apply (inv_complete _ _ _ Inv cl z y); auto.
      apply (conjugates_same op z y y); auto.
      - apply equal_sym; auto.
      - apply equal_refl; auto.
      - exists g, gi. repeat split; auto.
        apply (Hl g (or_introl eq_refl)). }
    rewrite (add_to_class_contained _ _ _ _ Hk Hcy), with_classes_same.
    reflexivity. }
  rewrite (bind_eq_ok _ _ _ _ _ Hg). apply IH.
  intros g' Hg'. apply Hl. right. exact Hg'.
Qed.

Lemma add_conjugates_new st cls op l :
  In op ops ->
  forall done el,
    heap st = h -> operations st = ops ->
    (forall g, In g l -> In g ops) ->
    new_class op done el ->
    exists el',
      for_each l (add_conjugate (List.length cls) op)
               (with_classes st (cls ++ [mkClass el]))
      = Ok (tt, with_classes st (cls ++ [mkClass el'])) /\
      new_class op (done ++ l) el'.
Proof.
  intros Hop. induction l as [|g t IH]; intros done el Hh Hops Hl J.
  - exists el. simpl. rewrite app_nil_r. auto.
  - assert (Hg : In g ops) by (apply Hl; left; reflexivity).
    assert (Hstep : exists el1,
               add_conjugate (List.length cls) op g
                             (with_classes st (cls ++ [mkClass el]))
               = Ok (tt, with_classes st (cls ++ [mkClass el1])) /\
               new_class op (done ++ [g]) el1).
    { unfold add_conjugate. destruct (Nat.eqb_spec g op) as [->|Hne].
      - exists el. split; [reflexivity|].
        destruct J as [J1 J2 J3]. constructor; auto.
        intros g' gi y Hg' Hne' Hi Hy Hcj. apply in_app_or in Hg'.
        destruct Hg' as [Hg'|[<-|[]]]; [eauto|contradiction].
      - destruct (conjugate_total (with_classes st (cls ++ [mkClass el]))
                    g op Hh Hops Hg Hop)
          as (y & gi & Hy & Hyin & Hi & Hym).
        destruct (group_inverse _ _ _ G g Hg) as (gi' & Hi' & Hgi & _).
        rewrite Hi in Hi'. inversion Hi'; subst gi'.
        rewrite (bind_eq_ok _ _ _ _ _ Hy). unfold bind, get, set_classes.
        simpl. rewrite Hh, add_to_class_last.
        exists (elements (add_element h (mkClass el) y)).
        split.
        { destruct (add_element h (mkClass el) y). reflexivity. }
        destruct J as [J1 J2 J3].
        unfold add_element.
        destruct (class_contains h (mkClass el) y) eqn:Ec; simpl.
        + constructor; auto.
          intros g' gi' y' Hg' Hne' Hi'' Hy' Hcj. apply in_app_or in Hg'.
          destruct Hg' as [Hg'|[<-|[]]]; [eauto|].
          rewrite Hi in Hi''. inversion Hi''; subst gi'.
          apply class_contains_iff in Ec. destruct Ec as (z & Hz & Hs).
          exists z. split; [exact Hz|]. simpl in Hz.
          apply (equal_trans z y y'); auto.
          * apply (J2 z Hz).
          * apply (conjugate_by_fun g gi op y y'); auto.
        + constructor.
          * apply in_or_app. left. exact J1.
          * intros z Hz. apply in_app_or in Hz.
            destruct Hz as [Hz|[<-|[]]]; [auto|].
            split; [exact Hyin|]. exists g, gi. auto.
          * intros g' gi' y' Hg' Hne' Hi'' Hy' Hcj. apply in_app_or in Hg'.
            destruct Hg' as [Hg'|[<-|[]]].
            -- destruct (J3 g' gi' y' Hg' Hne' Hi'' Hy' Hcj)
                 as (z & Hz & Hs).
               exists z. split; [apply in_or_app; left; exact Hz|exact Hs].
            -- rewrite Hi in Hi''. inversion Hi''; subst gi'.
               exists y. split; [apply in_or_app; right; left; reflexivity|].
               apply (conjugate_by_fun g gi op y y'); auto. }
    destruct Hstep as (el1 & E1 & J1).
    destruct (IH (done ++ [g]) el1 Hh Hops) as (el' & E' & J'); auto.
    { intros g' Hg'. apply Hl. right. exact Hg'. }
    exists el'. simpl. rewrite (bind_eq_ok _ _ _ _ _ E1).
    split; [exact E'|]. rewrite <- app_assoc in J'. exact J'.
Qed.

(** *** A step of the outer loop *)

Lemma nth_error_snoc {A} (l : list A) (x y : A) (k : nat) :
  nth_error (l ++ [x]) k = Some y ->
  nth_error l k = Some y \/ (k = List.length l /\ y = x).
Proof.
  intros H. destruct (Nat.lt_ge_cases k (List.length l)) as [Hlt|Hge].
  - left. rewrite nth_error_app1 in H; assumption.
  - right. rewrite nth_error_app2 in H by assumption.
    destruct (k - List.length l)%nat as [|n] eqn:E; simpl in H.
    + inversion H. split; [lia|reflexivity].
    + destruct n; discriminate.
Qed.

Lemma class_step_eq op :
  class_step op =
  bind get (fun s =>
    bind (match classes_of (heap s) op 0 (classes s) with
          | [] =>
              bind (set_classes (classes s ++ [mkClass [op]]))
                   (fun _ => ret (List.length (classes s)))
          | [k] => ret k
          | _ => raise (GroupTheoryError ClassesNotDisjoint)
          end)
         (fun k => for_each (operations s) (add_conjugate k op))).
Proof. reflexivity. Qed.

Lemma new_class_invariant cls op el :
  class_invariant cls -> In op ops ->
  classes_of h op 0 cls = [] ->
  new_class op ops el ->
  class_invariant (cls ++ [mkClass el]).
Proof.
  intros Inv Hop Hnone [J1 J2 J3].
  assert (Hold : forall k cl z, nth_error cls k = Some cl ->
                   In z (elements cl) -> ~ conjugates z op).
  { intros k cl z Hk Hz Hc.
    assert (Hin : In cl cls) by (eapply nth_error_In; eassumption).
    pose proof (inv_complete _ _ _ Inv cl z op Hin Hz Hop Hc) as Hcont.
    apply class_contains_iff in Hcont.
    assert (Hk' : In k (classes_of h op 0 cls)).
    { apply classes_of_In. exists cl. rewrite Nat.sub_0_r.
      repeat split; auto. lia. }
    rewrite Hnone in Hk'. destruct Hk'. }
  assert (Hwf : forall k cl z, nth_error cls k = Some cl ->
                  In z (elements cl) -> In z ops).
  { intros k cl z Hk Hz.
    apply (inv_wf _ _ _ Inv cl); [eapply nth_error_In; eassumption|exact Hz]. }
  constructor.
  - intros cl Hcl. apply in_app_or in Hcl.
    destruct Hcl as [Hcl|[<-|[]]]; [apply (inv_wf _ _ _ Inv cl Hcl)|].
    simpl. split.
    + intros ->. destruct J1.
    + intros z Hz. apply (J2 z Hz).
  - intros cl z z' Hcl Hz Hz'. apply in_app_or in Hcl.
    destruct Hcl as [Hcl|[<-|[]]];
      [apply (inv_conjugate _ _ _ Inv cl); assumption|].
    simpl in Hz, Hz'.
    destruct (J2 z Hz) as [Hzo Hcz], (J2 z' Hz') as [Hzo' Hcz'].
    apply (conjugates_trans z op z'); auto.
    apply conjugates_sym; auto.
  - intros cl z y Hcl Hz Hy Hc. apply in_app_or in Hcl.
    destruct Hcl as [Hcl|[<-|[]]];
      [apply (inv_complete _ _ _ Inv cl z y); assumption|].
    simpl in Hz. destruct (J2 z Hz) as [Hzo Hcz].
    assert (Hopy : conjugates op y).
    { apply (conjugates_trans op z y); auto. }
    destruct Hopy as (g & gi & Hg & Hi & Hs).
    destruct (Nat.eq_dec g op) as [->|Hne].
    + exists op. split; [exact J1|].
      apply (conjugate_of_itself op gi); assumption.
    + destruct (J3 g gi y Hg Hne Hi Hy Hs) as (z' & Hz' & Hs').
      exists z'. split; [exact Hz'|exact Hs'].
  - intros k k' cl cl' z z' Hk Hk' Hz Hz' Hc.
    apply nth_error_snoc in Hk, Hk'.
    destruct Hk as [Hk|[-> ->]], Hk' as [Hk'|[-> ->]].
    + apply (inv_separated _ _ _ Inv k k' cl cl' z z'); assumption.
    + exfalso. simpl in Hz'. destruct (J2 z' Hz') as [Hzo' Hcz'].
      pose proof (Hwf k cl z Hk Hz) as Hzo.
      apply (Hold k cl z Hk Hz).
      apply (conjugates_trans z z' op); auto.
      apply conjugates_sym; auto.
    + exfalso. simpl in Hz. destruct (J2 z Hz) as [Hzo Hcz].
      pose proof (Hwf k' cl' z' Hk' Hz') as Hzo'.
      apply (Hold k' cl' z' Hk' Hz').
      apply (conjugates_trans z' z op); auto;
        apply conjugates_sym; auto.
    + reflexivity.
Qed.

Lemma class_step_total st cls op :
  heap st = h -> operations st = ops ->
  class_invariant cls -> In op ops ->
  exists cls',
    class_step op (with_classes st cls) = Ok (tt, with_classes st cls') /\
    class_invariant cls' /\
    (exists cl, In cl cls' /\ contains cl op) /\
    (forall cl x, In cl cls -> contains cl x ->
                  exists cl', In cl' cls' /\ contains cl' x).
Proof.
  intros Hh Hops Inv Hop. rewrite class_step_eq.
  unfold bind at 1. unfold get. simpl. rewrite Hh, Hops.
  destruct (classes_of_at_most_one cls op Inv Hop)
    as [Hnone|(k & cl & Hone & Hk & Hc)].
  - rewrite Hnone.
    destruct (add_conjugates_new st cls op ops Hop [] [op] Hh Hops)
      as (el & E & J).
    { auto. }
    { constructor.
      - left. reflexivity.
      - intros z [<-|[]]. split; [exact Hop|apply conjugates_refl; exact Hop].
      - intros g gi y []. }
    simpl in J. exists (cls ++ [mkClass el]).
    split; [|split; [|split]].
    + unfold bind, set_classes, ret. simpl. exact E.
    + apply (new_class_invariant cls op el); assumption.
    + exists (mkClass el). split; [apply in_or_app; right; left; reflexivity|].
      exists op. split; [apply (new_seed _ _ _ _ _ J)|].
      apply equal_refl; exact Hop.
    + intros cl x Hcl Hx. exists cl. split; [|exact Hx].
      apply in_or_app. left. exact Hcl.
  - rewrite Hone. exists cls. split; [|split; [|split]].
    + unfold bind at 1. unfold ret.
      apply (add_conjugates_contained (with_classes st cls) k cl op ops);
        auto.
    + exact Inv.
    + exists cl. split; [eapply nth_error_In; eassumption|exact Hc].
    + intros cl' x Hcl Hx. exists cl'. auto.
Qed.

Lemma class_steps_total st l :
  heap st = h -> operations st = ops ->
  (forall op, In op l -> In op ops) ->
  forall cls,
    class_invariant cls ->
    exists cls',
      for_each l class_step (with_classes st cls)
      = Ok (tt, with_classes st cls') /\
      class_invariant cls' /\
      (forall op, In op l -> exists cl, In cl cls' /\ contains cl op) /\
      (forall cl x, In cl cls -> contains cl x ->
                    exists cl', In cl' cls' /\ contains cl' x).
Proof.
  intros Hh Hops. induction l as [|op t IH]; intros Hl cls Inv.
  - exists cls. simpl. split; [reflexivity|]. split; [exact Inv|]. split.
    + intros op [].
    + intros cl x Hcl Hx. exists cl. auto.
  - destruct (class_step_total st cls op Hh Hops Inv
                (Hl op (or_introl eq_refl)))
      as (cls1 & E1 & Inv1 & Hcov1 & Hkeep1).
    destruct (IH (fun x Hx => Hl x (or_intror Hx)) cls1 Inv1)
      as (cls' & E' & Inv' & Hcov' & Hkeep').
    exists cls'. simpl. rewrite (bind_eq_ok _ _ _ _ _ E1).
    split; [exact E'|]. split; [exact Inv'|]. split.
    + intros x [Ex|Hx]; [subst x|apply Hcov'; exact Hx].
      destruct Hcov1 as (cl & Hcl & Hc). apply (Hkeep' cl op Hcl Hc).
    + intros cl x Hcl Hx.
      destruct (Hkeep1 cl x Hcl Hx) as (cl1 & Hcl1 & Hx1).
      apply (Hkeep' cl1 x Hcl1 Hx1).
Qed.

End Conjugacy.

Section GroupTest.

Context {C : Collaborator}.

Variable h : Heap.
Variable ops : list ref.
Variable e : ref.

Lemma memb_In x : memb ops x = true -> In x ops.
Proof.
  unfold memb. rewrite existsb_exists. intros (y & Hy & E).
  apply Nat.eqb_eq in E. subst. exact Hy.
Qed.

Lemma groupb_sound : groupb h ops e = true -> group_of_operations h ops e.
Proof.
  unfold groupb. rewrite !andb_true_iff, !forallb_forall.
  intros (((((He & Hn) & Hc) & Hi) & Hg) & Ha).
  constructor.
  - apply memb_In. exact He.
  - intros a Ha'. pose proof (Hn a Ha') as H.
    apply andb_true_iff in H. apply H.
  - intros a Ha'. pose proof (Hn a Ha') as H.
    apply andb_true_iff in H. apply H.
  - intros a b Ha' Hb'. pose proof (Hc a Ha') as H.
    rewrite forallb_forall in H. pose proof (H b Hb') as H'.
    apply existsb_exists in H'. destruct H' as (c & Hc' & P).
    exists c. split; [exact Hc'|exact P].
  - intros g Hg'. pose proof (Hi g Hg') as H.
    destruct (inverse (h g)) as [gi|]; [|discriminate].
    rewrite !andb_true_iff in H. destruct H as [[H1 H2] H3].
    exists gi. split; [reflexivity|]. split; [apply memb_In; exact H1|].
    split; assumption.
  - intros a a' b b' Ha1 Ha2 Hb1 Hb2 Sa Sb.
    pose proof (Hg a Ha1) as H. rewrite forallb_forall in H.
    pose proof (H a' Ha2) as H'. unfold same in Sa. rewrite Sa in H'.
    simpl in H'. rewrite forallb_forall in H'.
    pose proof (H' b Hb1) as H''. rewrite forallb_forall in H''.
    pose proof (H'' b' Hb2) as H3. unfold same in Sb. rewrite Sb in H3.
    exact H3.
  - intros a b c ab bc Ha1 Hb1 Hc1 Hab Hbc P1 P2.
    pose proof (Ha a Ha1) as H. rewrite forallb_forall in H.
    pose proof (H b Hb1) as H'. rewrite forallb_forall in H'.
    pose proof (H' ab Hab) as H''. unfold productb in H''.
    unfold product, same in P1. rewrite P1 in H''. simpl in H''.
    rewrite forallb_forall in H''.
    pose proof (H'' c Hc1) as H3. rewrite forallb_forall in H3.
    pose proof (H3 bc Hbc) as H4. unfold productb in H4.
    unfold product, same in P2. rewrite P2 in H4. exact H4.
Qed.

End GroupTest.

(** ** The classes partition the operations *)

Section Partition.

Context {C : Collaborator}.

Lemma class_step_not_disjoint st op k k' cl cl' :
  k <> k' ->
  nth_error (classes st) k = Some cl ->
  nth_error (classes st) k' = Some cl' ->
  class_contains (heap st) cl op = true ->
  class_contains (heap st) cl' op = true ->
  class_step op st = Raise (GroupTheoryError ClassesNotDisjoint).
Proof.
  intros Hne Hk Hk' Hc Hc'.
  assert (H1 : In k (classes_of (heap st) op 0 (classes st))).
  { apply classes_of_In. exists cl. rewrite Nat.sub_0_r.
    repeat split; auto. lia. }
  assert (H2 : In k' (classes_of (heap st) op 0 (classes st))).
  { apply classes_of_In. exists cl'. rewrite Nat.sub_0_r.
    repeat split; auto. lia. }
  unfold class_step, bind at 1, get.
  destruct (classes_of (heap st) op 0 (classes st)) as [|k1 [|k2 l]].
  - destruct H1.
  - exfalso. destruct H1 as [<-|[]], H2 as [<-|[]]. apply Hne. reflexivity.
  - reflexivity.
Qed.

Lemma classes_of_group (s : State) (e : ref) :
  consistent_comparison (heap s) (operations s) ->
  group_of_operations (heap s) (operations s) e ->
  classes s = [] ->
  exists cls,
    _compute_classes s = Ok (tt, with_classes s cls) /\
    partition (heap s) (operations s) cls.
Proof.
  intros CC G Hnil.
  assert (Inv0 : class_invariant (heap s) (operations s) []).
  { constructor.
    - intros cl [].
    - intros cl z z' [].
    - intros cl z y [].
    - intros k k' cl cl' z z' Hk. destruct k; discriminate. }
  destruct (class_steps_total (heap s) (operations s) e CC G s (operations s)
              eq_refl eq_refl (fun op H => H) [] Inv0)
    as (cls & E & Inv & Hcov & _).
  exists cls. split.
  - unfold _compute_classes, bind, get.
    rewrite <- Hnil in E. rewrite with_classes_same in E. exact E.
  - constructor.
    + intros cl Hcl. apply (inv_wf _ _ _ Inv cl Hcl).
    + intros cl z Hcl Hz. apply (inv_wf _ _ _ Inv cl Hcl). exact Hz.
    + intros op Hop. destruct (Hcov op Hop) as (cl & Hcl & Hc).
      exists cl. split; [exact Hcl|]. apply class_contains_iff. exact Hc.
    + intros k k' cl cl' x Hx Hk Hk' Hc Hc'.
      apply class_contains_iff in Hc, Hc'.
      apply (contains_unique (heap s) (operations s) e CC G cls k k' cl cl' x);
        assumption.
Qed.

End Partition.

(** C5, as amended: when the operations are a group (closed, with a
    neutral identity and two-sided inverses in the inverse slots) and the
    comparison within tolerance is an equivalence on their matrices and
    the products of two of them, which the products respect and are
    associative up to, the conjugacy classes computed partition the
    operations: no class is empty, the classes are made of operations of
    the group, and every operation is in exactly one class.  A step that
    finds its operation in two classes raises the "classes not disjoint"
    error. *)
Theorem classes_partition_operations :
  (forall (C : Collaborator) (s : State) (e : ref),
     consistent_comparison (heap s) (operations s) ->
     group_of_operations (heap s) (operations s) e ->
     classes s = [] ->
     exists cls,
       _compute_classes s = Ok (tt, with_classes s cls) /\
       partition (heap s) (operations s) cls) /\
  (forall (C : Collaborator) (st : State) (op : ref) (k k' : nat)
          (cl cl' : ConjugacyClass),
     k <> k' ->
     nth_error (classes st) k = Some cl ->
     nth_error (classes st) k' = Some cl' ->
     class_contains (heap st) cl op = true ->
     class_contains (heap st) cl' op = true ->
     class_step op st = Raise (GroupTheoryError ClassesNotDisjoint)).
Proof.
  split.
  - intros C. apply classes_of_group.
  - intros C. apply class_step_not_disjoint.
Qed.

(** ** The classes of groups compared within a tolerance *)

Section ToleranceClasses.

Import Tolerance.

(** The group C_2v after the closure check, compared within the
    tolerance: its classes are a partition. *)
Lemma classes_partition_operations_witness :
  exists cls,
    _compute_classes (Tolerance.closure_checked Exact.C2v)
    = Ok (tt, with_classes (Tolerance.closure_checked Exact.C2v) cls) /\
    partition (heap (Tolerance.closure_checked Exact.C2v))
              (operations (Tolerance.closure_checked Exact.C2v)) cls.
Proof.
  apply (proj1 classes_partition_operations Tolerance.collaborator
               (Tolerance.closure_checked Exact.C2v) 0%nat).
  - apply consistentb_sound. vm_compute. reflexivity.
  - apply groupb_sound. vm_compute. reflexivity.
  - vm_compute. reflexivity.
Defined.

(** The three operations next to each other: every product matches an
    operation and the closure check passes, the classes are computed
    without an error, and the first rotation is a member of two classes;
    the second rotation, which started the second class, is in that class
    only.  The comparison is not an equivalence on these operations. *)
Lemma classes_overlap_within_tolerance :
  forallb (fun p => negb (unmatchedb (Exact.heap_of Tolerance.nearly_equal)
                                     [0; 1; 2]%nat p))
          (list_prod [0; 1; 2]%nat [0; 1; 2]%nat) = true /\
  succeeds (@_check_closure Tolerance.collaborator
              (new_point_group (Exact.heap_of Tolerance.nearly_equal)
                               [0; 1; 2]%nat)) = true /\
  Tolerance.classified Tolerance.nearly_equal
  = Ok [[0]; [2; 0]]%nat /\
  succeeds (Tolerance.point_group Tolerance.nearly_equal) = true /\
  map elements (classes (Tolerance.constructed Tolerance.nearly_equal))
  = [[0]; [2; 0]]%nat /\
  consistentb (Exact.heap_of Tolerance.nearly_equal) [0; 1; 2]%nat = false.
Proof. repeat split; vm_compute; reflexivity. Qed.

End ToleranceClasses.

(** ** The exact comparison *)

Section ExactLaws.

Import Exact.
Local Open Scope Z_scope.

Lemma v3_eqb_eq (u v : V3) : v3_eqb u v = true <-> u = v.
Proof.
  destruct u as [[a b] c], v as [[x y] z]. unfold v3_eqb.
  rewrite !andb_true_iff, !Z.eqb_eq. split.
  - intros [[-> ->] ->]. reflexivity.
  - intros H. inversion H. auto.
Qed.

Lemma mat_eqb_eq (m p : M3) : mat_eqb m p = true <-> m = p.
Proof.
  destruct m as [[r0 r1] r2], p as [[q0 q1] q2]. unfold mat_eqb.
  rewrite !andb_true_iff, !v3_eqb_eq. split.
  - intros [[-> ->] ->]. reflexivity.
  - intros H. inversion H. auto.
Qed.

End ExactLaws.

(** ** The claims on groups of the exact collaborator *)

Section ExactWitnesses.

Import Exact.
Local Open Scope string_scope.

(** The operations C4 and C2 about the z axis, without an identity: the
    product of C4 and C2 matches neither, and construction ends with the
    "missing identity" error, not with "group not closed". *)
Lemma missing_identity_before_not_closed :
  unmatched (heap_of [C4z; C2z]) [0; 1]%nat 0%nat 1%nat /\
  point_group [C4z; C2z] = Raise (GroupTheoryError MissingIdentity) /\
  point_group [C4z; C2z] <> Raise (GroupTheoryError GroupNotClosed).
Proof.
  assert (H : point_group [C4z; C2z]
              = Raise (GroupTheoryError MissingIdentity))
    by (vm_compute; reflexivity).
  split; [|split].
  - intros c [<-|[<-|[]]]; vm_compute; reflexivity.
  - exact H.
  - rewrite H. discriminate.
Qed.

Lemma construction_keeps_operations_witness :
  Permutation (operations (constructed C2v)) [0; 1; 2; 3]%nat.
Proof.
  assert (H : @PointGroup_init collaborator (heap_of C2v) [0; 1; 2; 3]%nat
              = Ok (constructed C2v)) by (vm_compute; reflexivity).
  exact (proj1 (@construction_keeps_operations collaborator (heap_of C2v)
                  [0; 1; 2; 3]%nat (constructed C2v) H)).
Defined.

Lemma lookups_raise_without_match_witness :
  element_for 2%nat
    (@new_point_group collaborator (heap_of [E; C2z; C2y]) [0; 1]%nat)
  = Raise (GroupTheoryError OperationNotFound).
Proof.
  apply (@lookups_raise_without_match collaborator
           (@new_point_group collaborator (heap_of [E; C2z; C2y]) [0; 1]%nat)
           2%nat (diag 1 1 1)).
  - intros m. apply mat_eqb_eq. reflexivity.
  - reflexivity.
  - intros r [<-|[<-|[]]]; vm_compute; reflexivity.
Defined.

End ExactWitnesses.

(** ** The special methods *)

Section Printing.

Context {C : Collaborator}.

Lemma _get_name_sets_name s u s' :
  _get_name s = Ok (u, s') -> exists v, pg_name s' = Some v.
Proof.
  unfold _get_name, bind, get, unclassifiable, raise, set_pg_name.
  repeat match goal with
         | |- context [if ?b then _ else _] => destruct b
         | |- context [match ?x with _ => _ end] => destruct x
         end;
    intros H; inversion H; simpl; eauto.
Qed.

Local Open Scope string_scope.

(** The special methods of a constructed group: it has a name, which
    [__str__] answers and [__repr__] quotes; its length is the number of
    operations given to the constructor and it iterates over them, in the
    order of the group.  A group without a name cannot be printed. *)
Theorem constructed_group_prints (h : Heap) (ops : list ref) (s : State) :
  PointGroup_init h ops = Ok s ->
  (exists v, __str__ s = Some v /\
             __repr__ s = Ok ("<PointGroup named '" ++ v ++ "'>")) /\
  __len__ s = List.length ops /\
  Permutation (__iter__ s) ops /\
  __repr__ (new_point_group h ops) = Raise TypeError.
Proof.
  intros H.
  destruct (PointGroup_init_ok _ _ _ H) as (s1 & s2 & s3 & _ & _ & _ & E4).
  pose proof (PointGroup_init_permuted _ _ _ H) as [Pp _ _]. simpl in Pp.
  split; [|split; [|split]].
  - destruct (_get_name_sets_name _ _ _ E4) as (v & Hv).
    exists v. unfold __str__, __repr__. rewrite Hv. auto.
  - unfold __len__. apply Permutation_length. exact Pp.
  - exact Pp.
  - reflexivity.
Qed.

End Printing.

(** ** Groups without an identity *)

Section MissingIdentity.

Context {C : Collaborator}.

Lemma find_none_all {A} (p : A -> bool) (l : list A) :
  (forall x, In x l -> p x = false) -> find p l = None.
Proof.
  induction l as [|x t IH]; simpl; intros H; [reflexivity|].
  rewrite (H x (or_introl eq_refl)). apply IH. auto.
Qed.

(** A list of operations without an [IdentityOperation] makes no group:
    construction raises "missing identity", at the first pair of the
    closure check, and for the empty list when the operations are named;
    unless the square of the first operation matches no operation, which is
    the "group not closed" error. *)
Theorem construction_without_identity_fails (h : Heap) (ops : list ref) :
  (forall r, In r ops -> is_identity (h r) = false) ->
  exists msg,
    PointGroup_init h ops = Raise (GroupTheoryError msg) /\
    (msg = MissingIdentity /\
     (forall a, hd_error ops = Some a -> matched h ops a a) \/
     msg = GroupNotClosed /\
     exists a, hd_error ops = Some a /\ unmatched h ops a a).
Proof.
  intros Hno. destruct ops as [|a t].
  - exists MissingIdentity. split; [reflexivity|].
    left. split; [reflexivity|]. intros a Ha. discriminate.
  - unfold PointGroup_init.
    destruct (mul a a (new_point_group h (a :: t))) as [[p s1]|e] eqn:M.
    + exists MissingIdentity. split.
      * assert (E : _check_closure (new_point_group h (a :: t))
                    = Raise (GroupTheoryError MissingIdentity)).
        { unfold _check_closure, bind at 1, get.
          cbn [operations new_point_group for_each].
          unfold bind at 1. unfold bind at 1, get.
          cbn [operations new_point_group for_each].
          unfold bind at 1. unfold check_pair. unfold bind at 1.
          rewrite M. apply mul_state in M. subst s1.
          unfold bind at 1, identity_element.
          cbn [_identity_element new_point_group operations heap].
          rewrite (find_none_all _ _ Hno). reflexivity. }
        rewrite (bind_eq_raise _ _ _ _ E). reflexivity.
      * left. split; [reflexivity|]. intros a' Ha. inversion Ha; subst a'.
        apply mul_ok in M. destruct M as (_ & Hp & Hm).
        exists p. split; assumption.
    + exists GroupNotClosed. apply mul_raise in M as M'. destruct M' as [-> U].
      split.
      * assert (E : _check_closure (new_point_group h (a :: t))
                    = Raise (GroupTheoryError GroupNotClosed)).
        { unfold _check_closure, bind at 1, get.
          cbn [operations new_point_group for_each].
          unfold bind at 1. unfold bind at 1, get.
          cbn [operations new_point_group for_each].
          unfold bind at 1. unfold check_pair. unfold bind at 1.
          rewrite M. reflexivity. }
        rewrite (bind_eq_raise _ _ _ _ E). reflexivity.
      * right. split; [reflexivity|]. exists a. split; [reflexivity|].
        exact U.
Qed.

End MissingIdentity.

(** ** The canonical element of an operation *)

Section Canonical.

Context {C : Collaborator}.

Lemma find_app {A} (p : A -> bool) (l l' : list A) :
  find p (l ++ l')%list
  = match find p l with Some x => Some x | None => find p l' end.
Proof.
  induction l as [|x t IH]; simpl; [reflexivity|].
  destruct (p x); [reflexivity|exact IH].
Qed.

(** The element [element_for] answers is its own canonical element: asked
    for it again, in the state the first call left, the method answers the
    same element and changes nothing; in self-extension mode this holds of
    an operation that was appended as well.  The comparison of the
    operations is taken to be transitive. *)
Theorem element_for_answers_canonical (s : State) (op r : ref) (s' : State) :
  (forall a b c, op_eq (heap s) a b = true -> op_eq (heap s) b c = true ->
                 op_eq (heap s) a c = true) ->
  element_for op s = Ok (r, s') ->
  element_for r s' = Ok (r, s').
Proof.
  intros Htrans H. unfold element_for in H.
  destruct (list_index (heap s) (operations s) op) as [x|] eqn:F.
  - inversion H; subst x s'; clear H.
    unfold list_index in F.
    destruct (find_first _ _ _ F) as (before & after & E & Pr & Hb).
    assert (F' : list_index (heap s) (operations s) r = Some r).
    { unfold list_index. rewrite E. apply first_find.
      - rewrite Nat.eqb_refl. reflexivity.
      - intros x Hx. pose proof (Hb x Hx) as Hn.
        apply orb_false_iff in Hn. destruct Hn as [Hn1 Hn2].
        apply orb_false_iff. split.
        + apply Nat.eqb_neq. intros Hxr. subst x.
          rewrite Hn1, Hn2 in Pr. discriminate.
        + destruct (op_eq (heap s) x r) eqn:Exr; [|reflexivity].
          apply orb_true_iff in Pr. destruct Pr as [Pr|Pr].
          * apply Nat.eqb_eq in Pr. subst r. congruence.
          * rewrite (Htrans _ _ _ Exr Pr) in Hn2. discriminate. }
    unfold element_for. rewrite F'. reflexivity.
  - destruct (_generate_elements s) eqn:G; [|discriminate].
    inversion H; subst r s'; clear H.
    unfold element_for. cbn [heap operations].
    unfold list_index in *. rewrite find_app, F. simpl.
    rewrite Nat.eqb_refl. reflexivity.
Qed.

End Canonical.

(** ** The classes after the operations are named *)

Section ClassesKept.

Context {C : Collaborator}.

Lemma classes_permuted_refl s : classes_permuted s s.
Proof. apply Permutation_refl. Qed.

Lemma classes_permuted_trans s1 s2 s3 :
  classes_permuted s1 s2 -> classes_permuted s2 s3 -> classes_permuted s1 s3.
Proof.
  unfold classes_permuted. intros H1 H2.
  eapply Permutation_trans; eassumption.
Qed.

Ltac frame_classes :=
  frame_with classes_permuted_refl classes_permuted_trans.

Lemma set_name_classes r v : preserves classes_permuted (set_name r v).
Proof. intros s u s' H. inversion H; subst. apply Permutation_refl. Qed.

Lemma set_principal_reflection_classes r :
  preserves classes_permuted (set_principal_reflection r).
Proof. intros s u s' H. inversion H; subst. apply Permutation_refl. Qed.

Lemma set_pg_name_classes v : preserves classes_permuted (set_pg_name v).
Proof. intros s u s' H. inversion H; subst. apply Permutation_refl. Qed.

Lemma sort_operations_classes : preserves classes_permuted sort_operations.
Proof. intros s u s' H. inversion H; subst. apply Permutation_refl. Qed.

Lemma identity_element_classes : preserves classes_permuted identity_element.
Proof.
  intros s a s' H. unfold identity_element in H.
  destruct (_identity_element s).
  - inversion H; subst. apply Permutation_refl.
  - destruct (find _ _); inversion H; subst. apply Permutation_refl.
Qed.

Lemma sort_classes_classes : preserves classes_permuted sort_classes.
Proof.
  intros s u s' H. unfold sort_classes, bind, get, set_classes in H.
  inversion H; subst. unfold classes_permuted. simpl. apply sort_by_perm.
Qed.

Lemma name_axes_classes prefix ydir order naxes rotgrp :
  forall i prime_count labels has_paren_label,
    preserves classes_permuted
      (name_axes prefix ydir order naxes rotgrp i prime_count labels
                 has_paren_label).
Proof.
  pose proof set_name_classes.
  induction rotgrp as [|rot t IH]; intros; simpl; frame_classes; auto.
Qed.

Lemma name_reflections_classes refs :
  forall prime_count has_paren_label,
    preserves classes_permuted
      (name_reflections refs prime_count has_paren_label).
Proof.
  pose proof set_name_classes.
  induction refs as [|r t IH]; intros; simpl; frame_classes; auto.
Qed.

Lemma _name_operations_classes : preserves classes_permuted _name_operations.
Proof.
  unfold _name_operations, flag_principal_reflections, flag_if_same_axis,
    name_rotations, name_improper_rotations, name_group.
  pose proof set_name_classes. pose proof set_principal_reflection_classes.
  pose proof sort_operations_classes. pose proof identity_element_classes.
  pose proof sort_classes_classes. pose proof name_axes_classes.
  pose proof name_reflections_classes.
  frame_classes; auto.
Qed.

Lemma _get_name_classes : preserves classes_permuted _get_name.
Proof.
  unfold _get_name, unclassifiable. pose proof set_pg_name_classes.
  frame_classes; auto.
Qed.

(** The classes of a constructed group are the classes that
    [_compute_classes] made of the operations given, in another order:
    naming the operations and the group sorts the list of classes and
    neither adds, removes nor changes a class. *)
Theorem naming_reorders_classes (h : Heap) (ops : list ref) (s : State) :
  PointGroup_init h ops = Ok s ->
  exists s1 s2,
    _check_closure (new_point_group h ops) = Ok (tt, s1) /\
    _compute_classes s1 = Ok (tt, s2) /\
    Permutation (classes s) (classes s2).
Proof.
  intros H.
  destruct (PointGroup_init_ok _ _ _ H) as (s1 & s2 & s3 & E1 & E2 & E3 & E4).
  exists s1, s2. split; [exact E1|]. split; [exact E2|].
  eapply Permutation_trans.
  - apply (_get_name_classes _ _ _ E4).
  - apply (_name_operations_classes _ _ _ E3).
Qed.

End ClassesKept.

(** ** The special methods and the lookups on the group C_2v *)

Section ExactSpecialMethods.

Import Exact.
Local Open Scope string_scope.

Lemma constructed_ok (l : list (Op V3 M3)) (ops : list ref) :
  ops = seq 0 (List.length l) ->
  succeeds (PointGroup_init (heap_of l) ops) = true ->
  PointGroup_init (heap_of l) ops = Ok (constructed l).
Proof.
  intros ->. unfold constructed, point_group.
  destruct (PointGroup_init _ _); [reflexivity|discriminate].
Qed.

Lemma C2v_constructed :
  @PointGroup_init collaborator (heap_of C2v) [0; 1; 2; 3]%nat
  = Ok (constructed C2v).
Proof. apply constructed_ok; [reflexivity|]. vm_compute. reflexivity. Qed.

Lemma tetrahedral_constructed :
  @PointGroup_init collaborator (heap_of tetrahedral_rotations) (seq 0 12)
  = Ok (constructed tetrahedral_rotations).
Proof. apply constructed_ok; [reflexivity|]. vm_compute. reflexivity. Qed.

Lemma constructed_group_prints_witness :
  __len__ (constructed C2v) = 4%nat /\
  exists v, __str__ (constructed C2v) = Some v /\
            __repr__ (constructed C2v) = Ok ("<PointGroup named '" ++ v ++ "'>").
Proof.
  pose proof (@constructed_group_prints collaborator (heap_of C2v)
                [0; 1; 2; 3]%nat (constructed C2v) C2v_constructed)
    as (Hv & Hl & _).
  split; [exact Hl|exact Hv].
Defined.

Lemma construction_without_identity_fails_witness :
  exists msg,
    point_group [C4z; C2z] = Raise (GroupTheoryError msg) /\
    (msg = MissingIdentity /\
     (forall a, hd_error [0; 1]%nat = Some a ->
                matched (heap_of [C4z; C2z]) [0; 1]%nat a a) \/
     msg = GroupNotClosed /\
     exists a, hd_error [0; 1]%nat = Some a /\
               unmatched (heap_of [C4z; C2z]) [0; 1]%nat a a).
Proof.
  apply (@construction_without_identity_fails collaborator
           (heap_of [C4z; C2z]) [0; 1]%nat).
  intros r [<-|[<-|[]]]; reflexivity.
Defined.

Lemma element_for_answers_canonical_witness :
  element_for 0%nat
    (@new_point_group collaborator (heap_of [E; C2z; E]) [0; 1]%nat)
  = Ok (0%nat, @new_point_group collaborator (heap_of [E; C2z; E]) [0; 1]%nat).
Proof.
  apply (@element_for_answers_canonical collaborator
           (@new_point_group collaborator (heap_of [E; C2z; E]) [0; 1]%nat)
           2%nat 0%nat).
  - intros a b c Hab Hbc. unfold op_eq in *.
    apply mat_eqb_eq in Hab. apply mat_eqb_eq in Hbc. apply mat_eqb_eq.
    congruence.
  - reflexivity.
Defined.

Lemma naming_reorders_classes_witness :
  exists s1 s2,
    _check_closure (@new_point_group collaborator (heap_of C2v)
                                     [0; 1; 2; 3]%nat) = Ok (tt, s1) /\
    _compute_classes s1 = Ok (tt, s2) /\
    Permutation (classes (constructed C2v)) (classes s2).
Proof.
  exact (@naming_reorders_classes collaborator (heap_of C2v)
           [0; 1; 2; 3]%nat (constructed C2v) C2v_constructed).
Defined.

End ExactSpecialMethods.

(** ** Grouping *)

Section Grouping.

Context {A : Type} (k : A -> A -> bool).

Lemma groupby_nonempty l g : In g (groupby k l) -> g <> [].
Proof.
  revert g. induction l as [|x t IH]; simpl; intros g; [intros []|].
  destruct (groupby k t) as [|[|y g'] gs].
  - intros [<-|[]]. discriminate.
  - intros [<-|[]]. discriminate.
  - destruct (k x y).
    + intros [<-|H]; [discriminate|]. apply IH. right. exact H.
    + intros [<-|H]; [discriminate|]. apply IH. exact H.
Qed.

Lemma groupby_concat l : List.concat (groupby k l) = l.
Proof.
  induction l as [|x t IH]; simpl; [reflexivity|].
  pose proof (groupby_nonempty t) as Hne.
  destruct (groupby k t) as [|[|y g'] gs].
  - simpl in IH. subst t. reflexivity.
  - exfalso. apply (Hne []); [left|]; reflexivity.
  - destruct (k x y); simpl in *; rewrite IH; reflexivity.
Qed.

Lemma groupby_In l g x : In g (groupby k l) -> In x g -> In x l.
Proof.
  intros Hg Hx. rewrite <- (groupby_concat l). apply in_concat.
  exists g. split; assumption.
Qed.

End Grouping.

(** ** The outcome of naming the rotations *)

Section NamingOutcome.

Context {C : Collaborator}.

Lemma op_n_kind (o o' : Operation) : kind o = kind o' -> op_n o = op_n o'.
Proof. unfold op_n. intros ->. reflexivity. Qed.

Lemma op_exponent_kind (o o' : Operation) :
  kind o = kind o' -> op_exponent o = op_exponent o'.
Proof. unfold op_exponent. intros ->. reflexivity. Qed.

Lemma op_axis_kind (o o' : Operation) :
  kind o = kind o' -> op_axis o = op_axis o'.
Proof. unfold op_axis. intros ->. reflexivity. Qed.

Lemma set_name_ok r v s :
  exists s', set_name r v s = Ok (tt, s') /\ stable s s'.
Proof.
  eexists. split; [reflexivity|]. apply (set_name_stable r v s tt).
  reflexivity.
Qed.

(** With an axis to count, the loop over the members of an order group
    ends normally: the list of labels has an entry for every axis when the
    powers are reached. *)
Lemma name_axes_total prefix ydir order naxes rotgrp :
  (0 < naxes)%nat ->
  forall i prime_count labels has_paren_label s,
    List.length labels = Nat.min i naxes ->
    exists s',
      name_axes prefix ydir order naxes rotgrp i prime_count labels
                has_paren_label s = Ok (tt, s') /\
      stable s s'.
Proof.
  intros Hpos. induction rotgrp as [|rot t IH]; intros i pc labels hpl s Hl.
  - exists s. split; [reflexivity|apply stable_refl].
  - cbn [name_axes]. unfold bind at 1, get.
    destruct (Nat.ltb_spec i naxes) as [Hlt|Hge].
    + assert (Hnext : forall l : string,
                 List.length (labels ++ [l]) = Nat.min (S i) naxes).
      { intros l. rewrite length_app, Hl.
        change (List.length [l]) with 1%nat. lia. }
      repeat match goal with
             | |- context [if is_same_axis ?a ?b then _ else _] =>
                 destruct (is_same_axis a b)
             end;
        unfold bind at 1;
        match goal with
        | |- context [set_name ?r ?v s] =>
            destruct (set_name_ok r v s) as (s1 & -> & S1)
        end;
        match goal with
        | |- context [name_axes _ _ _ _ t (S i) ?pc' (labels ++ [?l]) ?hpl'] =>
            destruct (IH (S i) pc' (labels ++ [l])%list hpl' s1 (Hnext l))
              as (s' & E & S2)
        end;
        exists s'; (split; [exact E|]);
        eapply stable_trans; eassumption.
    + destruct naxes as [|n']; [lia|].
      destruct (nth_error labels (i mod S n')) as [label|] eqn:N.
      * unfold bind at 1.
        match goal with
        | |- context [set_name ?r ?v s] =>
            destruct (set_name_ok r v s) as (s1 & -> & S1)
        end.
        destruct (IH (S i) pc labels hpl s1) as (s' & E & S2); [lia|].
        exists s'. split; [exact E|]. eapply stable_trans; eassumption.
      * exfalso. apply nth_error_None in N.
        pose proof (Nat.mod_upper_bound i (S n')). lia.
Qed.

(** Without one, the first member divides by zero. *)
Lemma name_axes_zero prefix ydir order rot t i prime_count labels
      has_paren_label s :
  name_axes prefix ydir order 0 (rot :: t) i prime_count labels
            has_paren_label s = Raise ZeroDivisionError.
Proof. reflexivity. Qed.

Lemma for_each_set_name_total {A} (l : list A) (r : A -> ref)
      (v : State -> A -> string) :
  forall s, exists s',
    for_each l (fun x => bind get (fun s' => set_name (r x) (v s' x))) s
    = Ok (tt, s') /\ stable s s'.
Proof.
  induction l as [|x t IH]; intros s.
  - exists s. split; [reflexivity|apply stable_refl].
  - cbn [for_each]. unfold bind at 1. unfold bind at 1, get.
    destruct (set_name_ok (r x) (v s x) s) as (s1 & -> & S1).
    destruct (IH s1) as (s' & E & S2).
    exists s'. split; [exact E|]. eapply stable_trans; eassumption.
Qed.

Lemma no_axis_count_stable h h' g :
  same_objects h h' -> no_axis_count h' g = no_axis_count h g.
Proof.
  intros H. unfold no_axis_count. destruct g as [|rot0 rest]; [reflexivity|].
  rewrite (op_n_kind _ _ (proj1 (H rot0))). f_equal. f_equal. f_equal.
  apply filter_ext. intros x.
  rewrite (op_exponent_kind _ _ (proj1 (H x))). reflexivity.
Qed.

Lemma name_group_outcome prefix ydir rot0 rest s :
  if no_axis_count (heap s) (rot0 :: rest)
  then name_group prefix ydir (rot0 :: rest) s = Raise ZeroDivisionError
  else exists s', name_group prefix ydir (rot0 :: rest) s = Ok (tt, s') /\
                  stable s s'.
Proof.
  unfold no_axis_count.
  destruct (Z.eqb (Z.of_nat (List.length (rot0 :: rest)))
                  (op_n (heap s rot0) - 1)) eqn:E1; cbn [negb andb].
  - unfold name_group. unfold bind at 1, get at 1. cbv zeta. rewrite E1.
    unfold bind at 1.
    match goal with
    | |- context [set_name ?r ?v s] =>
        destruct (set_name_ok r v s) as (s1 & -> & S1)
    end.
    destruct (for_each_set_name_total rest (fun x => x)
                (fun s' rot => (prefix ++ str (op_n (heap s rot0)) ++ "^"
                                ++ str (op_exponent (heap s' rot)))%string) s1)
      as (s' & E & S2).
    exists s'. split; [exact E|]. eapply stable_trans; eassumption.
  - destruct (List.length
                (filter (fun x => Z.eqb (op_exponent (heap s x)) 1)
                        (rot0 :: rest))) as [|n'] eqn:N; cbn [Nat.eqb].
    + unfold name_group. unfold bind at 1, get at 1. cbv zeta.
      rewrite E1, N. reflexivity.
    + unfold name_group. unfold bind at 1, get at 1. cbv zeta.
      rewrite E1, N. apply name_axes_total; [lia|reflexivity].
Qed.

Lemma name_groups_outcome prefix ydir h0 groups :
  (forall g, In g groups -> g <> []) ->
  forall s, same_objects h0 (heap s) ->
  if existsb (no_axis_count h0) groups
  then for_each groups (name_group prefix ydir) s = Raise ZeroDivisionError
  else exists s', for_each groups (name_group prefix ydir) s = Ok (tt, s') /\
                  stable s s'.
Proof.
  induction groups as [|g gs IH]; intros Hne s Hs.
  - exists s. split; [reflexivity|apply stable_refl].
  - cbn [existsb for_each].
    destruct g as [|rot0 rest].
    { exfalso. apply (Hne []); [left|]; reflexivity. }
    pose proof (name_group_outcome prefix ydir rot0 rest s) as Hg.
    rewrite (no_axis_count_stable _ _ _ Hs) in Hg.
    destruct (no_axis_count h0 (rot0 :: rest)); cbn [orb].
    + apply bind_eq_raise. exact Hg.
    + destruct Hg as (s1 & E1 & S1).
      assert (Hs1 : same_objects h0 (heap s1)).
      { eapply same_objects_trans; [exact Hs|apply S1]. }
      specialize (IH (fun g Hg => Hne g (or_intror Hg)) s1 Hs1).
      rewrite (bind_eq_ok _ _ _ _ _ E1).
      destruct (existsb (no_axis_count h0) gs).
      * exact IH.
      * destruct IH as (s' & E & S2). exists s'. split; [exact E|].
        eapply stable_trans; eassumption.
Qed.

(** Naming the rotations, and the improper rotations, either ends normally
    or divides by zero, and no index is ever out of range: the division by
    zero is raised exactly when the operations of one order neither are the
    powers of a single axis (as many as the order less one) nor have a
    member with exponent 1. *)
Theorem axis_naming_outcome (s : State) :
  (if existsb (no_axis_count (heap s))
              (groupby (same_n (heap s)) (rotations s))
   then name_rotations s = Raise ZeroDivisionError
   else exists s', name_rotations s = Ok (tt, s') /\ stable s s') /\
  (if existsb (no_axis_count (heap s))
              (groupby (same_n (heap s)) (improper_rotations s))
   then name_improper_rotations s = Raise ZeroDivisionError
   else exists s', name_improper_rotations s = Ok (tt, s') /\ stable s s').
Proof.
  split.
  - unfold name_rotations. unfold bind at 1, get.
    apply name_groups_outcome.
    + intros g. apply groupby_nonempty.
    + apply same_objects_refl.
  - unfold name_improper_rotations. unfold bind at 1, get.
    apply name_groups_outcome.
    + intros g. apply groupby_nonempty.
    + apply same_objects_refl.
Qed.

End NamingOutcome.

(** ** Principal reflections of an axis of order above 2 *)

Section HighOrderReflections.

Context {C : Collaborator}.

Lemma flag_reflections_on h0 rot refl :
  forall s, same_objects h0 (heap s) ->
  exists s',
    for_each refl (fun op => flag_if_same_axis rot op) s = Ok (tt, s') /\
    stable s s' /\
    forall r, principal_reflection (heap s' r) = true <->
              principal_reflection (heap s r) = true \/
              (In r refl /\
               is_same_axis (op_axis (h0 r)) (op_axis (h0 rot)) = true).
Proof.
  induction refl as [|op t IH]; intros s Hs.
  - exists s. split; [reflexivity|]. split; [apply stable_refl|].
    intros r. split; [tauto|]. intros [H|[[] _]]. exact H.
  - cbn [for_each]. unfold bind at 1. unfold flag_if_same_axis at 1.
    unfold bind at 1, get.
    rewrite (op_axis_kind _ _ (proj1 (Hs op))),
      (op_axis_kind _ _ (proj1 (Hs rot))).
    destruct (is_same_axis (op_axis (h0 op)) (op_axis (h0 rot))) eqn:A.
    + pose proof (set_principal_reflection_stable op s tt _ eq_refl) as S1.
      unfold set_principal_reflection at 1.
      unfold set_principal_reflection in S1.
      match goal with
      | |- context [for_each t _ ?st] => set (s1 := st) in *
      end.
      destruct (IH s1) as (s' & F & S2 & Hf).
      { eapply same_objects_trans; [exact Hs|apply S1]. }
      exists s'. split; [exact F|]. split.
      { eapply stable_trans; eassumption. }
      intros r. rewrite Hf. subst s1. cbn [heap]. unfold upd.
      destruct (Nat.eqb_spec r op) as [->|Hne]; cbn [principal_reflection].
      * split; [|intros _; left; reflexivity].
        intros _. right. split; [left; reflexivity|exact A].
      * split.
        -- intros [H|[H1 H2]]; [left; exact H|].
           right. split; [right; exact H1|exact H2].
        -- intros [H|[[H1|H1] H2]]; [left; exact H|congruence|].
           right. split; assumption.
    + unfold ret. destruct (IH s Hs) as (s' & F & S2 & Hf).
      exists s'. split; [exact F|]. split; [exact S2|].
      intros r. rewrite Hf. split.
      * intros [H|[H1 H2]]; [left; exact H|].
        right. split; [right; exact H1|exact H2].
      * intros [H|[[<-|H1] H2]]; [left; exact H|congruence|].
        right. split; assumption.
Qed.

Lemma flag_reflections_on_all h0 rots refl :
  forall s, same_objects h0 (heap s) ->
  exists s',
    for_each rots (fun rot =>
      for_each refl (fun op => flag_if_same_axis rot op)) s = Ok (tt, s') /\
    stable s s' /\
    forall r, principal_reflection (heap s' r) = true <->
              principal_reflection (heap s r) = true \/
              (In r refl /\
               exists rot, In rot rots /\
                 is_same_axis (op_axis (h0 r)) (op_axis (h0 rot)) = true).
Proof.
  induction rots as [|rot t IH]; intros s Hs.
  - exists s. split; [reflexivity|]. split; [apply stable_refl|].
    intros r. split; [tauto|]. intros [H|[_ (rot & [] & _)]]. exact H.
  - cbn [for_each]. unfold bind at 1.
    destruct (flag_reflections_on h0 rot refl s Hs) as (s1 & -> & S1 & H1).
    destruct (IH s1) as (s' & F & S2 & Hf).
    { eapply same_objects_trans; [exact Hs|apply S1]. }
    exists s'. split; [exact F|]. split.
    { eapply stable_trans; eassumption. }
    intros r. rewrite Hf, H1. split.
    + intros [[H|[Hr Ha]]|[Hr (x & Hx & Ha)]]; [tauto| |].
      * right. split; [exact Hr|]. exists rot. split; [left; reflexivity|].
        exact Ha.
      * right. split; [exact Hr|]. exists x. split; [right; exact Hx|].
        exact Ha.
    + intros [H|[Hr (x & [<-|Hx] & Ha)]]; [tauto| |].
      * left. right. tauto.
      * right. split; [exact Hr|]. exists x. tauto.
Qed.

(** When the first (n, exponent) group of the sorted rotations has order
    above 2, the first step of [_name_operations] flags as principal every
    reflection whose axis coincides within tolerance with the axis of one
    of the rotations of that group, and no other reflection; it never
    fails and changes nothing else. *)
Theorem high_order_principal_reflections (s : State) (rot0 : ref)
        (rest : list ref) :
  principal_rotations s = rot0 :: rest ->
  (2 < op_n (heap s rot0))%Z ->
  exists s',
    flag_principal_reflections s = Ok (tt, s') /\
    stable s s' /\
    forall r, principal_reflection (heap s' r) = true <->
              principal_reflection (heap s r) = true \/
              (In r (reflections s) /\
               exists rot, In rot (rot0 :: rest) /\
                 is_same_axis (op_axis (heap s r)) (op_axis (heap s rot))
                 = true).
Proof.
  intros Hp Hn. unfold flag_principal_reflections. unfold bind at 1, get.
  rewrite Hp. destruct (Z.ltb_spec 2 (op_n (heap s rot0))) as [_|Hle]; [|lia].
  apply flag_reflections_on_all. apply same_objects_refl.
Qed.

End HighOrderReflections.

(** ** The polyhedral groups *)

Section Polyhedral.

Context {C : Collaborator}.

Lemma num_C_n_axes_count s n :
  num_C_n_axes s n = count_ops (heap s) (operations s) (is_C_n_axis n).
Proof.
  unfold num_C_n_axes, rotations, count_ops. rewrite filter_filter. f_equal.
  apply filter_ext. intros r. unfold is_C_n_axis.
  rewrite andb_assoc. reflexivity.
Qed.

Lemma polyhedral_get_name (s : State) (inversion_exists : bool) :
  (2 <= count_ops (heap s) (operations s) is_high_axis)%nat ->
  (inversion_exists = true <->
   exists r, In r (operations s) /\ is_inversion (heap s r) = true) ->
  _get_name s =
  named s (polyhedral_name
             (count_ops (heap s) (operations s) (is_C_n_axis 5))
             (count_ops (heap s) (operations s) (is_C_n_axis 4))
             (count_ops (heap s) (operations s) (is_C_n_axis 3))
             inversion_exists
             (count_ops (heap s) (operations s) is_reflection)).
Proof.
  intros Hhigh Hi. unfold _get_name. unfold bind at 1, get.
  rewrite count_high_axes.
  destruct (Nat.leb_spec 2 (count_ops (heap s) (operations s) is_high_axis))
    as [_|Hlt]; [|lia].
  rewrite !num_C_n_axes_count.
  change (List.length (reflections s))
    with (count_ops (heap s) (operations s) is_reflection).
  pose proof (inversion_present _ _ Hi) as Hinv.
  unfold polyhedral_name, named, unclassifiable, raise.
  destruct (inversion s) as [i|].
  - destruct inversion_exists; [|discriminate (proj2 Hinv eq_refl)].
    repeat match goal with |- context [if ?b then _ else _] => destruct b end;
      reflexivity.
  - rewrite (proj1 Hinv eq_refl).
    repeat match goal with |- context [if ?b then _ else _] => destruct b end;
      reflexivity.
Qed.

Lemma kind_is_high_axis (o o' : Operation) :
  kind o = kind o' -> is_high_axis o = is_high_axis o'.
Proof.
  intros H. unfold is_high_axis.
  rewrite (kind_is_rotation _ _ H), (op_n_kind _ _ H),
    (op_exponent_kind _ _ H). reflexivity.
Qed.

Lemma kind_is_C_n_axis n (o o' : Operation) :
  kind o = kind o' -> is_C_n_axis n o = is_C_n_axis n o'.
Proof.
  intros H. unfold is_C_n_axis.
  rewrite (kind_is_rotation _ _ H), (op_n_kind _ _ H),
    (op_exponent_kind _ _ H). reflexivity.
Qed.

(** The name of a constructed group that has two or more exponent-1
    rotations of order above 2 is read off the operations given to the
    constructor, whatever their order: "I" or "I_h" with twelve exponent-1
    rotations of order 5, else "O" or "O_h" with six of order 4, else, with
    four of order 3, "T_h" with an inversion, "T_d" with six reflections
    and "T" otherwise, the names with the subscript h being those of the
    groups with an inversion; no other such list of operations makes a
    group. *)
Theorem polyhedral_groups_named (h : Heap) (ops : list ref) (s : State) :
  (2 <= count_ops h ops is_high_axis)%nat ->
  PointGroup_init h ops = Ok s ->
  pg_name s =
  polyhedral_name (count_ops h ops (is_C_n_axis 5))
                  (count_ops h ops (is_C_n_axis 4))
                  (count_ops h ops (is_C_n_axis 3))
                  (existsb (fun r => is_inversion (h r)) ops)
                  (count_ops h ops is_reflection) /\
  pg_name s <> None.
Proof.
  intros Hhigh H.
  destruct (PointGroup_init_ok _ _ _ H) as (s1 & s2 & s3 & E1 & E2 & E3 & E4).
  assert (P : permuted (new_point_group h ops) s3).
  { eapply permuted_trans;
      [apply stable_permuted, (_check_closure_stable _ _ _ E1)|].
    eapply permuted_trans;
      [apply stable_permuted, (_compute_classes_stable _ _ _ E2)|].
    apply (_name_operations_permuted _ _ _ E3). }
  pose proof (count_ops_permuted _ _ _ kind_is_high_axis P) as Ch.
  pose proof (count_ops_permuted _ _ _ (kind_is_C_n_axis 5) P) as C5.
  pose proof (count_ops_permuted _ _ _ (kind_is_C_n_axis 4) P) as C4.
  pose proof (count_ops_permuted _ _ _ (kind_is_C_n_axis 3) P) as C3.
  pose proof (count_ops_permuted _ _ _ kind_is_reflection P) as Cf.
  simpl in Ch, C5, C4, C3, Cf.
  rewrite (polyhedral_get_name s3
             (existsb (fun r => is_inversion (h r)) ops)) in E4.
  - rewrite C5, C4, C3, Cf in E4.
    destruct (polyhedral_name _ _ _ _ _) as [v|]; [|discriminate].
    rewrite (set_pg_name_name _ _ _ _ E4). split; [reflexivity|discriminate].
  - rewrite Ch. exact Hhigh.
  - rewrite existsb_exists. destruct P as [Pp _ Po]. simpl in Pp, Po.
    split; intros (r & Hr & Hi); exists r.
    + split; [eapply Permutation_in; [apply Permutation_sym|]; eassumption|].
      rewrite <- Hi. apply kind_is_inversion, Po.
    + split; [eapply Permutation_in; eassumption|].
      rewrite <- Hi. symmetry. apply kind_is_inversion, Po.
Qed.

End Polyhedral.

(** ** The groups C_4h and T of the exact collaborator *)

Section ExactNaming.

Import Exact.
Local Open Scope string_scope.

Lemma high_order_principal_reflections_witness :
  exists s',
    flag_principal_reflections
      (@new_point_group collaborator
         (heap_of [E; C4z; C4z3; sigma_xy; sigma_xz]) [0; 1; 2; 3; 4]%nat)
    = Ok (tt, s') /\
    principal_reflection (heap s' 3%nat) = true /\
    principal_reflection (heap s' 4%nat) = false.
Proof.
  destruct (@high_order_principal_reflections collaborator
              (@new_point_group collaborator
                 (heap_of [E; C4z; C4z3; sigma_xy; sigma_xz])
                 [0; 1; 2; 3; 4]%nat)
              1%nat [] eq_refl) as (s' & F & _ & H).
  - reflexivity.
  - exists s'. split; [exact F|]. split.
    + apply H. right. split; [simpl; auto|].
      exists 1%nat. split; [left; reflexivity|reflexivity].
    + destruct (principal_reflection (heap s' 4%nat)) eqn:P; [|reflexivity].
      apply H in P. destruct P as [P|[_ (rot & [<-|[]] & P)]]; discriminate.
Defined.

Lemma polyhedral_groups_named_witness :
  pg_name (constructed tetrahedral_rotations) = Some "T".
Proof.
  pose proof tetrahedral_constructed as H.
  assert (Hc : (2 <= count_ops (heap_of tetrahedral_rotations) (seq 0 12)
                             is_high_axis)%nat)
    by (vm_compute; lia).
  exact (proj1 (@polyhedral_groups_named collaborator
                  (heap_of tetrahedral_rotations) (seq 0 12)
                  (constructed tetrahedral_rotations) Hc H)).
Defined.

End ExactNaming.

(** ** What a construction writes to *)

Section Writes.

Context {C : Collaborator}.

Variable h0 : Heap.
Variable ops0 : list ref.

Local Abbreviation constructing := (constructing h0 ops0).
Local Abbreviation writes_only := (writes_only h0 ops0).
Local Abbreviation of_class := (of_class h0 ops0).

Lemma kind_is_identity (o o' : Operation) :
  kind o = kind o' -> is_identity o = is_identity o'.
Proof. unfold is_identity. intros ->. reflexivity. Qed.

Lemma kind_is_improper_rotation (o o' : Operation) :
  kind o = kind o' -> is_improper_rotation o = is_improper_rotation o'.
Proof. unfold is_improper_rotation. intros ->. reflexivity. Qed.

Lemma writes_only_refl D s : writes_only D s s.
Proof. intros W. split; [exact W|]. split; [intros r _; reflexivity|auto]. Qed.

Lemma writes_only_trans D s1 s2 s3 :
  writes_only D s1 s2 -> writes_only D s2 s3 -> writes_only D s1 s3.
Proof.
  intros H12 H23 W1. destruct (H12 W1) as (W2 & U12 & I12).
  destruct (H23 W2) as (W3 & U23 & I23).
  split; [exact W3|]. split; [|auto].
  intros r Hr. rewrite (U23 r Hr). apply U12. exact Hr.
Qed.

Lemma writes_only_weaken (D D' : ref -> Prop) {A} (m : M A) :
  (forall r, D r -> D' r) ->
  preserves (writes_only D) m -> preserves (writes_only D') m.
Proof.
  intros HD Hm s a s' H W. destruct (Hm s a s' H W) as (W' & U & I).
  split; [exact W'|]. split; [|exact I].
  intros r Hr. apply U. intros Hd. apply Hr, HD, Hd.
Qed.

(** The continuation of a read of the state runs in the state read. *)
Lemma writes_only_get_bind D {A} (k : State -> M A) :
  (forall s, constructing s -> preserves (writes_only D) (k s)) ->
  preserves (writes_only D) (bind get k).
Proof.
  intros Hk s a s' H W. unfold bind, get in H. exact (Hk s W s a s' H W).
Qed.

Lemma upd_writes D r o s s' :
  D r -> kind o = kind (heap s r) -> matrix o = matrix (heap s r) ->
  s' = mkState (upd (heap s) r o) (operations s) (classes s) (pg_name s)
               (_generate_elements s) (_identity_element s) ->
  writes_only D s s'.
Proof.
  intros Hd Hk Hm -> [Wo Wp Wi]. split; [|split].
  - constructor; cbn [heap operations _identity_element]; auto.
    eapply same_objects_trans; [exact Wo|]. apply same_objects_upd; assumption.
  - intros r' Hr'. cbn [heap]. unfold upd.
    destruct (Nat.eqb_spec r' r) as [->|_]; [contradiction|reflexivity].
  - auto.
Qed.

Lemma set_inverse_writes D r v :
  D r -> preserves (writes_only D) (set_inverse r v).
Proof.
  intros Hd s u s' H. inversion H.
  eapply (upd_writes D r _ s _ Hd); [| |reflexivity]; reflexivity.
Qed.

Lemma set_name_writes D r v : D r -> preserves (writes_only D) (set_name r v).
Proof.
  intros Hd s u s' H. inversion H.
  eapply (upd_writes D r _ s _ Hd); [| |reflexivity]; reflexivity.
Qed.

Lemma set_principal_reflection_writes D r :
  D r -> preserves (writes_only D) (set_principal_reflection r).
Proof.
  intros Hd s u s' H. inversion H.
  eapply (upd_writes D r _ s _ Hd); [| |reflexivity]; reflexivity.
Qed.

Lemma same_heap_writes D s s' :
  heap s' = heap s ->
  (forall r, In r (operations s') -> In r (operations s)) ->
  _identity_element s' = _identity_element s ->
  writes_only D s s'.
Proof.
  intros Hh Ho Hi [Wo Wp Wi]. split; [|split].
  - constructor.
    + rewrite Hh. exact Wo.
    + auto.
    + rewrite Hi. exact Wi.
  - intros r _. rewrite Hh. reflexivity.
  - intros e He. congruence.
Qed.

Lemma set_classes_writes D cls : preserves (writes_only D) (set_classes cls).
Proof.
  intros s u s' H. inversion H. apply same_heap_writes; auto.
Qed.

Lemma set_pg_name_writes D v : preserves (writes_only D) (set_pg_name v).
Proof.
  intros s u s' H. inversion H. apply same_heap_writes; auto.
Qed.

Lemma sort_operations_writes D : preserves (writes_only D) sort_operations.
Proof.
  intros s u s' H. inversion H. apply same_heap_writes; auto.
  cbn [operations]. intros r Hr.
  eapply Permutation_in; [apply sort_by_perm|exact Hr].
Qed.

Lemma only_classes_writes D s s' : only_classes s s' -> writes_only D s s'.
Proof.
  unfold only_classes. intros ->. apply same_heap_writes; auto.
Qed.

Lemma mul_writes D a b : preserves (writes_only D) (mul a b).
Proof.
  intros s r s' H. apply mul_state in H. subst. apply writes_only_refl.
Qed.

(** The identity element is an [IdentityOperation] of the operations, and
    stays memoised. *)
Lemma identity_element_constructing s e s' :
  constructing s -> identity_element s = Ok (e, s') ->
  In e ops0 /\ is_identity (h0 e) = true /\ _identity_element s' = Some e /\
  heap s' = heap s /\ operations s' = operations s.
Proof.
  intros [Wo Wp Wi] H. unfold identity_element in H.
  destruct (_identity_element s) as [e'|] eqn:I.
  - inversion H; subst e' s'. destruct (Wi e eq_refl). auto.
  - destruct (find _ _) as [e'|] eqn:F; inversion H; subst e' s'.
    apply find_some in F. destruct F as [He Hi].
    cbn [heap operations _identity_element]. repeat split; auto.
    rewrite <- Hi. apply kind_is_identity. symmetry. apply Wo.
Qed.

Lemma identity_element_writes D : preserves (writes_only D) identity_element.
Proof.
  intros s e s' H W.
  destruct (identity_element_constructing _ _ _ W H)
    as (He & Hi & Hc & Hh & Ho).
  split; [|split].
  - destruct W as [Wo Wp Wi]. constructor.
    + rewrite Hh. exact Wo.
    + rewrite Ho. exact Wp.
    + intros e' He'. rewrite Hc in He'. inversion He'; subst e'. auto.
  - intros r _. rewrite Hh. reflexivity.
  - intros e' He'. unfold identity_element in H. rewrite He' in H.
    inversion H; subst. exact He'.
Qed.

Lemma writes_only_identity_bind D {A} (k : ref -> M A) :
  (forall e, In e ops0 -> is_identity (h0 e) = true ->
             preserves (writes_only D) (k e)) ->
  preserves (writes_only D) (bind identity_element k).
Proof.
  intros Hk s a s' H W. apply bind_ok in H. destruct H as (e & s1 & H1 & H2).
  destruct (identity_element_constructing _ _ _ W H1) as (He & Hi & _).
  eapply writes_only_trans.
  - apply (identity_element_writes D _ _ _ H1).
  - apply (Hk e He Hi _ _ _ H2).
  - exact W.
Qed.

Ltac frame_writes D := frame_with (writes_only_refl D) (writes_only_trans D).

Lemma check_pair_writes iop jop :
  In iop ops0 -> In jop ops0 ->
  preserves (writes_only (fun r => In r ops0)) (check_pair iop jop).
Proof.
  intros Hi Hj. unfold check_pair.
  pose proof (mul_writes (fun r => In r ops0) iop jop).
  pose proof (identity_element_writes (fun r => In r ops0)).
  pose proof (set_inverse_writes (fun r => In r ops0) iop jop Hi).
  pose proof (set_inverse_writes (fun r => In r ops0) jop iop Hj).
  frame_writes (fun r => In r ops0).
Qed.

Lemma _check_closure_writes :
  preserves (writes_only (fun r => In r ops0)) _check_closure.
Proof.
  unfold _check_closure. apply writes_only_get_bind. intros s W.
  apply preserves_for_each;
    [apply writes_only_refl|apply writes_only_trans|].
  intros iop Hiop. apply writes_only_get_bind. intros s1 W1.
  apply preserves_for_each;
    [apply writes_only_refl|apply writes_only_trans|].
  intros jop Hjop. apply check_pair_writes.
  - apply (constructing_operations _ _ _ W). exact Hiop.
  - apply (constructing_operations _ _ _ W1). exact Hjop.
Qed.

Lemma _compute_classes_writes D : preserves (writes_only D) _compute_classes.
Proof.
  intros s u s' H. apply only_classes_writes.
  exact (_compute_classes_only_classes _ _ _ H).
Qed.

Lemma filter_of_class (K : Operation -> bool) s r :
  (forall o o' : Operation, kind o = kind o' -> K o = K o') ->
  constructing s ->
  In r (filter (fun x => K (heap s x)) (operations s)) -> of_class K r.
Proof.
  intros HK [Wo Wp _] Hr. apply filter_In in Hr. destruct Hr as [Hr Hk].
  split; [auto|]. rewrite <- Hk. apply HK. symmetry. apply Wo.
Qed.

Lemma flag_principal_reflections_writes :
  preserves (writes_only (of_class is_reflection)) flag_principal_reflections.
Proof.
  unfold flag_principal_reflections. apply writes_only_get_bind. intros s W.
  assert (Hr : forall op, In op (reflections s) ->
                 preserves (writes_only (of_class is_reflection))
                           (set_principal_reflection op)).
  { intros op Hop. apply set_principal_reflection_writes.
    exact (filter_of_class _ _ _ kind_is_reflection W Hop). }
  destruct (principal_rotations s) as [|rot0 rest].
  { apply (preserves_ret (writes_only_refl _)). }
  destruct (Z.ltb 2 (op_n (heap s rot0))).
  - apply preserves_for_each;
      [apply writes_only_refl|apply writes_only_trans|].
    intros rot _. apply preserves_for_each;
      [apply writes_only_refl|apply writes_only_trans|].
    intros op Hop. unfold flag_if_same_axis. specialize (Hr op Hop).
    frame_writes (of_class is_reflection).
  - destruct (find _ (reflections s)) as [op|] eqn:F.
    + apply Hr. apply find_some in F. apply F.
    + apply (preserves_ret (writes_only_refl _)).
Qed.

Lemma name_axes_writes D prefix ydir order naxes rotgrp :
  (forall r, In r rotgrp -> D r) ->
  forall i prime_count labels has_paren_label,
    preserves (writes_only D)
      (name_axes prefix ydir order naxes rotgrp i prime_count labels
                 has_paren_label).
Proof.
  induction rotgrp as [|rot t IH]; intros Hd; intros; simpl.
  - apply (preserves_ret (writes_only_refl _)).
  - pose proof (fun v => set_name_writes D rot v (Hd rot (or_introl eq_refl))).
    specialize (IH (fun r Hr => Hd r (or_intror Hr))).
    frame_writes D; auto.
Qed.

Lemma name_group_writes D prefix ydir rotgrp :
  (forall r, In r rotgrp -> D r) ->
  preserves (writes_only D) (name_group prefix ydir rotgrp).
Proof.
  intros Hd. unfold name_group. destruct rotgrp as [|rot0 rest].
  { apply preserves_raise. }
  pose proof (name_axes_writes D prefix ydir) as Ha.
  pose proof (fun v => set_name_writes D rot0 v (Hd rot0 (or_introl eq_refl))).
  apply (preserves_bind (writes_only_trans D));
    [apply (preserves_get (writes_only_refl D))|intros s].
  destruct (Z.eqb _ _).
  - apply (preserves_bind (writes_only_trans D)); [auto|intros _].
    apply preserves_for_each;
      [apply writes_only_refl|apply writes_only_trans|].
    intros rot Hrot.
    pose proof (fun v => set_name_writes D rot v (Hd rot (or_intror Hrot))).
    frame_writes D.
  - apply Ha. exact Hd.
Qed.

Lemma name_groups_writes (K : Operation -> bool) prefix ydir :
  (forall o o' : Operation, kind o = kind o' -> K o = K o') ->
  preserves (writes_only (of_class K))
    (bind get (fun s =>
       for_each (groupby (same_n (heap s))
                         (filter (fun r => K (heap s r)) (operations s)))
                (name_group prefix ydir))).
Proof.
  intros HK. apply writes_only_get_bind. intros s W.
  apply preserves_for_each;
    [apply writes_only_refl|apply writes_only_trans|].
  intros g Hg. apply name_group_writes. intros r Hr.
  apply (filter_of_class K s r HK W). eapply groupby_In; eassumption.
Qed.

Lemma name_rotations_writes :
  preserves (writes_only (of_class is_rotation)) name_rotations.
Proof. apply (name_groups_writes is_rotation). apply kind_is_rotation. Qed.

Lemma name_improper_rotations_writes :
  preserves (writes_only (of_class is_improper_rotation))
            name_improper_rotations.
Proof.
  apply (name_groups_writes is_improper_rotation).
  apply kind_is_improper_rotation.
Qed.

Lemma name_reflections_writes D refs :
  (forall r, In r refs -> D r) ->
  forall prime_count has_paren_label,
    preserves (writes_only D)
              (name_reflections refs prime_count has_paren_label).
Proof.
  induction refs as [|r t IH]; intros Hd; intros; simpl.
  - apply (preserves_ret (writes_only_refl _)).
  - pose proof (fun v => set_name_writes D r v (Hd r (or_introl eq_refl))).
    specialize (IH (fun x Hx => Hd x (or_intror Hx))).
    frame_writes D; auto.
Qed.

Lemma name_all_reflections_writes s prime_count has_paren_label :
  constructing s ->
  preserves (writes_only (of_class is_reflection))
    (name_reflections (reflections s) prime_count has_paren_label).
Proof.
  intros W. apply name_reflections_writes.
  intros r Hr. exact (filter_of_class _ _ _ kind_is_reflection W Hr).
Qed.

Lemma sort_classes_writes D : preserves (writes_only D) sort_classes.
Proof.
  unfold sort_classes. pose proof (set_classes_writes D). frame_writes D.
Qed.

Lemma _get_name_writes D : preserves (writes_only D) _get_name.
Proof.
  unfold _get_name, unclassifiable. pose proof (set_pg_name_writes D).
  frame_writes D; auto.
Qed.

Lemma name_inversion_writes s :
  constructing s ->
  preserves (writes_only (of_class is_inversion))
    (match inversion s with
     | Some i => set_name i "i"
     | None => ret tt
     end).
Proof.
  intros W. destruct (inversion s) as [i|] eqn:F.
  - apply set_name_writes. unfold inversion in F. apply find_some in F.
    destruct F as [Hi Hk]. destruct W as [Wo Wp _]. split; [auto|].
    rewrite <- Hk. apply kind_is_inversion. symmetry. apply Wo.
  - apply (preserves_ret (writes_only_refl _)).
Qed.

Lemma of_class_In K r : of_class K r -> In r ops0.
Proof. intros [H _]. exact H. Qed.

Lemma _name_operations_writes :
  preserves (writes_only (fun r => In r ops0)) _name_operations.
Proof.
  unfold _name_operations.
  pose proof (writes_only_weaken _ (fun r => In r ops0) _
                (of_class_In is_reflection) flag_principal_reflections_writes).
  pose proof (sort_operations_writes (fun r => In r ops0)).
  pose proof (writes_only_weaken _ (fun r => In r ops0) _
                (of_class_In is_rotation) name_rotations_writes).
  pose proof (writes_only_weaken _ (fun r => In r ops0) _
                (of_class_In is_improper_rotation)
                name_improper_rotations_writes).
  pose proof (sort_classes_writes (fun r => In r ops0)).
  apply (preserves_bind (writes_only_trans _)); [auto|intros _].
  apply (preserves_bind (writes_only_trans _)); [auto|intros _].
  apply writes_only_identity_bind. intros e He Hi.
  apply (preserves_bind (writes_only_trans _));
    [apply set_name_writes; exact He|intros _].
  apply writes_only_get_bind. intros s W.
  apply (preserves_bind (writes_only_trans _)); [|intros _].
  { apply (writes_only_weaken _ _ _ (of_class_In is_inversion)).
    apply name_inversion_writes. exact W. }
  apply (preserves_bind (writes_only_trans _)); [auto|intros _].
  apply (preserves_bind (writes_only_trans _)); [auto|intros _].
  apply writes_only_get_bind. intros s' W'.
  apply (preserves_bind (writes_only_trans _)); [|intros _; auto].
  apply (writes_only_weaken _ _ _ (of_class_In is_reflection)).
  apply name_all_reflections_writes. exact W'.
Qed.

Lemma construction_writes :
  preserves (writes_only (fun r => In r ops0))
    (bind _check_closure (fun _ =>
       bind _compute_classes (fun _ =>
         bind _name_operations (fun _ => _get_name)))).
Proof.
  pose proof _check_closure_writes.
  pose proof (_compute_classes_writes (fun r => In r ops0)).
  pose proof _name_operations_writes.
  pose proof (_get_name_writes (fun r => In r ops0)).
  frame_writes (fun r => In r ops0).
Qed.

End Writes.

Section WritesTheorem.

Context {C : Collaborator}.

Lemma new_point_group_constructing h ops :
  constructing h ops (new_point_group h ops).
Proof.
  constructor; cbn [heap operations _identity_element new_point_group].
  - apply same_objects_refl.
  - auto.
  - discriminate.
Qed.

(** A construction writes to the operations it is given and to no other
    object of the heap: an operation that is not in the list has, after
    the construction, the name, the inverse and the flag it had. *)
Theorem construction_writes_to_its_operations (h : Heap) (ops : list ref)
        (s : State) :
  PointGroup_init h ops = Ok s ->
  forall r, ~ In r ops -> heap s r = h r.
Proof.
  unfold PointGroup_init. intros H.
  destruct (bind _ _ _) as [[u s']|e] eqn:E; [|discriminate].
  assert (s' = s) by congruence. subst s'.
  destruct (construction_writes h ops _ _ _ E
              (new_point_group_constructing h ops)) as (_ & U & _).
  exact U.
Qed.

Lemma _name_operations_steps s2 s3 :
  _name_operations s2 = Ok (tt, s3) ->
  exists t1 t2 e t3 t4 t5 t6 t7 t8,
    flag_principal_reflections s2 = Ok (tt, t1) /\
    sort_operations t1 = Ok (tt, t2) /\
    identity_element t2 = Ok (e, t3) /\
    set_name e "E" t3 = Ok (tt, t4) /\
    match inversion t4 with
    | Some i => set_name i "i"
    | None => ret tt
    end t4 = Ok (tt, t5) /\
    name_rotations t5 = Ok (tt, t6) /\
    name_improper_rotations t6 = Ok (tt, t7) /\
    name_reflections (reflections t7) (mkPrimeCount 0 0 0) false t7
    = Ok (tt, t8) /\
    sort_classes t8 = Ok (tt, s3).
Proof.
  unfold _name_operations. intros H.
  apply bind_ok in H. destruct H as ([] & t1 & F1 & H).
  apply bind_ok in H. destruct H as ([] & t2 & F2 & H).
  apply bind_ok in H. destruct H as (e & t3 & F3 & H).
  apply bind_ok in H. destruct H as ([] & t4 & F4 & H).
  unfold bind at 1, get in H.
  apply bind_ok in H. destruct H as ([] & t5 & F5 & H).
  apply bind_ok in H. destruct H as ([] & t6 & F6 & H).
  apply bind_ok in H. destruct H as ([] & t7 & F7 & H).
  unfold bind at 1, get in H.
  apply bind_ok in H. destruct H as ([] & t8 & F8 & H).
  exists t1, t2, e, t3, t4, t5, t6, t7, t8. repeat split; assumption.
Qed.

Lemma writes_step h ops D s s' :
  constructing h ops s -> writes_only h ops D s s' ->
  constructing h ops s' /\
  (forall x, ~ D x -> heap s' x = heap s x) /\
  (forall e, _identity_element s = Some e -> _identity_element s' = Some e).
Proof. intros W H. exact (H W). Qed.

Lemma not_of_class h ops (K : Operation -> bool) x :
  K (h x) = false -> ~ of_class h ops K x.
Proof. intros Hk [_ H]. congruence. Qed.

Lemma set_name_at r v s s' :
  set_name r v s = Ok (tt, s') -> name (heap s' r) = Some v.
Proof.
  intros H. inversion H. cbn [heap]. unfold upd. rewrite Nat.eqb_refl.
  reflexivity.
Qed.

Local Open Scope string_scope.

(** Every constructed group has an identity element, an
    [IdentityOperation] among the operations given, that the
    [identity_element] property answers from then on and that is named "E";
    and the inversion of the group, when there is one, is named "i": no
    later step of the naming writes to either. *)
Theorem identity_and_inversion_named (h : Heap) (ops : list ref) (s : State) :
  PointGroup_init h ops = Ok s ->
  (exists e, In e ops /\ is_identity (h e) = true /\
             identity_element s = Ok (e, s) /\
             name (heap s e) = Some "E") /\
  (forall i, inversion s = Some i -> name (heap s i) = Some "i").
Proof.
  intros H.
  destruct (PointGroup_init_ok _ _ _ H) as (s1 & s2 & s3 & E1 & E2 & E3 & E4).
  destruct (_name_operations_steps _ _ E3)
    as (t1 & t2 & e & t3 & t4 & t5 & t6 & t7 & t8 &
        F1 & F2 & F3 & F4 & F5 & F6 & F7 & F8 & F9).
  pose proof (new_point_group_constructing h ops) as W0.
  destruct (writes_step _ _ _ _ _ W0 (_check_closure_writes h ops _ _ _ E1))
    as (W1 & _ & _).
  destruct (writes_step _ _ _ _ _ W1
              (_compute_classes_writes h ops (fun _ => False) _ _ _ E2))
    as (W2 & _ & _).
  destruct (writes_step _ _ _ _ _ W2
              (flag_principal_reflections_writes h ops _ _ _ F1))
    as (Wt1 & _ & _).
  destruct (writes_step _ _ _ _ _ Wt1
              (sort_operations_writes h ops (fun _ => False) _ _ _ F2))
    as (Wt2 & _ & _).
  destruct (identity_element_constructing _ _ _ _ _ Wt2 F3)
    as (He & Hi & Hc & _ & _).
  destruct (writes_step _ _ _ _ _ Wt2
              (identity_element_writes h ops (fun _ => False) _ _ _ F3))
    as (Wt3 & _ & _).
  destruct (writes_step _ _ _ _ _ Wt3
              (set_name_writes h ops (fun r => In r ops) e "E" He _ _ _ F4))
    as (Wt4 & _ & I4).
  destruct (writes_step _ _ _ _ _ Wt4
              (name_inversion_writes h ops t4 Wt4 _ _ _ F5))
    as (Wt5 & U5 & I5).
  destruct (writes_step _ _ _ _ _ Wt5 (name_rotations_writes h ops _ _ _ F6))
    as (Wt6 & U6 & I6).
  destruct (writes_step _ _ _ _ _ Wt6
              (name_improper_rotations_writes h ops _ _ _ F7))
    as (Wt7 & U7 & I7).
  destruct (writes_step _ _ _ _ _ Wt7
              (name_all_reflections_writes h ops t7 _ _ Wt7 _ _ _ F8))
    as (Wt8 & U8 & I8).
  destruct (writes_step _ _ _ _ _ Wt8
              (sort_classes_writes h ops (fun _ => False) _ _ _ F9))
    as (W3 & U9 & I9).
  destruct (writes_step _ _ _ _ _ W3
              (_get_name_writes h ops (fun _ => False) _ _ _ E4))
    as (W4 & U10 & I10).
  assert (Late : forall x,
             is_rotation (h x) = false ->
             is_improper_rotation (h x) = false ->
             is_reflection (h x) = false ->
             heap s x = heap t5 x).
  { intros x K1 K2 K3.
    rewrite U10, U9, U8, U7, U6; auto using not_of_class. }
  split.
  - exists e. split; [exact He|]. split; [exact Hi|].
    assert (Ke : kind (h e) = IdentityOperation).
    { unfold is_identity in Hi. destruct (kind (h e)); congruence. }
    split.
    + unfold identity_element.
      rewrite (I10 e (I9 e (I8 e (I7 e (I6 e (I5 e (I4 e Hc))))))).
      reflexivity.
    + rewrite Late; try (unfold is_rotation, is_improper_rotation,
                           is_reflection; rewrite Ke; reflexivity).
      rewrite U5.
      * apply (set_name_at _ _ _ _ F4).
      * apply not_of_class. unfold is_inversion. rewrite Ke. reflexivity.
  - intros i Fi.
    assert (S45 : stable t4 t5).
    { destruct (inversion t4).
      - apply (set_name_stable _ _ _ _ _ F5).
      - inversion F5. apply stable_refl. }
    assert (S : stable t4 s).
    { eapply stable_trans; [exact S45|].
      eapply stable_trans; [apply (name_rotations_stable _ _ _ F6)|].
      eapply stable_trans; [apply (name_improper_rotations_stable _ _ _ F7)|].
      eapply stable_trans; [apply (name_reflections_stable _ _ _ _ _ _ F8)|].
      eapply stable_trans; [apply (sort_classes_stable _ _ _ F9)|].
      apply (_get_name_stable _ _ _ E4). }
    assert (Fi4 : inversion t4 = Some i).
    { rewrite <- Fi. unfold inversion.
      rewrite (stable_operations _ _ S). apply find_ext_eq.
      intros x. apply kind_is_inversion. symmetry. apply S. }
    rewrite Fi4 in F5.
    assert (Ki : kind (h i) = Inversion).
    { unfold inversion in Fi4. apply find_some in Fi4.
      destruct Fi4 as [_ Hk]. unfold is_inversion in Hk.
      rewrite (proj1 (constructing_objects _ _ _ Wt4 i)) in Hk.
      destruct (kind (h i)); congruence. }
    rewrite Late; try (unfold is_rotation, is_improper_rotation,
                         is_reflection; rewrite Ki; reflexivity).
    apply (set_name_at _ _ _ _ F5).
Qed.

End WritesTheorem.

Section ExactWrites.

Import Exact.
Local Open Scope string_scope.

Lemma construction_writes_to_its_operations_witness :
  heap (constructed C2v) 7%nat = heap_of C2v 7%nat.
Proof.
  apply (@construction_writes_to_its_operations collaborator (heap_of C2v)
           [0; 1; 2; 3]%nat (constructed C2v) C2v_constructed).
  simpl. intros [H|[H|[H|[H|[]]]]]; discriminate.
Defined.

Lemma identity_and_inversion_named_witness :
  (exists e, In e [0; 1]%nat /\ is_identity (heap_of [E; inv] e) = true /\
             identity_element (constructed [E; inv])
             = Ok (e, constructed [E; inv]) /\
             name (heap (constructed [E; inv]) e) = Some "E") /\
  name (heap (constructed [E; inv]) 1%nat) = Some "i".
Proof.
  assert (H : @PointGroup_init collaborator (heap_of [E; inv]) [0; 1]%nat
              = Ok (constructed [E; inv]))
    by (apply constructed_ok; [reflexivity|]; vm_compute; reflexivity).
  assert (Hi : inversion (constructed [E; inv]) = Some 1%nat)
    by (vm_compute; reflexivity).
  destruct (@identity_and_inversion_named collaborator (heap_of [E; inv])
              [0; 1]%nat (constructed [E; inv]) H) as [He Hn].
  split; [exact He|exact (Hn 1%nat Hi)].
Defined.

End ExactWrites.

(** ** The names follow the scheme *)

Section Grouped.

Context {A : Type} (k : A -> A -> bool).

Hypothesis k_trans : forall a b c, k a b = true -> k b c = true -> k a c = true.
Hypothesis k_sym : forall a b, k a b = true -> k b a = true.
Hypothesis k_refl : forall a, k a a = true.

(** The members of a group have the key of its first member. *)
Lemma groupby_head l x g :
  In (x :: g) (groupby k l) -> forall y, In y g -> k x y = true.
Proof.
  revert x g. induction l as [|a t IH]; simpl; intros x g; [intros []|].
  destruct (groupby k t) as [|[|b g'] gs] eqn:E.
  - intros [H|[]]. inversion H; subst. intros y [].
  - intros [H|[]]. inversion H; subst. intros y [].
  - destruct (k a b) eqn:Kab.
    + intros [H|H].
      * inversion H; subst. intros y [<-|Hy]; [exact Kab|].
        apply (k_trans _ b); [exact Kab|].
        apply (IH b g'); [left; reflexivity|exact Hy].
      * apply IH. right. exact H.
    + intros [H|H].
      * inversion H; subst. intros y [].
      * apply IH. exact H.
Qed.

Lemma groupby_same_key l g x y :
  In g (groupby k l) -> In x g -> In y g -> k x y = true.
Proof.
  intros Hg Hx Hy. destruct g as [|a g']; [destruct Hx|].
  pose proof (groupby_head l a g' Hg) as Hh.
  assert (Ha : forall z, In z (a :: g') -> k a z = true).
  { intros z [<-|Hz]; [apply k_refl|apply Hh, Hz]. }
  apply (k_trans _ a); [apply k_sym, Ha, Hx|apply Ha, Hy].
Qed.

End Grouped.

Section Scheme.

Context {C : Collaborator}.

Local Open Scope string_scope.

Variable h0 : Heap.
Variable prefix : string.

Local Abbreviation axis_name := (axis_name h0 prefix).
Local Abbreviation renamed_axes := (renamed_axes h0 prefix).
Local Abbreviation same_order := (same_order h0).

Lemma append_nil_r (s : string) : s ++ "" = s.
Proof. induction s as [|c s IH]; simpl; [reflexivity|]. rewrite IH. reflexivity. Qed.

Lemma renamed_axes_refl s : renamed_axes s s.
Proof. intros W. split; [exact W|]. intros r. left. reflexivity. Qed.

Lemma renamed_axes_trans s1 s2 s3 :
  renamed_axes s1 s2 -> renamed_axes s2 s3 -> renamed_axes s1 s3.
Proof.
  intros H12 H23 W1. destruct (H12 W1) as (W2 & N12).
  destruct (H23 W2) as (W3 & N23). split; [exact W3|].
  intros r. destruct (N23 r) as [E|F]; [|right; exact F].
  rewrite E. apply N12.
Qed.

Lemma renamed_axes_get_bind {A} (k : State -> M A) :
  (forall s, same_objects h0 (heap s) -> preserves renamed_axes (k s)) ->
  preserves renamed_axes (bind get k).
Proof.
  intros Hk s a s' H W. unfold bind, get in H. exact (Hk s W s a s' H W).
Qed.

Lemma set_name_renamed_axes r suffix :
  preserves renamed_axes
            (set_name r (prefix ++ str (op_n (h0 r)) ++ suffix)).
Proof.
  intros s u s' H W. inversion H. cbn [heap]. split.
  - eapply same_objects_trans; [exact W|]. apply same_objects_upd; reflexivity.
  - intros x. unfold upd. destruct (Nat.eqb_spec x r) as [->|_].
    + right. exists suffix. reflexivity.
    + left. reflexivity.
Qed.

Ltac frame_axes := frame_with renamed_axes_refl renamed_axes_trans.

Lemma name_axes_renamed ydir order naxes rotgrp :
  (forall r, In r rotgrp -> op_n (h0 r) = order) ->
  forall i prime_count labels has_paren_label,
    preserves renamed_axes
      (name_axes prefix ydir order naxes rotgrp i prime_count labels
                 has_paren_label).
Proof.
  induction rotgrp as [|rot t IH]; intros Ho; intros; simpl.
  - apply (preserves_ret renamed_axes_refl).
  - pose proof (fun suffix => set_name_renamed_axes rot suffix) as Hs.
    rewrite (Ho rot (or_introl eq_refl)) in Hs.
    specialize (IH (fun r Hr => Ho r (or_intror Hr))).
    frame_axes; auto.
Qed.

Lemma name_group_renamed ydir rotgrp :
  same_order rotgrp ->
  preserves renamed_axes (name_group prefix ydir rotgrp).
Proof.
  intros Ho. unfold name_group. destruct rotgrp as [|rot0 rest].
  { apply preserves_raise. }
  apply renamed_axes_get_bind. intros s W. cbv zeta.
  assert (Hn : forall r, In r (rot0 :: rest) ->
                         op_n (h0 r) = op_n (heap s rot0)).
  { intros r Hr. rewrite (op_n_kind _ _ (proj1 (W rot0))).
    apply Ho; [exact Hr|left; reflexivity]. }
  destruct (Z.eqb _ _).
  - apply (preserves_bind renamed_axes_trans); [|intros _].
    + pose proof (set_name_renamed_axes rot0 "") as Hs.
      rewrite append_nil_r, (Hn rot0 (or_introl eq_refl)) in Hs. exact Hs.
    + apply (preserves_for_each renamed_axes_refl renamed_axes_trans).
      intros rot Hrot.
      pose proof (fun suffix => set_name_renamed_axes rot suffix) as Hs.
      rewrite (Hn rot (or_intror Hrot)) in Hs.
      frame_axes.
  - apply name_axes_renamed. exact Hn.
Qed.

(** The steps that set the name of [r]. *)
Lemma renamed_axes_kept s s' r :
  same_objects h0 (heap s) -> renamed_axes s s' ->
  axis_name r (name (heap s r)) -> axis_name r (name (heap s' r)).
Proof.
  intros W H F. destruct (H W) as (_ & N).
  destruct (N r) as [E|F']; [rewrite E; exact F|exact F'].
Qed.

Lemma set_name_axis_name r suffix s s' :
  set_name r (prefix ++ str (op_n (h0 r)) ++ suffix) s = Ok (tt, s') ->
  axis_name r (name (heap s' r)).
Proof.
  intros H. rewrite (set_name_at _ _ _ _ H). exists suffix. reflexivity.
Qed.

Lemma name_axes_names ydir order naxes rotgrp :
  (forall r, In r rotgrp -> op_n (h0 r) = order) ->
  forall i prime_count labels has_paren_label s s',
    same_objects h0 (heap s) ->
    name_axes prefix ydir order naxes rotgrp i prime_count labels
              has_paren_label s = Ok (tt, s') ->
    forall r, In r rotgrp -> axis_name r (name (heap s' r)).
Proof.
  induction rotgrp as [|rot t IH]; intros Ho i pc labels hpl s s' W H r Hr;
    [destruct Hr|].
  assert (Step : forall suffix i' pc' labels' hpl',
             bind (set_name rot (prefix ++ str order ++ suffix))
                  (fun _ => name_axes prefix ydir order naxes t i' pc'
                                      labels' hpl') s = Ok (tt, s') ->
             axis_name r (name (heap s' r))).
  { intros suffix i' pc' labels' hpl' B.
    apply bind_ok in B. destruct B as ([] & s1 & B1 & B2).
    rewrite <- (Ho rot (or_introl eq_refl)) in B1.
    assert (W1 : same_objects h0 (heap s1)).
    { apply (set_name_renamed_axes _ _ _ _ _ B1 W). }
    destruct Hr as [<-|Hr].
    - apply (renamed_axes_kept s1 s' rot W1).
      + apply (name_axes_renamed ydir order naxes t
                 (fun x Hx => Ho x (or_intror Hx)) _ _ _ _ _ _ _ B2).
      + apply (set_name_axis_name _ _ _ _ B1).
    - apply (IH (fun x Hx => Ho x (or_intror Hx)) _ _ _ _ _ _ W1 B2 r Hr). }
  cbn [name_axes] in H. unfold bind at 1, get in H.
  destruct (Nat.ltb i naxes).
  - repeat match type of H with
           | context [if is_same_axis ?a ?b then _ else _] =>
               destruct (is_same_axis a b)
           end; eapply Step; exact H.
  - destruct naxes as [|n']; [discriminate|].
    destruct (nth_error labels _) as [label|]; [|discriminate].
    eapply Step. exact H.
Qed.

Lemma name_group_names ydir rotgrp s s' :
  same_order rotgrp -> same_objects h0 (heap s) ->
  name_group prefix ydir rotgrp s = Ok (tt, s') ->
  forall r, In r rotgrp -> axis_name r (name (heap s' r)).
Proof.
  intros Ho W H r Hr. unfold name_group in H.
  destruct rotgrp as [|rot0 rest]; [destruct Hr|].
  unfold bind at 1, get in H. cbv zeta in H.
  assert (Hn : forall x, In x (rot0 :: rest) ->
                         op_n (h0 x) = op_n (heap s rot0)).
  { intros x Hx. rewrite (op_n_kind _ _ (proj1 (W rot0))).
    apply Ho; [exact Hx|left; reflexivity]. }
  destruct (Z.eqb _ _).
  - apply bind_ok in H. destruct H as ([] & s1 & B1 & B2).
    rewrite <- (Hn rot0 (or_introl eq_refl)) in B1, B2.
    rewrite <- (append_nil_r (str (op_n (h0 rot0)))) in B1.
    assert (W1 : same_objects h0 (heap s1)).
    { apply (set_name_renamed_axes _ _ _ _ _ B1 W). }
    assert (Hb : forall x, In x rest ->
               preserves renamed_axes
                 (fun st => bind get (fun s'0 =>
                    set_name x (prefix ++ str (op_n (h0 rot0)) ++ "^"
                                ++ str (op_exponent (heap s'0 x)))) st)).
    { intros x Hx.
      pose proof (fun suffix => set_name_renamed_axes x suffix) as Hs.
      rewrite (Hn x (or_intror Hx)), <- (Hn rot0 (or_introl eq_refl)) in Hs.
      frame_axes. }
    destruct Hr as [<-|Hr].
    + apply (renamed_axes_kept s1 s' rot0 W1).
      * apply (preserves_for_each renamed_axes_refl renamed_axes_trans
                 _ _ Hb _ _ _ B2).
      * apply (set_name_axis_name _ _ _ _ B1).
    + destruct (for_each_ran renamed_axes_refl renamed_axes_trans
                  _ _ _ _ _ Hb B2 r Hr) as (s3 & s4 & R13 & B & R4).
      unfold bind at 1, get in B.
      rewrite (Ho rot0 r (or_introl eq_refl) (or_intror Hr)) in B.
      assert (W3 : same_objects h0 (heap s3)) by (apply (R13 W1)).
      assert (W4 : same_objects h0 (heap s4)).
      { apply (set_name_renamed_axes _ _ _ _ _ B W3). }
      apply (renamed_axes_kept s4 s' r W4 R4).
      apply (set_name_axis_name _ _ _ _ B).
  - apply (name_axes_names ydir _ _ _ Hn _ _ _ _ _ _ W H r Hr).
Qed.

Lemma name_groups_names ydir groups s s' :
  (forall g, In g groups -> same_order g) ->
  same_objects h0 (heap s) ->
  for_each groups (name_group prefix ydir) s = Ok (tt, s') ->
  forall g r, In g groups -> In r g -> axis_name r (name (heap s' r)).
Proof.
  intros Ho W H g r Hg Hr.
  assert (Hb : forall x, In x groups ->
                         preserves renamed_axes (name_group prefix ydir x)).
  { intros x Hx. apply name_group_renamed. apply Ho. exact Hx. }
  destruct (for_each_ran renamed_axes_refl renamed_axes_trans
              _ _ _ _ _ Hb H g Hg) as (s3 & s4 & R3 & B & R4).
  assert (W3 : same_objects h0 (heap s3)) by (apply (R3 W)).
  assert (W4 : same_objects h0 (heap s4)).
  { apply (name_group_renamed ydir g (Ho g Hg) _ _ _ B W3). }
  apply (renamed_axes_kept s4 s' r W4 R4).
  apply (name_group_names ydir g s3 s4 (Ho g Hg) W3 B r Hr).
Qed.

Lemma groupby_same_order (l : list ref) g :
  In g (groupby (same_n h0) l) -> same_order g.
Proof.
  intros Hg x y Hx Hy. apply Z.eqb_eq.
  apply (groupby_same_key (same_n h0)) with (l := l) (g := g); auto.
  - intros a b c Hab Hbc. unfold same_n in *.
    apply Z.eqb_eq in Hab. apply Z.eqb_eq in Hbc. apply Z.eqb_eq. congruence.
  - intros a b Hab. unfold same_n in *. apply Z.eqb_eq in Hab.
    apply Z.eqb_eq. congruence.
  - intros a. apply Z.eqb_refl.
Qed.

End Scheme.

Section SchemeOfGroups.

Context {C : Collaborator}.

Local Open Scope string_scope.

Lemma same_n_stable h h' :
  same_objects h h' -> forall a b, same_n h' a b = same_n h a b.
Proof.
  intros H a b. unfold same_n.
  rewrite (op_n_kind _ _ (proj1 (H a))), (op_n_kind _ _ (proj1 (H b))).
  reflexivity.
Qed.

Lemma groupby_ext {A} (k k' : A -> A -> bool) l :
  (forall a b, k a b = k' a b) -> groupby k l = groupby k' l.
Proof.
  intros H. induction l as [|x t IH]; simpl; [reflexivity|].
  rewrite IH. destruct (groupby k' t) as [|[|y g] gs]; try reflexivity.
  rewrite H. reflexivity.
Qed.

(** After [name_rotations], every rotation of the group has a name that
    begins with "C_" and its order. *)
Lemma name_rotations_names h0 s s' :
  same_objects h0 (heap s) ->
  name_rotations s = Ok (tt, s') ->
  forall r, In r (rotations s) -> axis_name h0 "C_" r (name (heap s' r)).
Proof.
  intros W H r Hr. unfold name_rotations in H. unfold bind at 1, get in H.
  rewrite (groupby_ext _ _ _ (same_n_stable _ _ W)) in H.
  rewrite <- (groupby_concat (same_n h0) (rotations s)) in Hr.
  apply in_concat in Hr. destruct Hr as (g & Hg & Hr).
  apply (name_groups_names h0 "C_" _ _ s s'
           (fun g => groupby_same_order h0 _ g) W H g r Hg Hr).
Qed.

Lemma name_improper_rotations_names h0 s s' :
  same_objects h0 (heap s) ->
  name_improper_rotations s = Ok (tt, s') ->
  forall r, In r (improper_rotations s) ->
            axis_name h0 "S_" r (name (heap s' r)).
Proof.
  intros W H r Hr. unfold name_improper_rotations in H.
  unfold bind at 1, get in H.
  rewrite (groupby_ext _ _ _ (same_n_stable _ _ W)) in H.
  rewrite <- (groupby_concat (same_n h0) (improper_rotations s)) in Hr.
  apply in_concat in Hr. destruct Hr as (g & Hg & Hr).
  apply (name_groups_names h0 "S_" _ _ s s'
           (fun g => groupby_same_order h0 _ g) W H g r Hg Hr).
Qed.

(** *** The reflections *)

Lemma renamed_reflections_refl s : renamed_reflections s s.
Proof.
  split; [reflexivity|]. split; [reflexivity|]. intros r. left. reflexivity.
Qed.

Lemma reflection_name_same (o o' : Operation) nm :
  principal_reflection o' = principal_reflection o -> kind o' = kind o ->
  reflection_name o' nm -> reflection_name o nm.
Proof.
  intros Hf Hk (sub & suffix & E & Hs & Hp). exists sub, suffix.
  split; [exact E|]. split; [rewrite <- Hf; exact Hs|].
  rewrite <- (op_axis_kind _ _ Hk). exact Hp.
Qed.

Lemma renamed_reflections_trans s1 s2 s3 :
  renamed_reflections s1 s2 -> renamed_reflections s2 s3 ->
  renamed_reflections s1 s3.
Proof.
  intros (F12 & K12 & N12) (F23 & K23 & N23). split; [|split].
  - intros r. rewrite F23. apply F12.
  - intros r. rewrite K23. apply K12.
  - intros r. destruct (N23 r) as [E|N].
    + rewrite E. apply N12.
    + right. apply (reflection_name_same _ _ _ (F12 r) (K12 r) N).
Qed.

Lemma set_name_renamed_reflections r subscript suffix s s' :
  (principal_reflection (heap s r) = true <-> subscript = sub_h) ->
  plane_suffix (op_axis (heap s r)) suffix ->
  set_name r ("sigma_" ++ subscript_str subscript ++ suffix) s = Ok (tt, s') ->
  renamed_reflections s s'.
Proof.
  intros Hs Hp H. unfold set_name in H. injection H as <-. split; [|split].
  - intros x. cbn [heap]. unfold upd.
    destruct (Nat.eqb_spec x r) as [->|_]; reflexivity.
  - intros x. cbn [heap]. unfold upd.
    destruct (Nat.eqb_spec x r) as [->|_]; reflexivity.
  - intros x. cbn [heap]. unfold upd.
    destruct (Nat.eqb_spec x r) as [->|_].
    + right. exists subscript, suffix. auto.
    + left. reflexivity.
Qed.

Lemma name_reflections_names refs :
  forall prime_count has_paren_label s s',
    name_reflections refs prime_count has_paren_label s = Ok (tt, s') ->
    renamed_reflections s s' /\
    forall r, In r refs -> reflection_name (heap s r) (name (heap s' r)).
Proof.
  induction refs as [|r t IH]; intros pc hpl s s' H.
  - inversion H; subst. split; [apply renamed_reflections_refl|intros r []].
  - assert (Step : forall subscript suffix pc' hpl',
               (principal_reflection (heap s r) = true <-> subscript = sub_h) ->
               plane_suffix (op_axis (heap s r)) suffix ->
               bind (set_name r ("sigma_" ++ subscript_str subscript ++ suffix))
                    (fun _ => name_reflections t pc' hpl') s = Ok (tt, s') ->
               renamed_reflections s s' /\
               forall x, In x (r :: t) ->
                         reflection_name (heap s x) (name (heap s' x))).
    { intros subscript suffix pc' hpl' Hs Hp B.
      apply bind_ok in B. destruct B as ([] & s1 & B1 & B2).
      pose proof (set_name_renamed_reflections _ _ _ _ _ Hs Hp B1) as R1.
      destruct (IH _ _ _ _ B2) as [R2 N2].
      split; [eapply renamed_reflections_trans; eassumption|].
      destruct R1 as (F1 & K1 & _).
      intros x [<-|Hx].
      - destruct R2 as (F2 & K2 & M2). destruct (M2 r) as [E|N].
        + rewrite E, (set_name_at _ _ _ _ B1).
          exists subscript, suffix. auto.
        + apply (reflection_name_same _ _ _ (F1 r) (K1 r) N).
      - apply (reflection_name_same _ _ _ (F1 x) (K1 x) (N2 x Hx)). }
    cbn [name_reflections] in H. unfold bind at 1, get in H. cbv zeta in H.
    assert (Hsub : principal_reflection (heap s r) = true <->
                   (if is_principal_reflection s r then sub_h
                    else if is_dihedral (heap s) (operations s) r then sub_d
                         else sub_v) = sub_h).
    { unfold is_principal_reflection.
      destruct (principal_reflection (heap s r)); [tauto|].
      destruct (is_dihedral _ _ _); split; discriminate. }
    unfold plane_suffix in Step.
    repeat match type of H with
           | context [if is_same_axis ?a ?b then _ else _] =>
               destruct (is_same_axis a b)
           end;
      eapply Step; try exact H; try exact Hsub; eauto.
Qed.

End SchemeOfGroups.

Section SchemeTheorem.

Context {C : Collaborator}.

Local Open Scope string_scope.

(** The states of the naming of a constructed group: [t5] before the
    rotations are named, [t6] after, [t7] after the improper rotations and
    [t8] after the reflections. *)
Lemma naming_trace h ops s :
  PointGroup_init h ops = Ok s ->
  exists t5 t6 t7 t8,
    constructing h ops t5 /\ Permutation (operations t5) ops /\
    name_rotations t5 = Ok (tt, t6) /\
    name_improper_rotations t6 = Ok (tt, t7) /\
    name_reflections (reflections t7) (mkPrimeCount 0 0 0) false t7
    = Ok (tt, t8) /\
    stable t5 t6 /\ stable t6 t7 /\
    constructing h ops t6 /\ constructing h ops t7 /\
    untouched_outside (of_class h ops is_improper_rotation) t6 t7 /\
    untouched_outside (of_class h ops is_reflection) t7 t8 /\
    (forall x, heap s x = heap t8 x).
Proof.
  intros H.
  destruct (PointGroup_init_ok _ _ _ H) as (s1 & s2 & s3 & E1 & E2 & E3 & E4).
  destruct (_name_operations_steps _ _ E3)
    as (t1 & t2 & e & t3 & t4 & t5 & t6 & t7 & t8 &
        F1 & F2 & F3 & F4 & F5 & F6 & F7 & F8 & F9).
  pose proof (new_point_group_constructing h ops) as W0.
  destruct (writes_step _ _ _ _ _ W0 (_check_closure_writes h ops _ _ _ E1))
    as (W1 & _ & _).
  destruct (writes_step _ _ _ _ _ W1
              (_compute_classes_writes h ops (fun _ => False) _ _ _ E2))
    as (W2 & _ & _).
  destruct (writes_step _ _ _ _ _ W2
              (flag_principal_reflections_writes h ops _ _ _ F1))
    as (Wt1 & _ & _).
  destruct (writes_step _ _ _ _ _ Wt1
              (sort_operations_writes h ops (fun _ => False) _ _ _ F2))
    as (Wt2 & _ & _).
  destruct (identity_element_constructing _ _ _ _ _ Wt2 F3)
    as (He & Hi & Hc & _ & _).
  destruct (writes_step _ _ _ _ _ Wt2
              (identity_element_writes h ops (fun _ => False) _ _ _ F3))
    as (Wt3 & _ & _).
  destruct (writes_step _ _ _ _ _ Wt3
              (set_name_writes h ops (fun r => In r ops) e "E" He _ _ _ F4))
    as (Wt4 & _ & _).
  destruct (writes_step _ _ _ _ _ Wt4
              (name_inversion_writes h ops t4 Wt4 _ _ _ F5))
    as (Wt5 & _ & _).
  destruct (writes_step _ _ _ _ _ Wt5 (name_rotations_writes h ops _ _ _ F6))
    as (Wt6 & _ & _).
  destruct (writes_step _ _ _ _ _ Wt6
              (name_improper_rotations_writes h ops _ _ _ F7))
    as (Wt7 & U7 & _).
  destruct (writes_step _ _ _ _ _ Wt7
              (name_all_reflections_writes h ops t7 _ _ Wt7 _ _ _ F8))
    as (Wt8 & U8 & _).
  destruct (writes_step _ _ _ _ _ Wt8
              (sort_classes_writes h ops (fun _ => False) _ _ _ F9))
    as (W3 & U9 & _).
  destruct (writes_step _ _ _ _ _ W3
              (_get_name_writes h ops (fun _ => False) _ _ _ E4))
    as (_ & U10 & _).
  assert (P5 : permuted (new_point_group h ops) t5).
  { eapply permuted_trans;
      [apply stable_permuted, (_check_closure_stable _ _ _ E1)|].
    eapply permuted_trans;
      [apply stable_permuted, (_compute_classes_stable _ _ _ E2)|].
    eapply permuted_trans;
      [apply stable_permuted, (flag_principal_reflections_stable _ _ _ F1)|].
    eapply permuted_trans; [apply (sort_operations_permuted _ _ _ F2)|].
    eapply permuted_trans;
      [apply stable_permuted, (identity_element_stable _ _ _ F3)|].
    eapply permuted_trans;
      [apply stable_permuted, (set_name_stable _ _ _ _ _ F4)|].
    apply stable_permuted. destruct (inversion t4).
    - apply (set_name_stable _ _ _ _ _ F5).
    - inversion F5. apply stable_refl. }
  exists t5, t6, t7, t8.
  split; [exact Wt5|]. split; [apply P5|].
  split; [exact F6|]. split; [exact F7|]. split; [exact F8|].
  split; [apply (name_rotations_stable _ _ _ F6)|].
  split; [apply (name_improper_rotations_stable _ _ _ F7)|].
  split; [exact Wt6|]. split; [exact Wt7|].
  split; [exact U7|]. split; [exact U8|].
  intros x. rewrite U10, U9; auto.
Qed.

(** The names of a constructed group follow the scheme of the package:
    the final name of every rotation of the group begins with "C_" and the
    order of the rotation, the name of every improper rotation with "S_"
    and its order, and the name of every reflection with "sigma_" and a
    subscript, which is "h" exactly for the reflections flagged as
    principal. *)
Theorem names_follow_scheme (h : Heap) (ops : list ref) (s : State) :
  PointGroup_init h ops = Ok s ->
  forall r, In r ops -> name_scheme (heap s r) (name (heap s r)).
Proof.
  intros H r Hr.
  destruct (naming_trace _ _ _ H)
    as (t5 & t6 & t7 & t8 & W5 & P5 & F6 & F7 & F8 & S6 & S7 & W6 & W7 &
        U7 & U8 & U).
  assert (Hr5 : In r (operations t5)).
  { eapply Permutation_in; [apply Permutation_sym, P5|exact Hr]. }
  assert (K : forall t, constructing h ops t -> kind (heap t r) = kind (h r)).
  { intros t Wt. apply (constructing_objects _ _ _ Wt). }
  unfold name_scheme. rewrite (U r).
  assert (K8 : kind (heap t8 r) = kind (h r)).
  { destruct (name_reflections_stable _ _ _ _ _ _ F8) as [_ _ O8].
    rewrite (proj1 (O8 r)). apply K. exact W7. }
  rewrite K8. destruct (kind (h r)) as [|n e a|n e a|a|] eqn:Kr; [exact I| | | |exact I].
  - assert (Hin : In r (rotations t5)).
    { apply filter_In. split; [exact Hr5|].
      unfold is_rotation. rewrite (K t5 W5); try rewrite Kr; reflexivity. }
    destruct (name_rotations_names h t5 t6 (constructing_objects _ _ _ W5)
                F6 r Hin) as (suffix & E).
    exists suffix. rewrite U8, U7, E.
    + unfold op_n. rewrite Kr. reflexivity.
    + apply not_of_class. unfold is_improper_rotation. rewrite Kr. reflexivity.
    + apply not_of_class. unfold is_reflection. rewrite Kr. reflexivity.
  - assert (Hin : In r (improper_rotations t6)).
    { apply filter_In. split.
      - rewrite (stable_operations _ _ S6). exact Hr5.
      - unfold is_improper_rotation. rewrite (K t6 W6); try rewrite Kr;
        reflexivity. }
    destruct (name_improper_rotations_names h t6 t7
                (constructing_objects _ _ _ W6) F7 r Hin) as (suffix & E).
    exists suffix. rewrite U8, E.
    + unfold op_n. rewrite Kr. reflexivity.
    + apply not_of_class. unfold is_reflection. rewrite Kr. reflexivity.
  - assert (Hin : In r (reflections t7)).
    { apply filter_In. split.
      - rewrite (stable_operations _ _ S7), (stable_operations _ _ S6).
        exact Hr5.
      - unfold is_reflection. rewrite (K t7 W7); try rewrite Kr; reflexivity. }
    destruct (name_reflections_names _ _ _ _ _ F8) as [(Fl & Kl & _) N].
    apply (reflection_name_same _ _ _ (eq_sym (Fl r)) (eq_sym (Kl r))).
    exact (N r Hin).
Qed.

End SchemeTheorem.

Section ExactScheme.

Import Exact.
Local Open Scope string_scope.

Lemma names_follow_scheme_witness :
  exists suffix,
    name (heap (constructed tetrahedral_rotations) 5%nat)
    = Some ("C_" ++ str 3 ++ suffix).
Proof.
  pose proof tetrahedral_constructed as H.
  assert (K : kind (heap (constructed tetrahedral_rotations) 5%nat)
              = Rotation 3 2 (1, 1, 1)%Z) by (vm_compute; reflexivity).
  pose proof (@names_follow_scheme collaborator
                (heap_of tetrahedral_rotations) (seq 0 12)
                (constructed tetrahedral_rotations) H 5%nat) as N.
  unfold name_scheme in N. rewrite K in N. apply N. simpl. tauto.
Defined.

End ExactScheme.

(** ** The exceptions of a construction *)

Section Errors.

Context {C : Collaborator}.

Lemma raises_only_weaken {A} (E E' : Exception -> Prop) (m : M A) :
  (forall e, E e -> E' e) -> raises_only E m -> raises_only E' m.
Proof. intros HE Hm s e H. apply HE. eapply Hm. exact H. Qed.

Lemma raises_only_ret {A} E (a : A) : raises_only E (ret a).
Proof. intros s e H. discriminate. Qed.

Lemma raises_only_get E : raises_only E get.
Proof. intros s e H. discriminate. Qed.

Lemma raises_only_raise {A} (E : Exception -> Prop) e :
  E e -> raises_only E (@raise _ A e).
Proof. intros He s e' H. inversion H; subst. exact He. Qed.

Lemma set_name_total E r v : raises_only E (set_name r v).
Proof. intros s e H. discriminate. Qed.

Lemma set_principal_reflection_total E r :
  raises_only E (set_principal_reflection r).
Proof. intros s e H. discriminate. Qed.

Lemma set_classes_total E cls : raises_only E (set_classes cls).
Proof. intros s e H. discriminate. Qed.

Lemma set_pg_name_total E v : raises_only E (set_pg_name v).
Proof. intros s e H. discriminate. Qed.

Lemma sort_operations_total E : raises_only E sort_operations.
Proof. intros s e H. discriminate. Qed.

(** Follows the structure of a method, for the exceptions it raises. *)
Ltac raising :=
  repeat first
    [ solve [auto 2]
    | apply raises_only_ret
    | apply raises_only_get
    | apply raises_only_bind; [|intros ?]
    | apply raises_only_for_each; intros ?
    | match goal with
      | |- raises_only _ (if ?b then _ else _) => destruct b
      | |- raises_only _ (match ?x with _ => _ end) => destruct x
      end ].

Lemma mul_raises_only a b :
  raises_only (fun e => e = GroupTheoryError GroupNotClosed) (mul a b).
Proof. intros s e H. apply mul_raise in H. tauto. Qed.

Lemma conjugate_raises g op : raises_only classes_error (conjugate g op).
Proof.
  unfold conjugate.
  assert (Hm : forall a b, raises_only classes_error (mul a b)).
  { intros a b. eapply raises_only_weaken; [|apply mul_raises_only].
    intros e ->. left. reflexivity. }
  assert (Ht : raises_only classes_error (@raise _ ref TypeError)).
  { apply raises_only_raise. right. left. reflexivity. }
  raising.
Qed.

Lemma _compute_classes_raises : raises_only classes_error _compute_classes.
Proof.
  unfold _compute_classes, class_step.
  pose proof conjugate_raises. pose proof (set_classes_total classes_error).
  assert (Hd : raises_only classes_error
                 (@raise _ nat (GroupTheoryError ClassesNotDisjoint))).
  { apply raises_only_raise. right. right. reflexivity. }
  raising.
Qed.

Lemma flag_principal_reflections_total E :
  raises_only E flag_principal_reflections.
Proof.
  unfold flag_principal_reflections, flag_if_same_axis.
  pose proof (set_principal_reflection_total E). raising.
Qed.

Lemma name_groups_raise prefix ydir (l : list ref) s e :
  bind get (fun s0 =>
    for_each (groupby (same_n (heap s0)) l) (name_group prefix ydir)) s
  = Raise e ->
  e = ZeroDivisionError.
Proof.
  unfold bind at 1, get. intros H.
  pose proof (name_groups_outcome prefix ydir (heap s)
                (groupby (same_n (heap s)) l)
                (fun g => groupby_nonempty _ l g) s
                (same_objects_refl _)) as O.
  destruct (existsb _ _).
  - congruence.
  - destruct O as (s' & O & _). congruence.
Qed.

Lemma name_reflections_total E refs :
  forall prime_count has_paren_label,
    raises_only E (name_reflections refs prime_count has_paren_label).
Proof.
  pose proof (set_name_total E).
  induction refs as [|r t IH]; intros; simpl; raising.
Qed.

Lemma _name_operations_raises : raises_only naming_error _name_operations.
Proof.
  unfold _name_operations, sort_classes.
  pose proof (flag_principal_reflections_total naming_error).
  pose proof (sort_operations_total naming_error).
  pose proof (set_name_total naming_error).
  pose proof (set_classes_total naming_error).
  pose proof (name_reflections_total naming_error).
  assert (raises_only naming_error identity_element).
  { intros s e R. apply identity_element_raise in R. left. exact R. }
  assert (raises_only naming_error name_rotations).
  { intros s e R. right. exact (name_groups_raise _ _ _ _ _ R). }
  assert (raises_only naming_error name_improper_rotations).
  { intros s e R. right. exact (name_groups_raise _ _ _ _ _ R). }
  raising.
Qed.

Lemma _get_name_raises :
  raises_only (fun e => e = GroupTheoryError UnclassifiableGroup) _get_name.
Proof.
  unfold _get_name, unclassifiable.
  pose proof (set_pg_name_total
                (fun e => e = GroupTheoryError UnclassifiableGroup)).
  assert (raises_only (fun e => e = GroupTheoryError UnclassifiableGroup)
                      (@raise _ unit (GroupTheoryError UnclassifiableGroup))).
  { apply raises_only_raise. reflexivity. }
  raising.
Qed.

(** The exceptions of a construction are those of its four steps: the
    three fatal errors of the closure check; for the classes, a conjugate
    that matches no element, an operation left without an inverse (a
    [TypeError]) and an operation in two classes; for the names, a missing
    identity and the division by zero of an order group without an
    exponent-1 member; and the group that cannot be classified.  No index
    is ever out of range and no lookup by operation is made. *)
Theorem construction_raises_only (h : Heap) (ops : list ref) (e : Exception) :
  PointGroup_init h ops = Raise e ->
  construction_error e /\
  e <> IndexError /\ e <> GroupTheoryError OperationNotFound.
Proof.
  unfold PointGroup_init. intros H.
  destruct (bind _ _ _) as [[u s']|e'] eqn:E; [discriminate|].
  assert (e' = e) by congruence. subst e'.
  assert (R : raises_only construction_error
                (bind _check_closure (fun _ =>
                   bind _compute_classes (fun _ =>
                     bind _name_operations (fun _ => _get_name))))).
  { apply raises_only_bind.
    { eapply raises_only_weaken; [|apply _check_closure_raises].
      intros x Hx. left. exact Hx. }
    intros _. apply raises_only_bind.
    { eapply raises_only_weaken; [|apply _compute_classes_raises].
      intros x Hx. right. left. exact Hx. }
    intros _. apply raises_only_bind.
    { eapply raises_only_weaken; [|apply _name_operations_raises].
      intros x Hx. right. right. left. exact Hx. }
    intros _. eapply raises_only_weaken; [|apply _get_name_raises].
    intros x Hx. right. right. right. exact Hx. }
  pose proof (R _ _ E) as He. split; [exact He|].
  unfold construction_error, closure_error, classes_error, naming_error in He.
  split; intros ->;
    repeat match goal with H : _ \/ _ |- _ => destruct H end; discriminate.
Qed.

End Errors.

(** ** The flags of the reflections *)

Section Flags.

Context {C : Collaborator}.

Lemma keeps_flags_refl s : keeps_flags s s.
Proof. intros r H. exact H. Qed.

Lemma keeps_flags_trans s1 s2 s3 :
  keeps_flags s1 s2 -> keeps_flags s2 s3 -> keeps_flags s1 s3.
Proof. intros H12 H23 r H. apply H23, H12, H. Qed.

Ltac frame_flags := frame_with keeps_flags_refl keeps_flags_trans.

Lemma upd_keeps_flags r o s s' :
  (principal_reflection (heap s r) = true -> principal_reflection o = true) ->
  s' = mkState (upd (heap s) r o) (operations s) (classes s) (pg_name s)
               (_generate_elements s) (_identity_element s) ->
  keeps_flags s s'.
Proof.
  intros Ho -> x Hx. cbn [heap]. unfold upd.
  destruct (Nat.eqb_spec x r) as [->|_]; auto.
Qed.

Lemma set_inverse_flags r v : preserves keeps_flags (set_inverse r v).
Proof.
  intros s u s' H. inversion H. eapply upd_keeps_flags; [|reflexivity]. auto.
Qed.

Lemma set_name_flags r v : preserves keeps_flags (set_name r v).
Proof.
  intros s u s' H. inversion H. eapply upd_keeps_flags; [|reflexivity]. auto.
Qed.

Lemma set_principal_reflection_flags r :
  preserves keeps_flags (set_principal_reflection r).
Proof.
  intros s u s' H. inversion H. eapply upd_keeps_flags; [|reflexivity]. auto.
Qed.

Lemma same_heap_flags s s' : heap s' = heap s -> keeps_flags s s'.
Proof. intros E r H. rewrite E. exact H. Qed.

Lemma stable_heap_flags {A} (m : M A) :
  (forall s a s', m s = Ok (a, s') -> heap s' = heap s) ->
  preserves keeps_flags m.
Proof. intros Hm s a s' H. apply same_heap_flags. eapply Hm. exact H. Qed.

Lemma identity_element_heap_same s e s' :
  identity_element s = Ok (e, s') -> heap s' = heap s.
Proof.
  unfold identity_element. destruct (_identity_element s).
  - intros H. inversion H. reflexivity.
  - destruct (find _ _); intros H; inversion H. reflexivity.
Qed.

Lemma _check_closure_flags : preserves keeps_flags _check_closure.
Proof.
  unfold _check_closure, check_pair.
  pose proof set_inverse_flags.
  assert (forall a b, preserves keeps_flags (mul a b)).
  { intros a b. apply stable_heap_flags. intros s r s' Hm.
    apply mul_state in Hm. subst. reflexivity. }
  assert (preserves keeps_flags identity_element).
  { apply stable_heap_flags. exact identity_element_heap_same. }
  frame_flags; auto.
Qed.

Lemma _compute_classes_flags : preserves keeps_flags _compute_classes.
Proof.
  apply stable_heap_flags. intros s u s' H.
  apply only_classes_heap. exact (_compute_classes_only_classes _ _ _ H).
Qed.

Lemma name_axes_flags prefix ydir order naxes rotgrp :
  forall i prime_count labels has_paren_label,
    preserves keeps_flags
      (name_axes prefix ydir order naxes rotgrp i prime_count labels
                 has_paren_label).
Proof.
  pose proof set_name_flags.
  induction rotgrp as [|rot t IH]; intros; simpl; frame_flags; auto.
Qed.

Lemma name_reflections_flags refs :
  forall prime_count has_paren_label,
    preserves keeps_flags
              (name_reflections refs prime_count has_paren_label).
Proof.
  pose proof set_name_flags.
  induction refs as [|r t IH]; intros; simpl; frame_flags; auto.
Qed.

Lemma _name_operations_flags : preserves keeps_flags _name_operations.
Proof.
  unfold _name_operations, flag_principal_reflections, flag_if_same_axis,
    name_rotations, name_improper_rotations, name_group, sort_classes.
  pose proof set_name_flags. pose proof set_principal_reflection_flags.
  pose proof name_axes_flags. pose proof name_reflections_flags.
  assert (preserves keeps_flags sort_operations).
  { apply stable_heap_flags. intros s u s' Hm. inversion Hm. reflexivity. }
  assert (preserves keeps_flags identity_element).
  { apply stable_heap_flags. exact identity_element_heap_same. }
  assert (forall cls, preserves keeps_flags (set_classes cls)).
  { intros cls. apply stable_heap_flags. intros s u s' Hm. inversion Hm.
    reflexivity. }
  frame_flags; auto.
Qed.

Lemma _get_name_flags : preserves keeps_flags _get_name.
Proof.
  unfold _get_name, unclassifiable.
  assert (forall v, preserves keeps_flags (set_pg_name v)).
  { intros v. apply stable_heap_flags. intros s u s' Hm. inversion Hm.
    reflexivity. }
  frame_flags; auto.
Qed.

Local Open Scope string_scope.

(** A construction never clears the flag of a principal reflection: a
    reflection that comes flagged to the constructor, from a group it was
    part of before, is flagged in the new group whatever the axes of this
    one, and is named "sigma_h". *)
Theorem flags_are_never_cleared (h : Heap) (ops : list ref) (s : State)
        (r : ref) :
  PointGroup_init h ops = Ok s ->
  principal_reflection (h r) = true ->
  principal_reflection (heap s r) = true /\
  (In r ops -> is_reflection (h r) = true ->
   exists suffix, name (heap s r) = Some ("sigma_h" ++ suffix)).
Proof.
  intros H Hf.
  assert (Hs : principal_reflection (heap s r) = true).
  { destruct (PointGroup_init_ok _ _ _ H)
      as (s1 & s2 & s3 & E1 & E2 & E3 & E4).
    apply (_get_name_flags _ _ _ E4), (_name_operations_flags _ _ _ E3),
      (_compute_classes_flags _ _ _ E2), (_check_closure_flags _ _ _ E1).
    exact Hf. }
  split; [exact Hs|]. intros Hr Hk.
  destruct (naming_trace _ _ _ H)
    as (t5 & t6 & t7 & t8 & W5 & P5 & F6 & F7 & F8 & S6 & S7 & W6 & W7 &
        U7 & U8 & U).
  assert (Hin : In r (reflections t7)).
  { apply filter_In. split.
    - rewrite (stable_operations _ _ S7), (stable_operations _ _ S6).
      eapply Permutation_in; [apply Permutation_sym, P5|exact Hr].
    - rewrite <- Hk. apply kind_is_reflection.
      apply (constructing_objects _ _ _ W7). }
  destruct (name_reflections_names _ _ _ _ _ F8) as [(Fl & _ & _) N].
  destruct (N r Hin) as (sub & suffix & E & Hsub & _).
  rewrite U, E. rewrite U, Fl in Hs.
  rewrite (proj1 Hsub Hs). exists suffix. reflexivity.
Qed.

End Flags.

Section ExactErrors.

Import Exact.
Local Open Scope string_scope.

Lemma raised {A : Type} (r : Result A) (e : Exception) :
  exception_of r = Some e -> r = Raise e.
Proof. destruct r; simpl; intros H; [discriminate|congruence]. Qed.

Lemma construction_raises_only_witness :
  construction_error (GroupTheoryError MissingIdentity).
Proof.
  assert (H : @PointGroup_init collaborator (heap_of [C4z; C2z]) [0; 1]%nat
              = Raise (GroupTheoryError MissingIdentity))
    by (apply raised; vm_compute; reflexivity).
  exact (proj1 (@construction_raises_only collaborator (heap_of [C4z; C2z])
                  [0; 1]%nat _ H)).
Defined.

Lemma flags_are_never_cleared_witness :
  exists suffix,
    name (heap (constructed [E; mkOp (Reflection (0, 1, 0)%Z)
                                     (diag 1 (-1) 1) None None true])
               1%nat)
    = Some ("sigma_h" ++ suffix).
Proof.
  assert (H : @PointGroup_init collaborator
                (heap_of [E; mkOp (Reflection (0, 1, 0)%Z)
                                  (diag 1 (-1) 1) None None true])
                [0; 1]%nat
              = Ok (constructed [E; mkOp (Reflection (0, 1, 0)%Z)
                                         (diag 1 (-1) 1) None None true]))
    by (apply constructed_ok; [reflexivity|]; vm_compute; reflexivity).
  apply (@flags_are_never_cleared collaborator _ _ _ 1%nat H).
  - reflexivity.
  - simpl. auto.
  - reflexivity.
Defined.

End ExactErrors.

(** ** Constructions do not depend on the addresses of the operations *)

Section MappedLists.

Context {A B : Type} (f : A -> B).

Lemma filter_map_commute (p : A -> bool) (q : B -> bool) l :
  (forall x, q (f x) = p x) -> filter q (map f l) = map f (filter p l).
Proof.
  intros H. induction l as [|x t IH]; simpl; [reflexivity|].
  rewrite H, IH. destruct (p x); reflexivity.
Qed.

Lemma find_map_commute (p : A -> bool) (q : B -> bool) l :
  (forall x, q (f x) = p x) -> find q (map f l) = option_map f (find p l).
Proof.
  intros H. induction l as [|x t IH]; simpl; [reflexivity|].
  rewrite H, IH. destruct (p x); reflexivity.
Qed.

Lemma existsb_map_commute (p : A -> bool) (q : B -> bool) l :
  (forall x, q (f x) = p x) -> existsb q (map f l) = existsb p l.
Proof.
  intros H. induction l as [|x t IH]; simpl; [reflexivity|].
  rewrite H, IH. reflexivity.
Qed.

Lemma count_map_commute (p : A -> bool) (q : B -> bool) l :
  (forall x, q (f x) = p x) ->
  List.length (filter q (map f l)) = List.length (filter p l).
Proof.
  intros H. rewrite (filter_map_commute p q l H). apply length_map.
Qed.

Lemma insert_map_commute (lt : A -> A -> bool) (lt' : B -> B -> bool) x l :
  (forall a b, lt' (f a) (f b) = lt a b) ->
  insert lt' (f x) (map f l) = map f (insert lt x l).
Proof.
  intros H. induction l as [|y t IH]; simpl; [reflexivity|].
  rewrite H, IH. destruct (lt x y); reflexivity.
Qed.

Lemma sort_by_map_commute (lt : A -> A -> bool) (lt' : B -> B -> bool) l :
  (forall a b, lt' (f a) (f b) = lt a b) ->
  sort_by lt' (map f l) = map f (sort_by lt l).
Proof.
  intros H. unfold sort_by.
  change (@nil B) with (map f []). generalize (@nil A).
  induction l as [|x t IH]; intros acc; simpl; [reflexivity|].
  rewrite (insert_map_commute _ _ _ _ H). apply IH.
Qed.

Lemma groupby_map_commute (k : A -> A -> bool) (k' : B -> B -> bool) l :
  (forall a b, k' (f a) (f b) = k a b) ->
  groupby k' (map f l) = map (map f) (groupby k l).
Proof.
  intros H. induction l as [|x t IH]; simpl; [reflexivity|].
  rewrite IH. destruct (groupby k t) as [|[|y g] gs]; simpl; try reflexivity.
  rewrite H. destruct (k x y); reflexivity.
Qed.

End MappedLists.

Section Relocation.

Context {C : Collaborator}.

Variable rho : ref -> ref.

Hypothesis rho_injective : forall a b, rho a = rho b -> a = b.

Hypothesis op_lt_relocate :
  forall a b, op_lt (relocate rho a) (relocate rho b) = op_lt a b.

Hypothesis is_dihedral_relocate :
  forall h h' l r, relocated_heap rho h h' ->
                   is_dihedral h' (map rho l) (rho r) = is_dihedral h l r.

Local Abbreviation relocated := (relocated rho).
Local Abbreviation simulates := (simulates rho).

Lemma eqb_rho a b : Nat.eqb (rho a) (rho b) = Nat.eqb a b.
Proof.
  destruct (Nat.eqb_spec a b) as [->|Hne].
  - apply Nat.eqb_refl.
  - apply Nat.eqb_neq. intros H. apply Hne, rho_injective, H.
Qed.

(** *** The monad *)

Lemma sim_ret {A B} (RA : A -> B -> Prop) a b :
  RA a b -> simulates RA (ret a) (ret b).
Proof. intros H s s' R. simpl. auto. Qed.

Lemma sim_raise {A B} (RA : A -> B -> Prop) e :
  simulates RA (raise e) (raise e).
Proof. intros s s' R. reflexivity. Qed.

Lemma sim_bind {A B A' B'} (RA : A -> A' -> Prop) (RB : B -> B' -> Prop)
      (m : M A) (m' : M A') (k : A -> M B) (k' : A' -> M B') :
  simulates RA m m' ->
  (forall a a', RA a a' -> simulates RB (k a) (k' a')) ->
  simulates RB (bind m k) (bind m' k').
Proof.
  intros Hm Hk s s' R. unfold bind. specialize (Hm s s' R).
  unfold same_outcome in Hm.
  destruct (m s) as [[a t]|e], (m' s') as [[a' t']|e']; try contradiction.
  - destruct Hm as [Ha Rt]. exact (Hk a a' Ha t t' Rt).
  - exact Hm.
Qed.

Lemma sim_get_bind {B B'} (RB : B -> B' -> Prop)
      (k : State -> M B) (k' : State -> M B') :
  (forall s s', relocated s s' -> simulates RB (k s) (k' s')) ->
  simulates RB (bind get k) (bind get k').
Proof. intros Hk s s' R. unfold bind, get. exact (Hk s s' R s s' R). Qed.

Lemma sim_for_each {A B} (f : A -> B) (body : A -> M unit)
      (body' : B -> M unit) l :
  (forall x, In x l -> simulates eq (body x) (body' (f x))) ->
  simulates eq (for_each l body) (for_each (map f l) body').
Proof.
  induction l as [|x t IH]; intros Hb; simpl.
  - apply sim_ret. reflexivity.
  - apply (sim_bind eq); [apply Hb; left; reflexivity|].
    intros _ _ _. apply IH. intros y Hy. apply Hb. right. exact Hy.
Qed.

(** *** The objects *)

Section Objects.

Variables s s' : State.
Hypothesis R : relocated s s'.

Lemma kind_relocated r : kind (heap s' (rho r)) = kind (heap s r).
Proof. rewrite (relocated_objects _ _ _ R). reflexivity. Qed.

Lemma matrix_relocated r : matrix (heap s' (rho r)) = matrix (heap s r).
Proof. rewrite (relocated_objects _ _ _ R). reflexivity. Qed.

Lemma name_relocated r : name (heap s' (rho r)) = name (heap s r).
Proof. rewrite (relocated_objects _ _ _ R). reflexivity. Qed.

Lemma flag_relocated r :
  principal_reflection (heap s' (rho r)) = principal_reflection (heap s r).
Proof. rewrite (relocated_objects _ _ _ R). reflexivity. Qed.

Lemma inverse_relocated r :
  inverse (heap s' (rho r)) = option_map rho (inverse (heap s r)).
Proof. rewrite (relocated_objects _ _ _ R). reflexivity. Qed.

Lemma op_n_relocated r : op_n (heap s' (rho r)) = op_n (heap s r).
Proof. apply op_n_kind, kind_relocated. Qed.

Lemma op_exponent_relocated r :
  op_exponent (heap s' (rho r)) = op_exponent (heap s r).
Proof. apply op_exponent_kind, kind_relocated. Qed.

Lemma op_axis_relocated r : op_axis (heap s' (rho r)) = op_axis (heap s r).
Proof. apply op_axis_kind, kind_relocated. Qed.

Lemma op_eq_relocated a b :
  op_eq (heap s') (rho a) (rho b) = op_eq (heap s) a b.
Proof. unfold op_eq. rewrite !matrix_relocated. reflexivity. Qed.

Lemma rotations_relocated : rotations s' = map rho (rotations s).
Proof.
  unfold rotations. rewrite (relocated_operations _ _ _ R).
  apply filter_map_commute. intros x. apply kind_is_rotation, kind_relocated.
Qed.

Lemma improper_rotations_relocated :
  improper_rotations s' = map rho (improper_rotations s).
Proof.
  unfold improper_rotations. rewrite (relocated_operations _ _ _ R).
  apply filter_map_commute. intros x.
  apply kind_is_improper_rotation, kind_relocated.
Qed.

Lemma reflections_relocated : reflections s' = map rho (reflections s).
Proof.
  unfold reflections. rewrite (relocated_operations _ _ _ R).
  apply filter_map_commute. intros x. apply kind_is_reflection, kind_relocated.
Qed.

Lemma inversion_relocated : inversion s' = option_map rho (inversion s).
Proof.
  unfold inversion. rewrite (relocated_operations _ _ _ R).
  apply find_map_commute. intros x. apply kind_is_inversion, kind_relocated.
Qed.

Lemma sorted_relocated l :
  sorted (heap s') (map rho l) = map rho (sorted (heap s) l).
Proof.
  unfold sorted. apply sort_by_map_commute. intros a b.
  rewrite !(relocated_objects _ _ _ R). apply op_lt_relocate.
Qed.

Lemma same_n_relocated a b :
  same_n (heap s') (rho a) (rho b) = same_n (heap s) a b.
Proof. unfold same_n. rewrite !op_n_relocated. reflexivity. Qed.

Lemma same_n_exponent_relocated a b :
  same_n_exponent (heap s') (rho a) (rho b) = same_n_exponent (heap s) a b.
Proof.
  unfold same_n_exponent. rewrite !op_n_relocated, !op_exponent_relocated.
  reflexivity.
Qed.

Lemma principal_rotations_relocated :
  principal_rotations s' = map rho (principal_rotations s).
Proof.
  unfold principal_rotations.
  rewrite rotations_relocated, sorted_relocated,
    (groupby_map_commute rho (same_n_exponent (heap s)) _ _
       same_n_exponent_relocated).
  destruct (groupby _ _); reflexivity.
Qed.

Lemma num_C_n_axes_relocated n : num_C_n_axes s' n = num_C_n_axes s n.
Proof.
  unfold num_C_n_axes. rewrite rotations_relocated.
  apply count_map_commute. intros x.
  rewrite op_n_relocated, op_exponent_relocated. reflexivity.
Qed.

Lemma count_perpendicular_C2_relocated axis :
  count_perpendicular_C2 s' axis = count_perpendicular_C2 s axis.
Proof.
  unfold count_perpendicular_C2. rewrite rotations_relocated.
  apply count_map_commute. intros x.
  rewrite op_n_relocated, op_axis_relocated. reflexivity.
Qed.

Lemma any_principal_reflection_relocated :
  any_principal_reflection s' = any_principal_reflection s.
Proof.
  unfold any_principal_reflection. rewrite reflections_relocated.
  apply existsb_map_commute. intros x. apply flag_relocated.
Qed.

Lemma inverse_differs_relocated x y :
  inverse_differs (heap s') (rho x) (rho y) = inverse_differs (heap s) x y.
Proof.
  unfold inverse_differs. rewrite inverse_relocated.
  destruct (inverse (heap s x)) as [k|]; simpl; [|reflexivity].
  rewrite op_eq_relocated. reflexivity.
Qed.

Lemma class_contains_relocated cl x :
  class_contains (heap s') ((relocate_class rho) cl) (rho x)
  = class_contains (heap s) cl x.
Proof.
  unfold class_contains. unfold relocate_class; cbn [elements].
  apply existsb_map_commute. intros y. apply op_eq_relocated.
Qed.

Lemma add_element_relocated cl x :
  add_element (heap s') ((relocate_class rho) cl) (rho x)
  = (relocate_class rho) (add_element (heap s) cl x).
Proof.
  unfold add_element. rewrite class_contains_relocated.
  destruct (class_contains (heap s) cl x); [reflexivity|].
  unfold relocate_class. cbn [elements]. rewrite map_app.
  reflexivity.
Qed.

Lemma add_to_class_relocated k x cls :
  add_to_class (heap s') k (rho x) (map (relocate_class rho) cls)
  = map (relocate_class rho) (add_to_class (heap s) k x cls).
Proof.
  revert k. induction cls as [|cl t IH]; intros [|k']; simpl;
    try reflexivity.
  - rewrite add_element_relocated. reflexivity.
  - rewrite IH. reflexivity.
Qed.

Lemma classes_of_relocated op cls :
  forall k, classes_of (heap s') (rho op) k (map (relocate_class rho) cls)
            = classes_of (heap s) op k cls.
Proof.
  induction cls as [|cl t IH]; intros k; simpl; [reflexivity|].
  rewrite class_contains_relocated, !IH. reflexivity.
Qed.

Lemma first_element_relocated cl :
  first_element (heap s') ((relocate_class rho) cl)
  = option_map rho (first_element (heap s) cl).
Proof.
  unfold first_element. unfold relocate_class; cbn [elements].
  rewrite sorted_relocated. destruct (sorted (heap s) (elements cl));
    reflexivity.
Qed.

Lemma class_lt_relocated c1 c2 :
  class_lt (heap s') ((relocate_class rho) c1) ((relocate_class rho) c2)
  = class_lt (heap s) c1 c2.
Proof.
  unfold class_lt. rewrite !first_element_relocated.
  destruct (first_element (heap s) c1) as [a|]; simpl; [|reflexivity].
  destruct (first_element (heap s) c2) as [b|]; simpl; [|reflexivity].
  rewrite !(relocated_objects _ _ _ R). apply op_lt_relocate.
Qed.

End Objects.

(** *** The primitives *)

Lemma relocated_upd s s' r o o' :
  relocated s s' -> o' = relocate rho o ->
  relocated
    (mkState (upd (heap s) r o) (operations s) (classes s) (pg_name s)
             (_generate_elements s) (_identity_element s))
    (mkState (upd (heap s') (rho r) o') (operations s')
             (classes s') (pg_name s') (_generate_elements s')
             (_identity_element s')).
Proof.
  intros R ->. constructor; cbn [heap operations classes pg_name
                                  _generate_elements _identity_element];
    try apply R.
  intros x. unfold upd. rewrite eqb_rho.
  destruct (Nat.eqb x r); [reflexivity|apply R].
Qed.

Lemma sim_set_inverse r v :
  simulates eq (set_inverse r v) (set_inverse (rho r) (rho v)).
Proof.
  intros s s' R. unfold set_inverse, same_outcome. split; [reflexivity|].
  rewrite (relocated_objects _ _ _ R r).
  apply relocated_upd; [exact R|reflexivity].
Qed.

Lemma sim_set_name r v : simulates eq (set_name r v) (set_name (rho r) v).
Proof.
  intros s s' R. unfold set_name, same_outcome. split; [reflexivity|].
  rewrite (relocated_objects _ _ _ R r).
  apply relocated_upd; [exact R|reflexivity].
Qed.

Lemma sim_set_principal_reflection r :
  simulates eq (set_principal_reflection r)
            (set_principal_reflection (rho r)).
Proof.
  intros s s' R. unfold set_principal_reflection, same_outcome.
  split; [reflexivity|].
  rewrite (relocated_objects _ _ _ R r).
  apply relocated_upd; [exact R|reflexivity].
Qed.

Lemma sim_set_classes cls :
  simulates eq (set_classes cls) (set_classes (map (relocate_class rho) cls)).
Proof.
  intros s s' R. unfold set_classes, same_outcome. split; [reflexivity|].
  constructor; cbn [with_classes heap operations classes pg_name
                      _generate_elements _identity_element];
    try apply R; try reflexivity.
Qed.

Lemma sim_set_pg_name v : simulates eq (set_pg_name v) (set_pg_name v).
Proof.
  intros s s' R. unfold set_pg_name, same_outcome. split; [reflexivity|].
  constructor; cbn [heap operations classes pg_name
                      _generate_elements _identity_element];
    try apply R; try reflexivity.
Qed.

Lemma sim_sort_operations : simulates eq sort_operations sort_operations.
Proof.
  intros s s' R. unfold sort_operations, same_outcome. split; [reflexivity|].
  constructor; cbn [heap operations classes pg_name
                      _generate_elements _identity_element];
    try apply R.
  rewrite (relocated_operations _ _ _ R). apply sorted_relocated. exact R.
Qed.

Lemma sim_identity_element :
  simulates (moved rho) identity_element identity_element.
Proof.
  intros s s' R. unfold identity_element.
  rewrite (relocated_identity _ _ _ R).
  destruct (_identity_element s) as [e|]; simpl.
  { split; [reflexivity|exact R]. }
  rewrite (relocated_operations _ _ _ R),
    (find_map_commute rho (fun r => is_identity (heap s r))).
  - destruct (find _ (operations s)) as [e|]; simpl; [|reflexivity].
    split; [reflexivity|].
    constructor; cbn [heap operations classes pg_name
                        _generate_elements _identity_element];
      try apply R; try reflexivity.
  - intros x. apply kind_is_identity, kind_relocated. exact R.
Qed.

Lemma sim_element_with_matrix mat :
  simulates (moved rho) (element_with_matrix mat) (element_with_matrix mat).
Proof.
  intros s s' R. unfold element_with_matrix.
  rewrite (relocated_operations _ _ _ R),
    (find_map_commute rho
       (fun r => is_same_matrix (matrix (heap s r)) mat)).
  - destruct (find _ (operations s)) as [e|]; simpl; [|reflexivity].
    split; [reflexivity|exact R].
  - intros x. rewrite (matrix_relocated _ _ R). reflexivity.
Qed.

Lemma sim_mul a b : simulates (moved rho) (mul a b) (mul (rho a) (rho b)).
Proof.
  unfold mul. apply sim_get_bind. intros s s' R.
  rewrite !(matrix_relocated _ _ R). apply sim_element_with_matrix.
Qed.

(** *** The closure check and the classes *)

Lemma sim_check_pair iop jop :
  simulates eq (check_pair iop jop) (check_pair (rho iop) (rho jop)).
Proof.
  unfold check_pair.
  apply (sim_bind (moved rho)); [apply sim_mul|]. intros p p' ->.
  apply (sim_bind (moved rho)); [apply sim_identity_element|].
  intros e e' ->. apply sim_get_bind. intros s s' R.
  rewrite (op_eq_relocated _ _ R), !(inverse_differs_relocated _ _ R).
  destruct (op_eq (heap s) p e); [|apply sim_ret; reflexivity].
  destruct (_ || _); [apply sim_raise|].
  apply (sim_bind eq); [apply sim_set_inverse|].
  intros _ _ _. apply sim_set_inverse.
Qed.

Lemma sim__check_closure : simulates eq _check_closure _check_closure.
Proof.
  unfold _check_closure. apply sim_get_bind. intros s s' R.
  rewrite (relocated_operations _ _ _ R). apply sim_for_each.
  intros iop _. apply sim_get_bind. intros t t' Rt.
  rewrite (relocated_operations _ _ _ Rt). apply sim_for_each.
  intros jop _. apply sim_check_pair.
Qed.

Lemma sim_conjugate g op :
  simulates (moved rho) (conjugate g op) (conjugate (rho g) (rho op)).
Proof.
  unfold conjugate.
  apply (sim_bind (moved rho)); [apply sim_mul|]. intros x x' ->.
  apply sim_get_bind. intros s s' R. rewrite (inverse_relocated _ _ R).
  destruct (inverse (heap s g)) as [gi|]; simpl.
  - apply sim_mul.
  - apply sim_raise.
Qed.

Lemma sim_class_step op :
  simulates eq (class_step op) (class_step (rho op)).
Proof.
  unfold class_step. apply sim_get_bind. intros s s' R.
  rewrite (relocated_classes _ _ _ R), (classes_of_relocated _ _ R),
    (relocated_operations _ _ _ R).
  apply (sim_bind eq).
  - destruct (classes_of (heap s) op 0 (classes s)) as [|k [|k2 l]].
    + apply (sim_bind eq).
      * pose proof (sim_set_classes (classes s ++ [mkClass [op]])) as H.
        rewrite map_app in H. exact H.
      * intros _ _ _. apply sim_ret. symmetry. apply length_map.
    + apply sim_ret. reflexivity.
    + apply sim_raise.
  - intros k k' <-. apply sim_for_each. intros g _.
    rewrite eqb_rho. destruct (Nat.eqb g op); [apply sim_ret; reflexivity|].
    apply (sim_bind (moved rho)); [apply sim_conjugate|]. intros x x' ->.
    apply sim_get_bind. intros t t' Rt.
    rewrite (relocated_classes _ _ _ Rt), (add_to_class_relocated _ _ Rt).
    apply sim_set_classes.
Qed.

Lemma sim__compute_classes : simulates eq _compute_classes _compute_classes.
Proof.
  unfold _compute_classes. apply sim_get_bind. intros s s' R.
  rewrite (relocated_operations _ _ _ R). apply sim_for_each.
  intros op _. apply sim_class_step.
Qed.

(** *** The names *)

Lemma sim_flag_if_same_axis rot op :
  simulates eq (flag_if_same_axis rot op)
            (flag_if_same_axis (rho rot) (rho op)).
Proof.
  unfold flag_if_same_axis. apply sim_get_bind. intros s s' R.
  rewrite !(op_axis_relocated _ _ R).
  destruct (is_same_axis _ _).
  - apply sim_set_principal_reflection.
  - apply sim_ret. reflexivity.
Qed.

Lemma sim_flag_principal_reflections :
  simulates eq flag_principal_reflections flag_principal_reflections.
Proof.
  unfold flag_principal_reflections. apply sim_get_bind. intros s s' R.
  rewrite (principal_rotations_relocated _ _ R).
  destruct (principal_rotations s) as [|rot0 rest]; cbn [map].
  { apply sim_ret. reflexivity. }
  rewrite (op_n_relocated _ _ R), (reflections_relocated _ _ R).
  destruct (Z.ltb 2 (op_n (heap s rot0))).
  - apply (sim_for_each rho _ _ (rot0 :: rest)). intros rot _.
    apply sim_for_each. intros op _. apply sim_flag_if_same_axis.
  - rewrite (find_map_commute rho
               (fun op => is_same_axis (op_axis (heap s op))
                                       (op_axis (heap s rot0)))).
    + destruct (find _ (reflections s)) as [op|]; simpl.
      * apply sim_set_principal_reflection.
      * apply sim_ret. reflexivity.
    + intros x. rewrite !(op_axis_relocated _ _ R). reflexivity.
Qed.

Lemma sim_name_axes prefix ydir order naxes rotgrp :
  forall i prime_count labels has_paren_label,
    simulates eq
      (name_axes prefix ydir order naxes rotgrp i prime_count labels
                 has_paren_label)
      (name_axes prefix ydir order naxes (map rho rotgrp) i prime_count
                 labels has_paren_label).
Proof.
  induction rotgrp as [|rot t IH]; intros i pc labels hpl; cbn [map name_axes].
  { apply sim_ret. reflexivity. }
  apply sim_get_bind. intros s s' R.
  rewrite !(op_axis_relocated _ _ R), (op_exponent_relocated _ _ R).
  destruct (Nat.ltb i naxes).
  - repeat match goal with
           | |- context [if is_same_axis ?a ?b then _ else _] =>
               destruct (is_same_axis a b)
           end;
      (apply (sim_bind eq); [apply sim_set_name|intros _ _ _; apply IH]).
  - destruct naxes as [|n']; [apply sim_raise|].
    destruct (nth_error labels _) as [label|]; [|apply sim_raise].
    apply (sim_bind eq); [apply sim_set_name|intros _ _ _; apply IH].
Qed.

Lemma sim_name_group prefix ydir rotgrp :
  simulates eq (name_group prefix ydir rotgrp)
            (name_group prefix ydir (map rho rotgrp)).
Proof.
  unfold name_group. destruct rotgrp as [|rot0 rest]; cbn [map].
  { apply sim_raise. }
  apply sim_get_bind. intros s s' R. cbv zeta.
  change (rho rot0 :: map rho rest) with (map rho (rot0 :: rest)).
  rewrite length_map, (op_n_relocated _ _ R).
  destruct (Z.eqb _ _).
  - apply (sim_bind eq); [apply sim_set_name|]. intros _ _ _.
    apply sim_for_each. intros rot _. apply sim_get_bind. intros t t' Rt.
    rewrite (op_exponent_relocated _ _ Rt). apply sim_set_name.
  - rewrite (count_map_commute rho
               (fun x => Z.eqb (op_exponent (heap s x)) 1)).
    + apply sim_name_axes.
    + intros x. rewrite (op_exponent_relocated _ _ R). reflexivity.
Qed.

Lemma sim_name_rotations : simulates eq name_rotations name_rotations.
Proof.
  unfold name_rotations. apply sim_get_bind. intros s s' R.
  rewrite (rotations_relocated _ _ R),
    (groupby_map_commute rho (same_n (heap s)) _ _ (same_n_relocated _ _ R)).
  apply sim_for_each. intros g _. apply sim_name_group.
Qed.

Lemma sim_name_improper_rotations :
  simulates eq name_improper_rotations name_improper_rotations.
Proof.
  unfold name_improper_rotations. apply sim_get_bind. intros s s' R.
  rewrite (improper_rotations_relocated _ _ R),
    (groupby_map_commute rho (same_n (heap s)) _ _ (same_n_relocated _ _ R)).
  apply sim_for_each. intros g _. apply sim_name_group.
Qed.

Lemma sim_name_reflections refs :
  forall prime_count has_paren_label,
    simulates eq (name_reflections refs prime_count has_paren_label)
              (name_reflections (map rho refs) prime_count has_paren_label).
Proof.
  induction refs as [|r t IH]; intros pc hpl; cbn [map name_reflections].
  { apply sim_ret. reflexivity. }
  apply sim_get_bind. intros s s' R. cbv zeta.
  unfold is_principal_reflection.
  rewrite (flag_relocated _ _ R), (relocated_operations _ _ _ R),
    (is_dihedral_relocate (heap s) (heap s') _ _ (relocated_objects _ _ _ R)),
    !(op_axis_relocated _ _ R).
  repeat match goal with
         | |- context [if is_same_axis ?a ?b then _ else _] =>
             destruct (is_same_axis a b)
         end;
    (apply (sim_bind eq); [apply sim_set_name|intros _ _ _; apply IH]).
Qed.

Lemma sim_sort_classes : simulates eq sort_classes sort_classes.
Proof.
  unfold sort_classes. apply sim_get_bind. intros s s' R.
  rewrite (relocated_classes _ _ _ R),
    (sort_by_map_commute (relocate_class rho) (class_lt (heap s)) _ _
       (class_lt_relocated _ _ R)).
  apply sim_set_classes.
Qed.

Lemma sim__name_operations : simulates eq _name_operations _name_operations.
Proof.
  unfold _name_operations.
  apply (sim_bind eq); [apply sim_flag_principal_reflections|intros _ _ _].
  apply (sim_bind eq); [apply sim_sort_operations|intros _ _ _].
  apply (sim_bind (moved rho)); [apply sim_identity_element|intros e e' ->].
  apply (sim_bind eq); [apply sim_set_name|intros _ _ _].
  apply sim_get_bind. intros s s' R.
  apply (sim_bind eq).
  { rewrite (inversion_relocated _ _ R).
    destruct (inversion s) as [i|]; simpl.
    - apply sim_set_name.
    - apply sim_ret. reflexivity. }
  intros _ _ _.
  apply (sim_bind eq); [apply sim_name_rotations|intros _ _ _].
  apply (sim_bind eq); [apply sim_name_improper_rotations|intros _ _ _].
  apply sim_get_bind. intros t t' Rt.
  apply (sim_bind eq); [|intros _ _ _; apply sim_sort_classes].
  rewrite (reflections_relocated _ _ Rt). apply sim_name_reflections.
Qed.

(** *** The name of the group *)

Lemma sim__get_name : simulates eq _get_name _get_name.
Proof.
  unfold _get_name, unclassifiable. apply sim_get_bind. intros s s' R.
  cbv zeta.
  rewrite !(num_C_n_axes_relocated _ _ R), (inversion_relocated _ _ R),
    (any_principal_reflection_relocated _ _ R),
    (reflections_relocated _ _ R), (improper_rotations_relocated _ _ R),
    (rotations_relocated _ _ R), (relocated_operations _ _ _ R), !length_map.
  rewrite (count_map_commute rho
             (fun rot => Z.ltb 2 (op_n (heap s rot))
                         && Z.eqb (op_exponent (heap s rot)) 1))
    by (intros x; rewrite (op_n_relocated _ _ R),
                    (op_exponent_relocated _ _ R); reflexivity).
  destruct (Nat.leb 2 _).
  - destruct (inversion s); cbn [option_map];
      repeat match goal with
             | |- simulates _ (if ?b then _ else _) _ => destruct b
             end;
      first [apply sim_set_pg_name | apply sim_raise].
  - destruct (rotations s) as [|hc rest]; cbn [map].
    + destruct (inversion s); cbn [option_map];
        repeat match goal with
               | |- simulates _ (if ?b then _ else _) _ => destruct b
               end;
        first [apply sim_set_pg_name | apply sim_raise].
    + fold (rotations s').
      rewrite (op_n_relocated _ _ R), (op_axis_relocated _ _ R).
      unfold count_perpendicular_C2.
      rewrite (rotations_relocated _ _ R).
      rewrite (count_map_commute rho
                 (fun rot => Z.eqb (op_n (heap s rot)) 2
                             && is_perpendicular (op_axis (heap s hc))
                                                 (op_axis (heap s rot))))
        by (intros x; rewrite (op_n_relocated _ _ R),
                        (op_axis_relocated _ _ R); reflexivity).
      rewrite (existsb_map_commute rho
                 (fun irot => Z.eqb (op_n (heap s irot))
                                    (2 * op_n (heap s hc))))
        by (intros x; rewrite (op_n_relocated _ _ R); reflexivity).
      repeat match goal with
             | |- simulates _ (if ?b then _ else _) _ => destruct b
             end;
        first [apply sim_set_pg_name | apply sim_raise].
Qed.

Lemma sim_construction :
  simulates eq
    (bind _check_closure (fun _ =>
       bind _compute_classes (fun _ =>
         bind _name_operations (fun _ => _get_name))))
    (bind _check_closure (fun _ =>
       bind _compute_classes (fun _ =>
         bind _name_operations (fun _ => _get_name)))).
Proof.
  apply (sim_bind eq); [apply sim__check_closure|intros _ _ _].
  apply (sim_bind eq); [apply sim__compute_classes|intros _ _ _].
  apply (sim_bind eq); [apply sim__name_operations|intros _ _ _].
  apply sim__get_name.
Qed.

End Relocation.

Section RelocationTheorem.

Context {C : Collaborator}.

(** C8: two constructions from the same operations, given in the same
    order and in the same state when each construction starts, end alike,
    whether the operations are held by the same objects or by copies at
    other addresses of the heap (the references between them moved along):
    with the same exception, or with the same name for each operation, the
    same order of the operations and the same name of the group.  The
    order of the operations and [is_dihedral] are taken to read the
    operations, not their addresses. *)
Theorem names_do_not_depend_on_addresses (rho : ref -> ref) (h h' : Heap)
        (ops : list ref) :
  (forall a b, rho a = rho b -> a = b) ->
  (forall a b, op_lt (relocate rho a) (relocate rho b) = op_lt a b) ->
  (forall g g' l r, relocated_heap rho g g' ->
                    is_dihedral g' (map rho l) (rho r) = is_dihedral g l r) ->
  relocated_heap rho h h' ->
  names_shown (map rho ops) (PointGroup_init h' (map rho ops))
  = names_shown ops (PointGroup_init h ops).
Proof.
  intros Hinj Hlt Hdi Hh.
  assert (R0 : relocated rho (new_point_group h ops)
                         (new_point_group h' (map rho ops))).
  { constructor; cbn [new_point_group heap operations classes pg_name
                        _generate_elements _identity_element];
      try reflexivity. exact Hh. }
  pose proof (sim_construction rho Hinj Hlt Hdi _ _ R0) as S.
  unfold PointGroup_init, same_outcome in *.
  destruct (bind _ _ (new_point_group h ops)) as [[u s]|e],
           (bind _ _ (new_point_group h' (map rho ops))) as [[u' s']|e'];
    try contradiction.
  - destruct S as [_ R]. unfold names_shown.
    rewrite (relocated_pg_name _ _ _ R), (relocated_operations _ _ _ R),
      !map_map.
    f_equal. f_equal. f_equal.
    + apply map_ext. intros x. apply (name_relocated rho _ _ R).
    + apply map_ext. intros x. apply (name_relocated rho _ _ R).
  - subst e'. reflexivity.
Qed.

End RelocationTheorem.

Section ExactRelocation.

Import Exact.

Lemma dihedral_relocate (rho : ref -> ref) (g g' : ref -> Op V3 M3)
      (l : list ref) (r : ref) :
  @relocated_heap collaborator rho g g' ->
  dihedral g' (map rho l) (rho r) = dihedral g l r.
Proof.
  intros H.
  assert (K : forall x, kind (g' (rho x)) = kind (g x)).
  { intros x. rewrite (H x). reflexivity. }
  unfold dihedral.
  rewrite (filter_map_commute rho
             (fun x => match kind (g x) with
                       | Rotation _ _ _ => true
                       | _ => false
                       end))
    by (intros x; rewrite K; reflexivity).
  destruct (filter _ l) as [|p rots]; [reflexivity|].
  cbn [map]. change (rho p :: map rho rots) with (map rho (p :: rots)).
  rewrite !K.
  rewrite (filter_map_commute rho
             (fun x => (kind_n (kind (g x)) =? 2)%Z
                       && perpendicular (kind_axis (kind (g p)))
                                        (kind_axis (kind (g x)))))
    by (intros x; rewrite K; reflexivity).
  f_equal.
  apply existsb_map_commute. intros a.
  apply existsb_map_commute. intros b. rewrite !K. reflexivity.
Qed.

(** The operations of C_2v at the addresses 0 to 3 and at the addresses 1
    to 4 are given the same names. *)
Lemma names_do_not_depend_on_addresses_witness :
  names_shown (map S [0; 1; 2; 3]%nat)
    (@PointGroup_init collaborator (fun r => heap_of C2v (Nat.pred r))
                      (map S [0; 1; 2; 3]%nat))
  = names_shown [0; 1; 2; 3]%nat
      (@PointGroup_init collaborator (heap_of C2v) [0; 1; 2; 3]%nat).
Proof.
  apply (@names_do_not_depend_on_addresses collaborator S).
  - intros a b H. injection H as H. exact H.
  - intros a b. reflexivity.
  - intros g g' l r. apply dihedral_relocate.
  - intros r. cbn [Nat.pred].
    destruct r as [|[|[|[|[|r]]]]]; reflexivity.
Defined.

End ExactRelocation.

(** ** The names of the powers of a single axis *)

Section SingleAxis.

Context {C : Collaborator}.

Local Open Scope string_scope.

Lemma name_powers prefix order (l : list ref) :
  forall s, NoDup l ->
  exists s',
    for_each l (fun rot =>
      bind get (fun s0 =>
        set_name rot (prefix ++ str order ++ "^"
                      ++ str (op_exponent (heap s0 rot))))) s
    = Ok (tt, s') /\
    stable s s' /\
    (forall r, In r l ->
       name (heap s' r)
       = Some (prefix ++ str order ++ "^" ++ str (op_exponent (heap s r)))) /\
    (forall x, ~ In x l -> heap s' x = heap s x).
Proof.
  induction l as [|x t IH]; intros s Hnd.
  - exists s. split; [reflexivity|]. split; [apply stable_refl|].
    split; [intros r []|reflexivity].
  - inversion Hnd as [|? ? Hx Ht]; subst.
    cbn [for_each]. unfold bind at 1. unfold bind at 1, get.
    destruct (set_name_ok x (prefix ++ str order ++ "^"
                             ++ str (op_exponent (heap s x))) s)
      as (s1 & E1 & S1).
    rewrite E1. destruct (IH s1 Ht) as (s' & E & S2 & Hn & Hu).
    exists s'. split; [exact E|]. split; [eapply stable_trans; eassumption|].
    assert (U1 : forall y, y <> x -> heap s1 y = heap s y).
    { intros y Hy. inversion E1. cbn [heap]. unfold upd.
      destruct (Nat.eqb_spec y x); [contradiction|reflexivity]. }
    split.
    + intros r [<-|Hr].
      * rewrite (Hu x Hx). apply (set_name_at _ _ _ _ E1).
      * rewrite (Hn r Hr). do 5 f_equal.
        apply op_exponent_kind. apply S1.
    + intros y Hy. rewrite Hu by (intros H; apply Hy; right; exact H).
      apply U1. intros ->. apply Hy. left. reflexivity.
Qed.

(** The operations of one order that are as many as the order less one,
    the powers of a single axis, are named after the order alone: the first
    "C_n" (or "S_n"), each of the others "C_n^k" with its exponent k; no
    other object is written to. *)
Theorem single_axis_names (prefix : string) (ydir : Vec) (rot0 : ref)
        (rest : list ref) (s : State) :
  Z.of_nat (List.length (rot0 :: rest)) = (op_n (heap s rot0) - 1)%Z ->
  NoDup (rot0 :: rest) ->
  exists s',
    name_group prefix ydir (rot0 :: rest) s = Ok (tt, s') /\
    name (heap s' rot0) = Some (prefix ++ str (op_n (heap s rot0))) /\
    (forall r, In r rest ->
       name (heap s' r)
       = Some (prefix ++ str (op_n (heap s rot0)) ++ "^"
               ++ str (op_exponent (heap s r)))) /\
    (forall x, ~ In x (rot0 :: rest) -> heap s' x = heap s x).
Proof.
  intros Hlen Hnd. inversion Hnd as [|? ? H0 Hrest]; subst.
  unfold name_group. unfold bind at 1, get. cbv zeta.
  rewrite (proj2 (Z.eqb_eq _ _) Hlen). unfold bind at 1.
  destruct (set_name_ok rot0 (prefix ++ str (op_n (heap s rot0))) s)
    as (s1 & E1 & S1).
  rewrite E1.
  destruct (name_powers prefix (op_n (heap s rot0)) rest s1 Hrest)
    as (s' & E & S2 & Hn & Hu).
  exists s'. split; [exact E|].
  assert (U1 : forall y, y <> rot0 -> heap s1 y = heap s y).
  { intros y Hy. inversion E1. cbn [heap]. unfold upd.
    destruct (Nat.eqb_spec y rot0); [contradiction|reflexivity]. }
  split; [|split].
  - rewrite (Hu rot0 H0). apply (set_name_at _ _ _ _ E1).
  - intros r Hr. rewrite (Hn r Hr). do 5 f_equal.
    apply op_exponent_kind. apply S1.
  - intros y Hy. rewrite Hu by (intros H; apply Hy; right; exact H).
    apply U1. intros ->. apply Hy. left. reflexivity.
Qed.

End SingleAxis.

(** ** The classes of any list of operations *)

Section AnyClasses.

Context {C : Collaborator}.

Variable ops : list ref.

Local Abbreviation classes_grow := (classes_grow ops).

Lemma classes_grow_refl s : classes_grow s s.
Proof.
  split; [reflexivity|]. split; [reflexivity|]. split; [auto|auto].
Qed.

Lemma classes_grow_trans s1 s2 s3 :
  classes_grow s1 s2 -> classes_grow s2 s3 -> classes_grow s1 s3.
Proof.
  intros (H1 & O1 & I1 & K1) (H2 & O2 & I2 & K2).
  split; [congruence|]. split; [congruence|]. split.
  - intros Ho Hi. apply I2; [congruence|]. apply I1; assumption.
  - intros op Hc. apply K2, K1, Hc.
Qed.

Lemma conjugate_grow g op : preserves classes_grow (conjugate g op).
Proof.
  intros s r s' H. apply conjugate_state in H. subst. apply classes_grow_refl.
Qed.

Lemma conjugate_member g op s x s' :
  conjugate g op s = Ok (x, s') -> In x (operations s).
Proof.
  unfold conjugate. intros H.
  apply bind_ok in H. destruct H as (y & s1 & H1 & H2).
  apply mul_ok in H1. destruct H1 as (-> & _ & _).
  unfold bind at 1, get in H2.
  destruct (inverse (heap s g)); [|discriminate].
  apply mul_ok in H2. tauto.
Qed.

Lemma add_element_elements h cl x z :
  In z (elements (add_element h cl x)) -> In z (elements cl) \/ z = x.
Proof.
  unfold add_element. destruct (class_contains h cl x); [auto|].
  cbn [elements]. intros H. apply in_app_or in H.
  destruct H as [H|[H|[]]]; auto.
Qed.

Lemma add_element_keeps h cl x z :
  In z (elements cl) -> In z (elements (add_element h cl x)).
Proof.
  unfold add_element. destruct (class_contains h cl x); [auto|].
  cbn [elements]. intros H. apply in_or_app. left. exact H.
Qed.

Lemma add_element_contains h cl x y :
  class_contains h cl y = true ->
  class_contains h (add_element h cl x) y = true.
Proof.
  unfold add_element. destruct (class_contains h cl x); [auto|].
  unfold class_contains. cbn [elements]. rewrite existsb_app.
  intros ->. reflexivity.
Qed.

Lemma add_to_class_inside h k x cls :
  In x ops -> classes_inside ops cls ->
  classes_inside ops (add_to_class h k x cls).
Proof.
  intros Hx. revert k. induction cls as [|cl t IH]; intros [|k'] Hi;
    cbn [add_to_class]; try exact Hi.
  - intros c [<-|Hc].
    + destruct (Hi cl (or_introl eq_refl)) as [Hne Hin]. split.
      * intros E. apply Hne.
        destruct (elements cl) as [|a l] eqn:El; [reflexivity|].
        pose proof (add_element_keeps h cl x a) as Hk.
        rewrite El, E in Hk. destruct Hk. left. reflexivity.
      * intros z Hz. apply add_element_elements in Hz.
        destruct Hz as [Hz| ->]; auto.
    + apply Hi. right. exact Hc.
  - intros c [<-|Hc].
    + apply Hi. left. reflexivity.
    + apply (IH k' (fun c Hc => Hi c (or_intror Hc))). exact Hc.
Qed.

Lemma add_to_class_classified h k x cls op :
  classified h cls op -> classified h (add_to_class h k x cls) op.
Proof.
  revert k. induction cls as [|cl t IH]; intros [|k'] (c & Hc & Hop);
    cbn [add_to_class]; try (exists c; split; assumption).
  - destruct Hc as [<-|Hc].
    + exists (add_element h cl x). split; [left; reflexivity|].
      destruct Hop as [Hop|Hop];
        [left; apply add_element_keeps|right; apply add_element_contains];
        exact Hop.
    + exists c. split; [right; exact Hc|exact Hop].
  - destruct Hc as [<-|Hc].
    + exists cl. split; [left; reflexivity|exact Hop].
    + destruct (IH k' (ex_intro _ c (conj Hc Hop))) as (c' & Hc' & Hop').
      exists c'. split; [right; exact Hc'|exact Hop'].
Qed.

Lemma add_conjugate_grow k op g :
  preserves classes_grow
    (if Nat.eqb g op then ret tt
     else bind (conjugate g op) (fun x =>
            bind get (fun s' =>
              set_classes (add_to_class (heap s') k x (classes s'))))).
Proof.
  destruct (Nat.eqb g op).
  { apply (preserves_ret classes_grow_refl). }
  intros s u s' H.
  apply bind_ok in H. destruct H as (x & s1 & H1 & H2).
  pose proof (conjugate_member _ _ _ _ _ H1) as Hx.
  apply conjugate_state in H1. subst s1.
  unfold bind, get, set_classes in H2. inversion H2; subst s'.
  cbn [with_classes]. split; [reflexivity|]. split; [reflexivity|].
  cbn [heap operations classes]. split.
  - intros Ho Hi. apply add_to_class_inside; [congruence|exact Hi].
  - intros y. apply add_to_class_classified.
Qed.

Lemma class_step_grow op s s' :
  In op ops -> class_step op s = Ok (tt, s') ->
  classes_grow s s' /\ classified (heap s') (classes s') op.
Proof.
  intros Hop H. unfold class_step in H. unfold bind at 1, get in H.
  apply bind_ok in H. destruct H as (k & s1 & H1 & H2).
  assert (L : classes_grow s1 s').
  { revert H2. apply preserves_for_each;
      [apply classes_grow_refl|apply classes_grow_trans|].
    intros g _. apply add_conjugate_grow. }
  assert (G1 : classes_grow s s1 /\ classified (heap s1) (classes s1) op).
  { destruct (classes_of (heap s) op 0 (classes s)) as [|k1 [|k2 l]] eqn:Ek.
    - unfold bind, set_classes in H1. inversion H1; subst s1 k.
      cbn [with_classes heap operations classes]. split.
      + split; [reflexivity|]. split; [reflexivity|]. split.
        * intros Ho Hi cl Hcl. apply in_app_or in Hcl.
          destruct Hcl as [Hcl|[<-|[]]]; [apply Hi; exact Hcl|].
          cbn [elements]. split; [discriminate|].
          intros z [<-|[]]. exact Hop.
        * intros y (c & Hc & Hy). exists c. split; [|exact Hy].
          apply in_or_app. left. exact Hc.
      + exists (mkClass [op]). split.
        * apply in_or_app. right. left. reflexivity.
        * left. left. reflexivity.
    - inversion H1; subst s1 k. split; [apply classes_grow_refl|].
      assert (Hk : In k1 (classes_of (heap s) op 0 (classes s))).
      { rewrite Ek. left. reflexivity. }
      apply classes_of_In in Hk. destruct Hk as (cl & Hn & _ & Hc).
      exists cl. split; [apply (nth_error_In _ _ Hn)|right; exact Hc].
    - discriminate. }
  destruct G1 as [G1 K1]. split.
  - eapply classes_grow_trans; eassumption.
  - destruct L as (_ & _ & _ & K). apply K. exact K1.
Qed.

End AnyClasses.

Section AnyClassesTheorem.

Context {C : Collaborator}.

(** Whatever the operations, a group or not, when [_compute_classes] ends
    normally no class is empty, the members of the classes are operations
    of the group, and every operation is in a class, as a member or as the
    equal of a member. *)
Theorem classes_cover_any_operations (s s' : State) :
  classes s = [] ->
  _compute_classes s = Ok (tt, s') ->
  classes_inside (operations s) (classes s') /\
  forall op, In op (operations s) -> classified (heap s) (classes s') op.
Proof.
  intros Hnil H. unfold _compute_classes in H. unfold bind at 1, get in H.
  assert (Hb : forall x, In x (operations s) ->
                 preserves (classes_grow (operations s)) (class_step x)).
  { intros x Hx t [] t' Ht. apply (class_step_grow _ x t t' Hx Ht). }
  split.
  - pose proof (preserves_for_each (classes_grow_refl (operations s))
                  (classes_grow_trans (operations s)) _ _ Hb _ _ _ H)
      as (_ & _ & I & _).
    apply I; [reflexivity|]. rewrite Hnil. intros cl [].
  - intros op Hop.
    destruct (for_each_ran (classes_grow_refl (operations s))
                (classes_grow_trans (operations s)) _ _ _ _ _ Hb H op Hop)
      as (s1 & s2 & R1 & B & R2).
    destruct (class_step_grow _ op s1 s2 Hop B) as [_ K].
    destruct R2 as (E2 & _ & _ & K2).
    destruct R1 as (E1 & _).
    pose proof (class_step_grow _ op s1 s2 Hop B) as [(E12 & _) _].
    rewrite <- E1, <- E12, <- E2. apply K2. exact K.
Qed.

End AnyClassesTheorem.

Section ExactSingleAxis.

Import Exact.
Local Open Scope string_scope.

Lemma single_axis_names_witness :
  exists s',
    name_group "C_" (Vector 0 1 1) [1; 2]%nat
      (@new_point_group collaborator
         (heap_of [E; fresh (Rotation 3 1 (0, 0, 1)%Z) (diag 1 1 1);
                   fresh (Rotation 3 2 (0, 0, 1)%Z) (diag 1 1 1)])
         [0; 1; 2]%nat) = Ok (tt, s') /\
    name (heap s' 1%nat) = Some "C_3" /\
    name (heap s' 2%nat) = Some "C_3^2".
Proof.
  destruct (@single_axis_names collaborator "C_" (Vector 0 1 1) 1%nat [2%nat]
              (@new_point_group collaborator
                 (heap_of [E; fresh (Rotation 3 1 (0, 0, 1)%Z) (diag 1 1 1);
                           fresh (Rotation 3 2 (0, 0, 1)%Z) (diag 1 1 1)])
                 [0; 1; 2]%nat))
    as (s' & F & N0 & N & _).
  - reflexivity.
  - repeat constructor; simpl; intuition discriminate.
  - exists s'. split; [exact F|]. split; [exact N0|].
    apply (N 2%nat). left. reflexivity.
Defined.

Lemma classes_cover_any_operations_witness :
  classes_inside [0; 1; 2; 3]%nat
    (classes (match _compute_classes (closure_checked C2v) with
              | Ok (_, t) => t
              | Raise _ => closure_checked C2v
              end)).
Proof.
  assert (Hnil : classes (closure_checked C2v) = [])
    by (vm_compute; reflexivity).
  assert (Hops : operations (closure_checked C2v) = [0; 1; 2; 3]%nat)
    by (vm_compute; reflexivity).
  destruct (_compute_classes (closure_checked C2v)) as [[[] t]|e] eqn:E.
  - rewrite <- Hops.
    exact (proj1 (@classes_cover_any_operations collaborator
                    (closure_checked C2v) t Hnil E)).
  - rewrite Hnil. intros cl [].
Defined.

End ExactSingleAxis.

(** ** The slots each step writes *)

Section Slots.

Context {C : Collaborator}.

Lemma keeps_names_and_flags_refl s : keeps_names_and_flags s s.
Proof. intros r. split; reflexivity. Qed.

Lemma keeps_names_and_flags_trans s1 s2 s3 :
  keeps_names_and_flags s1 s2 -> keeps_names_and_flags s2 s3 ->
  keeps_names_and_flags s1 s3.
Proof.
  intros H12 H23 r. destruct (H12 r) as [A B], (H23 r) as [A' B'].
  split; congruence.
Qed.

Lemma set_inverse_names_and_flags r v :
  preserves keeps_names_and_flags (set_inverse r v).
Proof.
  intros s u s' H x. unfold set_inverse in H. injection H as _ <-.
  cbn [heap]. unfold upd.
  destruct (Nat.eqb_spec x r) as [->|_]; split; reflexivity.
Qed.

Lemma _check_closure_names_and_flags :
  preserves keeps_names_and_flags _check_closure.
Proof.
  unfold _check_closure, check_pair.
  pose proof set_inverse_names_and_flags.
  assert (forall a b, preserves keeps_names_and_flags (mul a b)).
  { intros a b s r s' Hm. apply mul_state in Hm. subst.
    apply keeps_names_and_flags_refl. }
  assert (preserves keeps_names_and_flags identity_element).
  { intros s e s' Hm x. rewrite (identity_element_heap_same _ _ _ Hm).
    split; reflexivity. }
  frame_with keeps_names_and_flags_refl keeps_names_and_flags_trans; auto.
Qed.

(** The steps of a construction write to separate slots: the closure check
    writes inverse slots only, the names and the flags being what they
    were when it ends, and the inverse slots are never written again, so
    that the inverses of a constructed group are those the closure check
    found. *)
Theorem inverses_are_settled_by_the_closure_check (h : Heap)
        (ops : list ref) (s : State) :
  PointGroup_init h ops = Ok s ->
  exists s1,
    _check_closure (new_point_group h ops) = Ok (tt, s1) /\
    (forall r, name (heap s1 r) = name (h r) /\
               principal_reflection (heap s1 r)
               = principal_reflection (h r)) /\
    (forall r, inverse (heap s r) = inverse (heap s1 r)).
Proof.
  intros H.
  destruct (PointGroup_init_ok _ _ _ H) as (s1 & s2 & s3 & E1 & E2 & E3 & E4).
  exists s1. split; [exact E1|]. split.
  - exact (_check_closure_names_and_flags _ _ _ E1).
  - intros r.
    rewrite (_get_name_inverse _ _ _ E4 r),
      (_name_operations_inverse _ _ _ E3 r),
      (only_classes_heap _ _ (_compute_classes_only_classes _ _ _ E2)).
    reflexivity.
Qed.

End Slots.

Section ExactSlots.

Import Exact.

Lemma inverses_are_settled_by_the_closure_check_witness :
  exists s1,
    _check_closure (@new_point_group collaborator (heap_of C2v)
                                     [0; 1; 2; 3]%nat) = Ok (tt, s1) /\
    inverse (heap (constructed C2v) 1%nat) = inverse (heap s1 1%nat).
Proof.
  destruct (@inverses_are_settled_by_the_closure_check collaborator
              (heap_of C2v) [0; 1; 2; 3]%nat (constructed C2v)
              C2v_constructed) as (s1 & E & _ & I).
  exists s1. split; [exact E|apply I].
Defined.

End ExactSlots.

(** ** The names of the groups with one principal axis *)

Section Axial.

Context {C : Collaborator}.

Lemma only_pg_name_refl s : only_pg_name s s.
Proof. split; reflexivity. Qed.

Lemma only_pg_name_trans s1 s2 s3 :
  only_pg_name s1 s2 -> only_pg_name s2 s3 -> only_pg_name s1 s3.
Proof. intros [A B] [A' B']. split; congruence. Qed.

Lemma set_pg_name_only v : preserves only_pg_name (set_pg_name v).
Proof. intros s u s' H. inversion H; subst. split; reflexivity. Qed.

Lemma _get_name_only : preserves only_pg_name _get_name.
Proof.
  unfold _get_name, unclassifiable. pose proof set_pg_name_only.
  frame_with only_pg_name_refl only_pg_name_trans.
Qed.

Lemma axial_get_name (s : State) (highest_Cn : ref) (rest : list ref)
      (principal_exists improper_exists : bool) :
  rotations s = highest_Cn :: rest ->
  (count_ops (heap s) (operations s) is_high_axis < 2)%nat ->
  (principal_exists = true <->
   exists r, In r (operations s) /\ is_reflection (heap s r) = true /\
             principal_reflection (heap s r) = true) ->
  (improper_exists = true <->
   exists r, In r (operations s) /\ is_improper_rotation (heap s r) = true /\
             op_n (heap s r) = (2 * op_n (heap s highest_Cn))%Z) ->
  _get_name s =
  match axial_name (op_n (heap s highest_Cn))
          (count_ops (heap s) (operations s)
                     (is_perpendicular_C2 (op_axis (heap s highest_Cn))))
          (count_ops (heap s) (operations s) is_reflection)
          principal_exists improper_exists with
  | Some v => Ok (tt, with_pg_name s v)
  | None => Raise (GroupTheoryError UnclassifiableGroup)
  end.
Proof.
  intros Hrot Hhigh Hp Hi.
  unfold _get_name, bind, get.
  rewrite count_high_axes.
  destruct (Nat.leb_spec 2 (count_ops (heap s) (operations s) is_high_axis))
    as [Hle|_]; [lia|].
  rewrite Hrot. cbv zeta.
  rewrite count_perpendicular, (any_principal_reflection_iff _ _ Hp),
    (any_improper_iff _ _ _ Hi).
  unfold axial_name, unclassifiable, raise.
  change (List.length (reflections s))
    with (count_ops (heap s) (operations s) is_reflection).
  repeat match goal with |- context [if ?b then _ else _] => destruct b end;
    reflexivity.
Qed.

Lemma kind_is_perpendicular_C2 axis (o o' : Operation) :
  kind o = kind o' -> is_perpendicular_C2 axis o = is_perpendicular_C2 axis o'.
Proof.
  intros H. unfold is_perpendicular_C2.
  rewrite (kind_is_rotation _ _ H), (op_n_kind _ _ H), (op_axis_kind _ _ H).
  reflexivity.
Qed.

(** The name of a constructed group with one principal axis, from the
    operations given to the constructor and the flags of the reflections. *)
Lemma axial_construction (h : Heap) (ops : list ref) (s : State)
      (highest_Cn : ref) (rest : list ref) :
  PointGroup_init h ops = Ok s ->
  rotations s = highest_Cn :: rest ->
  (count_ops h ops is_high_axis < 2)%nat ->
  pg_name s =
  axial_name (op_n (h highest_Cn))
    (count_ops h ops (is_perpendicular_C2 (op_axis (h highest_Cn))))
    (count_ops h ops is_reflection)
    (existsb (fun r => is_reflection (heap s r)
                       && principal_reflection (heap s r)) (operations s))
    (existsb (fun r => is_improper_rotation (h r)
                       && Z.eqb (op_n (h r)) (2 * op_n (h highest_Cn))) ops).
Proof.
  intros H Hrot Hhigh.
  destruct (PointGroup_init_ok _ _ _ H) as (s1 & s2 & s3 & E1 & E2 & E3 & E4).
  assert (P : permuted (new_point_group h ops) s3).
  { eapply permuted_trans;
      [apply stable_permuted, (_check_closure_stable _ _ _ E1)|].
    eapply permuted_trans;
      [apply stable_permuted, (_compute_classes_stable _ _ _ E2)|].
    apply (_name_operations_permuted _ _ _ E3). }
  destruct (_get_name_only _ _ _ E4) as [Hh Ho].
  assert (Hrot3 : rotations s3 = highest_Cn :: rest).
  { unfold rotations in *. rewrite <- Hh, <- Ho. exact Hrot. }
  pose proof (count_ops_permuted _ _ _ kind_is_high_axis P) as Ch.
  pose proof (count_ops_permuted _ _ _ kind_is_reflection P) as Cf.
  pose proof (count_ops_permuted _ _ _
                (kind_is_perpendicular_C2 (op_axis (h highest_Cn))) P) as Cp.
  simpl in Ch, Cf, Cp.
  destruct P as [Pp _ Po]. simpl in Pp, Po.
  assert (Kh : kind (heap s3 highest_Cn) = kind (h highest_Cn))
    by apply Po.
  rewrite <- Ch in Hhigh.
  rewrite (axial_get_name s3 highest_Cn rest
             (existsb (fun r => is_reflection (heap s r)
                                && principal_reflection (heap s r))
                      (operations s))
             (existsb (fun r => is_improper_rotation (h r)
                                && Z.eqb (op_n (h r))
                                         (2 * op_n (h highest_Cn))) ops)
             Hrot3 Hhigh) in E4.
  - rewrite (op_n_kind _ _ Kh), (op_axis_kind _ _ Kh), Cp, Cf in E4.
    destruct (axial_name _ _ _ _ _) as [v|]; [|discriminate].
    inversion E4. reflexivity.
  - rewrite existsb_exists, Hh, Ho.
    split; intros (r & Hr & Hx); exists r.
    + apply andb_true_iff in Hx. tauto.
    + split; [tauto|]. apply andb_true_iff. tauto.
  - rewrite existsb_exists, (op_n_kind _ _ Kh).
    split; intros (r & Hr & Hx); exists r.
    + apply andb_true_iff in Hx. destruct Hx as [Hi Hn].
      apply Z.eqb_eq in Hn.
      split; [eapply Permutation_in; [apply Permutation_sym|]; eassumption|].
      rewrite (kind_is_improper_rotation _ _ (proj1 (Po r))),
        (op_n_kind _ _ (proj1 (Po r))). auto.
    + destruct Hx as [Hi Hn].
      rewrite (kind_is_improper_rotation _ _ (proj1 (Po r))) in Hi.
      rewrite (op_n_kind _ _ (proj1 (Po r))) in Hn.
      split; [eapply Permutation_in; eassumption|].
      apply andb_true_iff. rewrite Z.eqb_eq. auto.
Qed.

End Axial.

Local Open Scope string_scope.

(** C6: the name of a group that has a rotation and fewer than two
    exponent-1 rotation axes of order above 2.  With [n] the order of the
    first rotation of the sorted operations and the count of the order-2
    rotations perpendicular to its axis: when the count is [n], "D_nh" if
    a principal reflection exists, else "D_nd" if there are [n]
    reflections, else "D_n" if there is none, else the group is
    unclassifiable; otherwise "C_nh", else "C_nv", else "S_2n" if an
    improper rotation of order [2n] exists, else "C_n".  [_get_name]
    stores that name and changes nothing else; the name of a constructed
    group is the one of the table for the operations given to the
    constructor; and the groups C_2v, C_2h, C_4, S_4, D_2, D_2d and D_2h
    are given these names. *)
Theorem axial_groups_named :
  (forall (C : Collaborator) (s : State) (highest_Cn : ref)
          (rest : list ref) (principal_exists improper_exists : bool),
     rotations s = highest_Cn :: rest ->
     (count_ops (heap s) (operations s) is_high_axis < 2)%nat ->
     (principal_exists = true <->
      exists r, In r (operations s) /\ is_reflection (heap s r) = true /\
                principal_reflection (heap s r) = true) ->
     (improper_exists = true <->
      exists r, In r (operations s) /\
                is_improper_rotation (heap s r) = true /\
                op_n (heap s r) = (2 * op_n (heap s highest_Cn))%Z) ->
     _get_name s =
     match axial_name (op_n (heap s highest_Cn))
             (count_ops (heap s) (operations s)
                        (is_perpendicular_C2 (op_axis (heap s highest_Cn))))
             (count_ops (heap s) (operations s) is_reflection)
             principal_exists improper_exists with
     | Some v => Ok (tt, with_pg_name s v)
     | None => Raise (GroupTheoryError UnclassifiableGroup)
     end) /\
  (forall (C : Collaborator) (h : Heap) (ops : list ref) (s : State)
          (highest_Cn : ref) (rest : list ref),
     PointGroup_init h ops = Ok s ->
     rotations s = highest_Cn :: rest ->
     (count_ops h ops is_high_axis < 2)%nat ->
     pg_name s =
     axial_name (op_n (h highest_Cn))
       (count_ops h ops (is_perpendicular_C2 (op_axis (h highest_Cn))))
       (count_ops h ops is_reflection)
       (existsb (fun r => is_reflection (heap s r)
                          && principal_reflection (heap s r)) (operations s))
       (existsb (fun r => is_improper_rotation (h r)
                          && Z.eqb (op_n (h r)) (2 * op_n (h highest_Cn)))
                ops)) /\
  Exact.names_of (Exact.point_group Exact.C2v)
  = Ok ([Some "E"; Some "C_2"; Some "sigma_v(xz)"; Some "sigma_v(yz)"],
        Some "C_2v") /\
  Exact.names_of
    (Exact.point_group [Exact.E; Exact.C2z; Exact.inv; Exact.sigma_xy])
  = Ok ([Some "E"; Some "C_2"; Some "sigma_h(xy)"; Some "i"], Some "C_2h") /\
  Exact.names_of
    (Exact.point_group [Exact.E; Exact.C4z; Exact.C2z; Exact.C4z3])
  = Ok ([Some "E"; Some "C_4(z)"; Some "C_4(z)^3"; Some "C_2"],
        Some "C_4") /\
  Exact.names_of (Exact.point_group [Exact.E; S4z; Exact.C2z; S4z3])
  = Ok ([Some "E"; Some "C_2"; Some "S_4(z)"; Some "S_4(z)^3"],
        Some "S_4") /\
  Exact.names_of
    (Exact.point_group [Exact.E; Exact.C2z; Exact.C2y; Exact.C2x])
  = Ok ([Some "E"; Some "C_2(z)"; Some "C_2'"; Some "C_2(x)"],
        Some "D_2") /\
  Exact.names_of
    (Exact.point_group [Exact.E; S4z; Exact.C2z; S4z3; Exact.C2y; Exact.C2x;
                        sigma_d; sigma_d'])
  = Ok ([Some "E"; Some "C_2(z)"; Some "C_2'"; Some "C_2(x)";
         Some "S_4(z)"; Some "S_4(z)^3"; Some "sigma_d"; Some "sigma_d'"],
        Some "D_2d") /\
  Exact.names_of
    (Exact.point_group [Exact.E; Exact.C2z; Exact.C2y; Exact.C2x; Exact.inv;
                        Exact.sigma_xy; Exact.sigma_xz; Exact.sigma_yz])
  = Ok ([Some "E"; Some "C_2(z)"; Some "C_2'"; Some "C_2(x)";
         Some "sigma_h(xy)"; Some "sigma_v(xz)"; Some "sigma_v(yz)";
         Some "i"], Some "D_2h").
Proof.
  split; [intros C; apply axial_get_name|].
  split; [intros C; apply axial_construction|].
  repeat split; vm_compute; reflexivity.
Qed.

Section AxialFixtures.

Import Exact.

(** The group C_2v: the reflections through the xz and yz planes are not
    flagged, they are as many as the order of the axis, and [_get_name]
    stores "C_2v". *)
Lemma axial_groups_named_witness :
  _get_name (@new_point_group collaborator (heap_of C2v) [0; 1; 2; 3]%nat)
  = Ok (tt, @with_pg_name collaborator
              (@new_point_group collaborator (heap_of C2v) [0; 1; 2; 3]%nat)
              "C_2v").
Proof.
  apply (proj1 axial_groups_named collaborator
           (@new_point_group collaborator (heap_of C2v) [0; 1; 2; 3]%nat)
           1%nat [] false false).
  - reflexivity.
  - vm_compute. lia.
  - split; [discriminate|].
    intros (r & [<-|[<-|[<-|[<-|[]]]]] & H1 & H2); vm_compute in H2;
      discriminate.
  - split; [discriminate|].
    intros (r & [<-|[<-|[<-|[<-|[]]]]] & H1 & H2); vm_compute in H1;
      discriminate.
Defined.

End AxialFixtures.

Local Close Scope string_scope.
